(** * Shortest paths by dynamic programming, and a two-state hidden Markov model

    A shallow embedding of lecture code:

    - the shortest-path classes [BruteForceShortestPath] and
      [DynamicProgrammingShortestPath] of the dynamic-programming lecture
      (module [ShortestPath]);
    - the class [HMMBB] of the hidden-Markov-model lecture (module [HMM]);
    - the reader [generate_path_dict] of the delivery format, from the
      dynamic-programming lecture (module [GraphFile]);
    - the method [HMMBB.simulate] and the function [simulate_bb_model] of the
      hidden-Markov-model lecture (module [Simulation]);
    - the methods [forward], [filter_probabilities], [backward] and
      [smooth_probabilities] of [HMMBB] once more, on binary64 floats (module
      [Binary64]).

    Numbers.  In the graph code a Python number is the rational [Q] that it
    holds.  That is the code's own arithmetic on Python ints, which do not
    round; the properties that depend on the value of a sum or a difference
    are stated for int costs.  The tables of the HMM code are modelled twice:
    over the reals [R] (module [HMM]), for what the recursions compute in
    exact arithmetic, and over Rocq's primitive floats (module [Binary64]),
    the arithmetic of NumPy's [float64], for what the code returns where
    rounding, underflow and [nan] matter.  Python exceptions are values of
    the type [exn]; a [while] loop is a function with a fuel argument that
    counts the executions of the loop body.

    The code comes first, then the notions that the properties are stated
    with, then the properties. *)

From Stdlib Require Import List Ascii String Bool Arith ZArith QArith Qabs Lia.
From Stdlib Require Import Reals Psatz.
From Stdlib Require Floats.
Import ListNotations.
Local Open Scope string_scope.
Local Open Scope list_scope.

(** ** Outcomes of Python code *)

Inductive exn : Type := KeyError | ValueError | IndexError.

(** [Ok a]: the call returns [a]; [Raised e]: it raises [e]; [Running]: a
    [while] loop has not left after the number of iterations given as fuel. *)
Inductive outcome (A : Type) : Type :=
| Ok (a : A)
| Raised (e : exn)
| Running.

Arguments Ok {A} a.
Arguments Raised {A} e.
Arguments Running {A}.

Definition bind {A B : Type} (m : outcome A) (k : A -> outcome B) : outcome B :=
  match m with
  | Ok a => k a
  | Raised e => Raised e
  | Running => Running
  end.

Declare Scope outcome_scope.
Delimit Scope outcome_scope with outcome.
Notation "x <- m ;; k" := (bind m (fun x => k))
  (at level 61, m at next level, right associativity) : outcome_scope.
Notation "' pat <- m ;; k" := (bind m (fun x => match x with pat => k end))
  (at level 61, pat pattern, m at next level, right associativity) : outcome_scope.
Local Open Scope outcome_scope.

(** A list comprehension [[f x for x in l]] whose body may raise. *)
Fixpoint mapM {A B : Type} (f : A -> outcome B) (l : list A) : outcome (list B) :=
  match l with
  | [] => Ok []
  | x :: l' => y <- f x ;; ys <- mapM f l' ;; Ok (y :: ys)
  end.

(** A [for] loop over [l] that updates one variable and may raise. *)
Fixpoint foldM {A S : Type} (body : S -> A -> outcome S) (l : list A) (s : S)
  : outcome S :=
  match l with
  | [] => Ok s
  | x :: l' => s' <- body s x ;; foldM body l' s'
  end.

(** ** Python dictionaries

    A [dict] keeps its keys in insertion order, and the code below depends on
    that order ([list(d.keys())], [pop], the first minimum), so a dictionary is
    an association list. *)

Class Key (K : Type) : Type := {
  keyb : K -> K -> bool;
  keyb_spec : forall a b : K, keyb a b = true <-> a = b
}.

#[export] Instance string_Key : Key string :=
  {| keyb := String.eqb; keyb_spec := String.eqb_eq |}.

Fixpoint list_eqb {K : Type} `{Key K} (a b : list K) : bool :=
  match a, b with
  | [], [] => true
  | x :: a', y :: b' => keyb x y && list_eqb a' b'
  | _, _ => false
  end.

#[export, refine] Instance list_Key {K : Type} `{Key K} : Key (list K) :=
  {| keyb := list_eqb |}.
Proof.
  intros a; induction a as [|x a IH]; intros [|y b]; simpl;
    try (split; [discriminate | congruence]); try tauto.
  rewrite andb_true_iff, keyb_spec, IH. split.
  - intros [-> ->]; reflexivity.
  - intros E; injection E; auto.
Defined.

Section Dict.
Context {K V : Type} `{Key K}.

Definition dict : Type := list (K * V).

(** [d[k]] *)
Fixpoint getitem (d : dict) (k : K) : outcome V :=
  match d with
  | [] => Raised KeyError
  | (k', v) :: d' => if keyb k' k then Ok v else getitem d' k
  end.

(** [d[k] = v]: an existing key keeps its place, a new one goes last. *)
Fixpoint setitem (d : dict) (k : K) (v : V) : dict :=
  match d with
  | [] => [(k, v)]
  | (k', v') :: d' =>
      if keyb k' k then (k', v) :: d' else (k', v') :: setitem d' k v
  end.

Definition keys (d : dict) : list K := map fst d.
Definition values (d : dict) : list V := map snd d.

(** [{k: v for (k, v) in l}] *)
Definition dict_of (l : list (K * V)) : dict :=
  fold_left (fun d kv => setitem d (fst kv) (snd kv)) l [].

(** [d.update(e)] *)
Definition update (d e : dict) : dict :=
  fold_left (fun d kv => setitem d (fst kv) (snd kv)) e d.

End Dict.

Arguments dict K V : clear implicits.

(** ** Numbers and the built-ins [sum], [min], [max] *)

Definition Qltb (x y : Q) : bool := negb (Qle_bool y x).

(** [sum(l)]: the additions start from [0] and go left to right. *)
Definition py_sum (l : list Q) : Q := fold_left Qplus l 0%Q.

(** [max(l)]: the first largest element; [ValueError] on an empty list. *)
Definition py_max (l : list Q) : outcome Q :=
  match l with
  | [] => Raised ValueError
  | x :: l' => Ok (fold_left (fun m y => if Qltb m y then y else m) l' x)
  end.

(** [min(l)]: the first smallest element; [ValueError] on an empty list. *)
Definition py_min (l : list Q) : outcome Q :=
  match l with
  | [] => Raised ValueError
  | x :: l' => Ok (fold_left (fun m y => if Qltb y m then y else m) l' x)
  end.

(** [l[-1]] *)
Definition last_item {A : Type} (l : list A) : outcome A :=
  match rev l with
  | [] => Raised IndexError
  | x :: _ => Ok x
  end.

(** [l[0]] *)
Definition first_item {A : Type} (l : list A) : outcome A :=
  match l with
  | [] => Raised IndexError
  | x :: _ => Ok x
  end.

(** ** The shortest-path classes *)

Module ShortestPath.

Definition node : Type := string.

(** The cost dictionary: [dag[v][w]] is the cost of the edge from [v] to [w]. *)
Definition cost_dict : Type := dict node (dict node Q).

(** The fields set by [__init__], the same in both classes. *)
Record problem : Type := {
  dag : cost_dict;
  vertex : node;
  terminal : node
}.

(** The tolerance [1e-10] of [find_cost_function] and the starting value
    [1e10] of [min_cost] in [find_shortest_path]. *)
Definition tolerance : Q := 1 # 10000000000.
Definition min_cost_start : Q := 10000000000 # 1.

Section Methods.
Variable self : problem.

Definition is_at_end (v : node) : bool := String.eqb v (terminal self).

Definition available_actions (v : node) : outcome (list node) :=
  if is_at_end v then Ok []
  else d <- getitem (dag self) v ;; Ok (keys d).

(** The list [[dag[cpath[i]][cpath[i+1]] for i in range(len(cpath) - 1)]]. *)
Fixpoint edge_costs (cpath : list node) : outcome (list Q) :=
  match cpath with
  | v :: (w :: _) as rest =>
      d <- getitem (dag self) v ;;
      c <- getitem d w ;;
      cs <- edge_costs rest ;;
      Ok (c :: cs)
  | _ => Ok []
  end.

Definition evaluate_path (cpath : list node) : outcome Q :=
  cs <- edge_costs cpath ;; Ok (py_sum cs).

(** *** DynamicProgrammingShortestPath *)

Definition compare_J (Jn Jnp1 : dict node Q) : outcome Q :=
  ds <- mapM (fun k => a <- getitem Jn k ;;
                       b <- getitem Jnp1 k ;;
                       Ok (Qabs (a - b))) (keys (dag self)) ;;
  py_max ds.

Definition eval_action (v w : node) (J : dict node Q) : outcome Q :=
  d <- getitem (dag self) v ;;
  c <- getitem d w ;;
  j <- getitem J w ;;
  Ok (c + j)%Q.

Definition bellman_equation (v : node) (J : dict node Q) : outcome Q :=
  if String.eqb v (terminal self) then Ok 0%Q
  else
    actions <- available_actions v ;;
    J_np1 <- foldM (fun J_np1 w => c <- eval_action v w J ;;
                                   Ok (setitem J_np1 w c)) actions [] ;;
    py_min (values J_np1).

(** One execution of the body of the [while] loop of [find_cost_function]. *)
Definition cost_sweep (J_n J_np1 : dict node Q)
  : outcome (dict node Q * dict node Q) :=
  let J_n' := update J_n J_np1 in
  J_np1' <- foldM (fun J node => c <- bellman_equation node J_n' ;;
                                 Ok (setitem J node c))
                  (keys (dag self)) J_np1 ;;
  Ok (J_n', J_np1').

Fixpoint cost_loop (fuel : nat) (J_n J_np1 : dict node Q)
  : outcome (dict node Q) :=
  d <- compare_J J_n J_np1 ;;
  if Qltb tolerance d then
    match fuel with
    | O => Running
    | S fuel' =>
        ' (J_n', J_np1') <- cost_sweep J_n J_np1 ;;
        cost_loop fuel' J_n' J_np1'
    end
  else Ok J_np1.

Definition find_cost_function (fuel : nat) : outcome (dict node Q) :=
  let nodes := keys (dag self) in
  let J_n := dict_of (map (fun v => (v, 100%Q)) nodes) in
  let J_np1 := dict_of (map (fun v => (v, 0%Q)) nodes) in
  cost_loop fuel J_n J_np1.

(** The [for w in actions] loop of [find_shortest_path]. *)
Definition best_action (cnode : node) (J : dict node Q) (actions : list node)
  : outcome node :=
  optimal_action <- first_item actions ;;
  ' (optimal_action, _) <-
    foldM (fun st w =>
             J_v <- eval_action cnode w J ;;
             if Qltb J_v (snd st) then Ok (w, J_v) else Ok st)
          actions (optimal_action, min_cost_start) ;;
  Ok optimal_action.

Fixpoint path_loop (fuel : nat) (J : dict node Q) (cnode : node)
  (cpath : list node) : outcome (list node) :=
  if is_at_end cnode then Ok cpath
  else
    match fuel with
    | O => Running
    | S fuel' =>
        actions <- available_actions cnode ;;
        optimal_action <- best_action cnode J actions ;;
        path_loop fuel' J optimal_action (cpath ++ [optimal_action])
    end.

Definition find_shortest_path (fuel : nat) (J : dict node Q)
  : outcome (list node) :=
  path_loop fuel J (vertex self) [vertex self].

(** *** BruteForceShortestPath *)

Definition step_back_path (cpath : list node) : outcome (node * list node) :=
  let cpath := removelast cpath in
  cnode <- last_item cpath ;;
  Ok (cnode, cpath).

(** The local variables of [traverse_paths]. *)
Record traversal : Type := {
  t_actions : dict node (list node);
  t_cnode : node;
  t_cpath : list node;
  t_costs : dict (list node) Q
}.

(** One execution of the body of the [while] loop of [traverse_paths]:
    [inl] the variables for the next iteration, [inr] after [break]. *)
Definition traverse_step (s : traversal)
  : outcome (traversal + dict (list node) Q) :=
  cactions <- getitem (t_actions s) (t_cnode s) ;;
  if is_at_end (t_cnode s) then
    cost <- evaluate_path (t_cpath s) ;;
    let paths_costs := setitem (t_costs s) (t_cpath s) cost in
    ' (cnode, cpath) <- step_back_path (t_cpath s) ;;
    Ok (inl {| t_actions := t_actions s; t_cnode := cnode;
               t_cpath := cpath; t_costs := paths_costs |})
  else if (List.length cactions =? 0)%nat && (1 <? List.length (t_cpath s))%nat then
    acts <- available_actions (t_cnode s) ;;
    let actions := setitem (t_actions s) (t_cnode s) acts in
    ' (cnode, cpath) <- step_back_path (t_cpath s) ;;
    Ok (inl {| t_actions := actions; t_cnode := cnode;
               t_cpath := cpath; t_costs := t_costs s |})
  else if (0 <? List.length cactions)%nat then
    caction <- last_item cactions ;;
    let actions := setitem (t_actions s) (t_cnode s) (removelast cactions) in
    Ok (inl {| t_actions := actions; t_cnode := caction;
               t_cpath := t_cpath s ++ [caction]; t_costs := t_costs s |})
  else Ok (inr (t_costs s)).

Fixpoint traverse_loop (fuel : nat) (s : traversal)
  : outcome (dict (list node) Q) :=
  match t_cpath s with
  | [] => Ok (t_costs s)
  | _ :: _ =>
      match fuel with
      | O => Running
      | S fuel' =>
          r <- traverse_step s ;;
          match r with
          | inl s' => traverse_loop fuel' s'
          | inr paths_costs => Ok paths_costs
          end
      end
  end.

Definition traverse_paths (fuel : nat) : outcome (dict (list node) Q) :=
  acts <- mapM (fun k => a <- available_actions k ;; Ok (k, a))
               (keys (dag self)) ;;
  traverse_loop fuel {| t_actions := dict_of acts; t_cnode := vertex self;
                        t_cpath := [vertex self]; t_costs := [] |}.

Definition find_shortest_paths (fuel : nat) : outcome (list (list node)) :=
  paths_costs <- traverse_paths fuel ;;
  min_cost <- py_min (values paths_costs) ;;
  pcs <- mapM (fun _path => c <- getitem paths_costs _path ;; Ok (_path, c))
              (keys paths_costs) ;;
  Ok (map fst (filter (fun pc => Qle_bool (snd pc) min_cost) pcs)).

End Methods.

(** The graph of the lecture's first example, [simple_cost_dict]. *)
Definition simple_cost_dict : cost_dict :=
  [ ("A", [("B", 1); ("C", 5); ("D", 3)]);
    ("B", [("D", 9); ("E", 6)]);
    ("C", [("F", 2)]);
    ("D", [("F", 4); ("G", 8)]);
    ("E", [("G", 4)]);
    ("F", [("G", 1)]);
    ("G", []) ]%Q.

Definition simple_problem : problem :=
  {| dag := simple_cost_dict; vertex := "A"; terminal := "G" |}.

End ShortestPath.

(** ** The reader of the delivery format *)

Module GraphFile.
Import ShortestPath.

(** Python strings are modelled by the strings of Rocq, a character being a
    code point below 256. *)

(** [c.isspace()] *)
Definition is_space (c : Ascii.ascii) : bool :=
  let n := Ascii.nat_of_ascii c in
  ((9 <=? n) && (n <=? 13) || (28 <=? n) && (n <=? 32)
   || (n =? 133) || (n =? 160))%nat.

(** [s.lstrip()], [s.rstrip()] and [s.strip()] *)
Fixpoint lstrip (s : string) : string :=
  match s with
  | EmptyString => EmptyString
  | String c s' => if is_space c then lstrip s' else s
  end.

Fixpoint rstrip (s : string) : string :=
  match s with
  | EmptyString => EmptyString
  | String c s' =>
      match rstrip s' with
      | EmptyString => if is_space c then EmptyString else String c EmptyString
      | r => String c r
      end
  end.

Definition strip (s : string) : string := rstrip (lstrip s).

(** [s] without the prefix [sep], when it starts with it. *)
Fixpoint after_prefix (sep s : string) : option string :=
  match sep, s with
  | EmptyString, _ => Some s
  | String a sep', String c s' =>
      if Ascii.eqb a c then after_prefix sep' s' else None
  | String _ _, EmptyString => None
  end.

(** [s.partition(sep)] at the leftmost [sep], when there is one. *)
Fixpoint cut (sep s : string) : option (string * string) :=
  match after_prefix sep s with
  | Some rest => Some (EmptyString, rest)
  | None =>
      match s with
      | EmptyString => None
      | String c s' =>
          match cut sep s' with
          | Some (a, b) => Some (String c a, b)
          | None => None
          end
      end
  end.

(** [s.split(sep)] for a separator that is not empty: the cuts go from left
    to right; [n] bounds their number. *)
Fixpoint split_upto (n : nat) (sep s : string) : list string :=
  match n with
  | O => [s]
  | S n' =>
      match cut sep s with
      | None => [s]
      | Some (a, b) => a :: split_upto n' sep b
      end
  end.

Definition split (sep s : string) : list string :=
  split_upto (String.length s) sep s.

(** [s.split(sep, maxsplit=1)] *)
Definition split_once (sep s : string) : list string := split_upto 1 sep s.

Section Reader.
(** [float(s)] on the strings of costs: the number it returns, or
    [ValueError]. *)
Variable float : string -> outcome Q.

(** The body of [for route in possible_routes]. *)
Definition read_route (route_dict : dict node Q) (route : string)
  : outcome (dict node Q) :=
  match split " " route with
  | [_node; _cost] => c <- float _cost ;; Ok (setitem route_dict _node c)
  | _ => Raised ValueError
  end.

(** The body of [for line in lines]. *)
Definition read_line (cost_dict : cost_dict) (line : string)
  : outcome ShortestPath.cost_dict :=
  match map strip (split_once "," line) with
  | [node_name; routes_str] =>
      if (String.length routes_str =? 0)%nat then
        Ok (setitem cost_dict node_name [])
      else
        let possible_routes := split ", " routes_str in
        route_dict <- foldM read_route possible_routes [] ;;
        Ok (setitem cost_dict node_name route_dict)
  | _ => Raised ValueError
  end.

(** [generate_path_dict] on the lines that [f.readlines()] returned. *)
Definition generate_path_dict (lines : list string)
  : outcome ShortestPath.cost_dict :=
  foldM read_line lines [].

End Reader.

End GraphFile.

(** ** The hidden Markov model of bear and bull markets *)

Module HMM.
Local Open Scope R_scope.

(** *** NumPy pieces *)

(** [a[i]] on a one-dimensional array or a list: a negative index counts from
    the end, an index out of range raises [IndexError]. *)
Definition np_item {A : Type} (a : list A) (i : Z) : outcome A :=
  let n := Z.of_nat (List.length a) in
  let j := if (i <? 0)%Z then (i + n)%Z else i in
  if ((0 <=? j) && (j <? n))%Z then
    match nth_error a (Z.to_nat j) with
    | Some x => Ok x
    | None => Raised IndexError
    end
  else Raised IndexError.

Fixpoint replace_nth {A : Type} (n : nat) (x : A) (a : list A) : list A :=
  match a, n with
  | [], _ => []
  | _ :: a', O => x :: a'
  | y :: a', S n' => y :: replace_nth n' x a'
  end.

(** [a[i] = x] *)
Definition np_setitem {A : Type} (a : list A) (i : Z) (x : A)
  : outcome (list A) :=
  let n := Z.of_nat (List.length a) in
  let j := if (i <? 0)%Z then (i + n)%Z else i in
  if ((0 <=? j) && (j <? n))%Z then Ok (replace_nth (Z.to_nat j) x a)
  else Raised IndexError.

(** The values of [np.log] on probabilities: [np.log(0)] is [-inf].  The
    argument is taken to be non-negative ([np.log] of a negative number is
    [nan], which the model does not have). *)
Inductive logval : Type := NegInf | Fin (r : R).

Definition np_log (x : R) : logval :=
  if Req_dec_T x 0 then NegInf else Fin (ln x).

Definition np_exp (a : logval) : R :=
  match a with
  | NegInf => 0
  | Fin r => exp r
  end.

Definition ladd (a b : logval) : logval :=
  match a, b with
  | Fin x, Fin y => Fin (x + y)
  | _, _ => NegInf
  end.

(** [a < b] *)
Definition lltb (a b : logval) : bool :=
  match a, b with
  | _, NegInf => false
  | NegInf, Fin _ => true
  | Fin x, Fin y => if Rlt_dec x y then true else false
  end.

Infix "+l" := ladd (at level 50, left associativity).

(** A row of a table with one column per hidden state: bear (0), bull (1). *)
Definition row : Type := (R * R)%type.
Definition lrow : Type := (logval * logval)%type.

(** [max([a, b])] of Python and [np.argmax] on a row of two. *)
Definition max2 (v : lrow) : logval := if lltb (fst v) (snd v) then snd v else fst v.
Definition argmax (v : lrow) : nat := if lltb (fst v) (snd v) then 1%nat else 0%nat.

(** [v[i]] for a row and a state index. *)
Definition at2 {A : Type} (v : A * A) (i : nat) : outcome A :=
  match i with
  | 0%nat => Ok (fst v)
  | 1%nat => Ok (snd v)
  | _ => Raised IndexError
  end.

(** *** The class HMMBB *)

(** [P] is the 2 x 2 array [self.P], by rows; [emp] is the 2 x k array
    [self.emp], by rows. *)
Record HMMBB : Type := {
  P : row * row;
  emp : list R * list R
}.

Section Init.
(** [qe.MarkovChain(P)] is a call into the library quantecon: whether its
    constructor accepts the matrix is a parameter. *)
Variable MarkovChain_accepts : row * row -> bool.

(** [HMMBB.__init__]: [np.row_stack] raises [ValueError] when the two rows
    differ in length, as does the library when it refuses [P]. *)
Definition init (p_bear p_bull : R) (r_bear_probs r_bull_probs : list R)
  : outcome HMMBB :=
  let P := ((p_bear, 1 - p_bear), (1 - p_bull, p_bull)) in
  if MarkovChain_accepts P then
    if (List.length r_bear_probs =? List.length r_bull_probs)%nat then
      Ok {| P := P; emp := (r_bear_probs, r_bull_probs) |}
    else Raised ValueError
  else Raised ValueError.

End Init.

Section Methods.
Variable self : HMMBB.

Definition P00 : R := fst (fst (P self)).
Definition P01 : R := snd (fst (P self)).
Definition P10 : R := fst (snd (P self)).
Definition P11 : R := snd (snd (P self)).

(** [self.P[:, x]] and [self.P[x, :]] *)
Definition P_col (x : nat) : outcome row :=
  match x with
  | 0%nat => Ok (P00, P10)
  | 1%nat => Ok (P01, P11)
  | _ => Raised IndexError
  end.

Definition P_row (x : nat) : outcome row := at2 (P self) x.

(** [self.emp[:, y]] *)
Definition emp_col (y : Z) : outcome row :=
  e0 <- np_item (fst (emp self)) y ;;
  e1 <- np_item (snd (emp self)) y ;;
  Ok (e0, e1).

(** The body of [for t in range(1, T)] in [forward], from row [t - 1]. *)
Definition forward_step (prev : row) (y : Z) : outcome row :=
  let predictor_bear := 0 + fst prev * P00 + snd prev * P10 in
  let predictor_bull := 0 + fst prev * P01 + snd prev * P11 in
  e <- emp_col y ;;
  Ok (fst e * predictor_bear, snd e * predictor_bull).

Fixpoint forward_loop (prev : row) (ys : list Z) : outcome (list row) :=
  match ys with
  | [] => Ok []
  | y :: ys' =>
      r <- forward_step prev y ;;
      rest <- forward_loop r ys' ;;
      Ok (r :: rest)
  end.

(** [forward]: the table of [alpha(x_t) = P(x_t, y^t)]. *)
Definition forward (realized_returns : list Z) : outcome (list row) :=
  match realized_returns with
  | [] => Raised IndexError
  | y0 :: ys =>
      e <- emp_col y0 ;;
      let r0 := (fst e * 0.5, snd e * 0.5) in
      rest <- forward_loop r0 ys ;;
      Ok (r0 :: rest)
  end.

(** [alphas / np.sum(alphas, axis=1)[:, None]] *)
Definition filter_probabilities (alphas : list row) : list row :=
  map (fun a => (fst a / (fst a + snd a), snd a / (fst a + snd a))) alphas.

(** The body of [for tp1 in range(T-1, 0, -1)] in [backward]: row [tp1 - 1]
    from row [tp1] and the observation at [tp1]. *)
Definition backward_step (y : Z) (next : row) : outcome row :=
  e <- emp_col y ;;
  let _val0 := np_log (fst e) +l np_log (fst next) in
  let _val1 := np_log (snd e) +l np_log (snd next) in
  let value_bear :=
    0 + np_exp (_val0 +l np_log P00) + np_exp (_val1 +l np_log P01) in
  let value_bull :=
    0 + np_exp (_val0 +l np_log P10) + np_exp (_val1 +l np_log P11) in
  Ok (value_bear, value_bull).

(** The rows [t, ..., T-1] of a table filled from its last row backwards:
    [ys] are the observations from [t] on, [last_row] is row [T-1], and
    [step y next] gives row [s - 1] from row [s] and the observation at [s]. *)
Fixpoint fill_back {A : Type} (step : Z -> A -> outcome A) (last_row : A)
  (ys : list Z) : outcome (list A) :=
  match ys with
  | [] => Raised IndexError
  | [_] => Ok [last_row]
  | _ :: (y' :: _) as ys' =>
      rest <- fill_back step last_row ys' ;;
      next <- first_item rest ;;
      r <- step y' next ;;
      Ok (r :: rest)
  end.

(** [backward]: the table of [beta(x_t) = P(y^{t+1:T} | x_t)]. *)
Definition backward (realized_returns : list Z) : outcome (list row) :=
  fill_back backward_step (1, 1) realized_returns.

(** The shapes [(n, 2)] and [(m, 2)] of two tables broadcast together when
    [n = m] or one of them is 1, whose single row is then repeated. *)
Definition broadcast_rows (a b : list row) : outcome (list (row * row)) :=
  if (List.length a =? List.length b)%nat then Ok (combine a b)
  else match a, b with
       | [r], _ => Ok (map (fun x => (r, x)) b)
       | _, [r] => Ok (map (fun x => (x, r)) a)
       | _, _ => Raised ValueError
       end.

(** [alphas*betas / np.sum(alphas*betas, axis=1)[:, None]] *)
Definition smooth_probabilities (alphas betas : list row) : outcome (list row) :=
  ab <- broadcast_rows alphas betas ;;
  Ok (map (fun ab => let a := fst ab in let b := snd ab in
                     (fst a * fst b / (fst a * fst b + snd a * snd b),
                      snd a * snd b / (fst a * fst b + snd a * snd b))) ab).

(** The body of [for t in range(T-1, 0, -1)] in [viterbi]: row [t - 1] of
    [log_mus] from row [t] and the observation at [t]. *)
Definition viterbi_step (y : Z) (next : lrow) : outcome lrow :=
  e <- emp_col y ;;
  let mu xtm1_row :=
    max2 (np_log (fst e) +l np_log (fst xtm1_row) +l fst next,
          np_log (snd e) +l np_log (snd xtm1_row) +l snd next) in
  Ok (mu (P00, P01), mu (P10, P11)).

(** [log_mus] as [viterbi] has it before it decodes: [np.ones((T, 2))] with
    the rows [T-2, ..., 0] filled in. *)
Definition log_mus_table (realized_returns : list Z) : outcome (list lrow) :=
  match realized_returns with
  | [] => Ok []
  | _ :: _ => fill_back viterbi_step (Fin 1, Fin 1) realized_returns
  end.

(** [np.log(emp[:, y]) + np.log(q) + log_mus[t, :]] *)
Definition score (e q : row) (m : lrow) : lrow :=
  (np_log (fst e) +l np_log (fst q) +l fst m,
   np_log (snd e) +l np_log (snd q) +l snd m).

(** The body of [for t in range(T)] in [viterbi]. *)
Definition decode_step (realized_returns : list Z) (log_mus : list lrow)
  (xt_star : list nat) (t : nat) : outcome (list nat) :=
  y <- np_item realized_returns (Z.of_nat t) ;;
  e <- emp_col y ;;
  prev <- np_item xt_star (Z.of_nat t - 1) ;;
  q <- P_row prev ;;
  m <- np_item log_mus (Z.of_nat t) ;;
  np_setitem xt_star (Z.of_nat t) (argmax (score e q m)).

Definition viterbi (realized_returns : list Z) : outcome (list nat) :=
  let T := List.length realized_returns in
  log_mus <- log_mus_table realized_returns ;;
  let xt_star := repeat 0%nat T in
  y0 <- np_item realized_returns 0 ;;
  e <- emp_col y0 ;;
  m <- np_item log_mus 0 ;;
  xt_star <- np_setitem xt_star 0 (argmax (score e (0.5, 0.5) m)) ;;
  foldM (decode_step realized_returns log_mus) (seq 0 T) xt_star.

(** *** Sampling *)

(** [qe.DiscreteRV(sample_probs).draw()] is a call into quantecon, which
    draws from NumPy's global generator: the state of that generator is the
    type [rng], and the call is the parameter [draw], which returns the index
    drawn and the state it leaves. *)
Variable rng : Type.
Variable draw : row -> rng -> nat * rng.

(** The variables of the loop of [ffbs]; [drawn_from] is not a variable of the
    code: it records, for each [t], the [sample_probs] that [x_sample[t]] was
    drawn from. *)
Record sampler : Type := {
  x_sample : list nat;
  sample_probs : row;
  drawn_from : list (nat * row)
}.

(** The body of [for t in range(T-1, -1, -1)] in [ffbs]. *)
Definition ffbs_step (betas : list row) (s : sampler) (t : nat) (g : rng)
  : outcome sampler * rng :=
  let (x, g') := draw (sample_probs s) g in
  (xs <- np_setitem (x_sample s) (Z.of_nat t) x ;;
   let log := drawn_from s ++ [(t, sample_probs s)] in
   if (0 <? Z.of_nat t - 1)%Z then
     x_t <- np_item xs (Z.of_nat t) ;;
     c <- P_col x_t ;;
     b <- np_item betas (Z.of_nat t - 1) ;;
     let sp := (fst c * fst b, snd c * snd b) in
     let sp := (fst sp / (fst sp + snd sp), snd sp / (fst sp + snd sp)) in
     Ok {| x_sample := xs; sample_probs := sp; drawn_from := log |}
   else Ok {| x_sample := xs; sample_probs := sample_probs s;
              drawn_from := log |},
   g').

Fixpoint ffbs_loop (betas : list row) (ts : list nat) (s : sampler) (g : rng)
  : outcome sampler * rng :=
  match ts with
  | [] => (Ok s, g)
  | t :: ts' =>
      match ffbs_step betas s t g with
      | (Ok s', g') => ffbs_loop betas ts' s' g'
      | (Raised e, g') => (Raised e, g')
      | (Running, g') => (Running, g')
      end
  end.

(** [ffbs] with all its local variables at the end. *)
Definition ffbs_run (realized_returns : list Z) (g : rng)
  : outcome sampler * rng :=
  let T := List.length realized_returns in
  match (alphas <- forward realized_returns ;;
         betas <- backward realized_returns ;;
         let filtered_probabilities := filter_probabilities alphas in
         sp <- np_item filtered_probabilities (-1) ;;
         Ok (betas, sp)) with
  | Ok (betas, sp) =>
      ffbs_loop betas (rev (seq 0 T))
        {| x_sample := repeat 0%nat T; sample_probs := sp; drawn_from := [] |} g
  | Raised e => (Raised e, g)
  | Running => (Running, g)
  end.

(** [ffbs]: the sampled path, and the state the global generator is left in. *)
Definition ffbs (realized_returns : list Z) (g : rng)
  : outcome (list nat) * rng :=
  match ffbs_run realized_returns g with
  | (Ok s, g') => (Ok (x_sample s), g')
  | (Raised e, g') => (Raised e, g')
  | (Running, g') => (Running, g')
  end.

End Methods.

End HMM.

(** ** The probability tables in floating point

    [forward], [filter_probabilities], [backward] and [smooth_probabilities]
    once more, on the numbers that the code computes with: NumPy's [float64],
    the binary64 format of IEEE 754, which is Rocq's type [float].  Sums,
    products and quotients are rounded to the nearest float, a product too
    small for the format underflows to 0, and [0 / 0] is [nan]. *)

Module Binary64.
Import Floats.PrimFloat.
Local Open Scope float_scope.

Definition row : Type := (float * float)%type.

(** [P] is the 2 x 2 array [self.P], by rows; [emp] is the 2 x k array
    [self.emp], by rows. *)
Record HMMBB : Type := {
  P : row * row;
  emp : list float * list float
}.

Section Methods.
Variable self : HMMBB.

Definition P00 : float := fst (fst (P self)).
Definition P01 : float := snd (fst (P self)).
Definition P10 : float := fst (snd (P self)).
Definition P11 : float := snd (snd (P self)).

(** [self.emp[:, y]] *)
Definition emp_col (y : Z) : outcome row :=
  e0 <- HMM.np_item (fst (emp self)) y ;;
  e1 <- HMM.np_item (snd (emp self)) y ;;
  Ok (e0, e1).

(** The body of [for t in range(1, T)] in [forward], from row [t - 1]. *)
Definition forward_step (prev : row) (y : Z) : outcome row :=
  let predictor_bear := 0 + fst prev * P00 + snd prev * P10 in
  let predictor_bull := 0 + fst prev * P01 + snd prev * P11 in
  e <- emp_col y ;;
  Ok (fst e * predictor_bear, snd e * predictor_bull).

Fixpoint forward_loop (prev : row) (ys : list Z) : outcome (list row) :=
  match ys with
  | [] => Ok []
  | y :: ys' =>
      r <- forward_step prev y ;;
      rest <- forward_loop r ys' ;;
      Ok (r :: rest)
  end.

Definition forward (realized_returns : list Z) : outcome (list row) :=
  match realized_returns with
  | [] => Raised IndexError
  | y0 :: ys =>
      e <- emp_col y0 ;;
      let r0 := (fst e * 0.5, snd e * 0.5) in
      rest <- forward_loop r0 ys ;;
      Ok (r0 :: rest)
  end.

(** [alphas / np.sum(alphas, axis=1)[:, None]] *)
Definition filter_probabilities (alphas : list row) : list row :=
  map (fun a => (fst a / (fst a + snd a), snd a / (fst a + snd a))) alphas.

(** [np.log] and [np.exp] are calls into the C library: they are
    parameters. *)
Variable np_log np_exp : float -> float.

(** The body of [for tp1 in range(T-1, 0, -1)] in [backward]: row [tp1 - 1]
    from row [tp1] and the observation at [tp1]. *)
Definition backward_step (y : Z) (next : row) : outcome row :=
  e <- emp_col y ;;
  let _val0 := np_log (fst e) + np_log (fst next) in
  let _val1 := np_log (snd e) + np_log (snd next) in
  let value_bear :=
    0 + np_exp (_val0 + np_log P00) + np_exp (_val1 + np_log P01) in
  let value_bull :=
    0 + np_exp (_val0 + np_log P10) + np_exp (_val1 + np_log P11) in
  Ok (value_bear, value_bull).

Definition backward (realized_returns : list Z) : outcome (list row) :=
  HMM.fill_back backward_step (1, 1) realized_returns.

(** The shapes [(n, 2)] and [(m, 2)] of two tables broadcast together when
    [n = m] or one of them is 1, whose single row is then repeated. *)
Definition broadcast_rows (a b : list row) : outcome (list (row * row)) :=
  if (List.length a =? List.length b)%nat then Ok (combine a b)
  else match a, b with
       | [r], _ => Ok (map (fun x => (r, x)) b)
       | _, [r] => Ok (map (fun x => (x, r)) a)
       | _, _ => Raised ValueError
       end.

(** [alphas*betas / np.sum(alphas*betas, axis=1)[:, None]] *)
Definition smooth_probabilities (alphas betas : list row) : outcome (list row) :=
  ab <- broadcast_rows alphas betas ;;
  Ok (map (fun ab => let a := fst ab in let b := snd ab in
                     (fst a * fst b / (fst a * fst b + snd a * snd b),
                      snd a * snd b / (fst a * fst b + snd a * snd b))) ab).

End Methods.

End Binary64.

(** ** Simulation of the model *)

Module Simulation.
Import HMM.

Section Simulate.
(** The state of NumPy's global generator, and the two calls into quantecon
    that draw from it: [mc.simulate_indices(T)] for the chain [mc] built from
    a transition matrix, and [qe.DiscreteRV(q).draw()[0]]. *)
Variable rng : Type.
Variable simulate_indices : row * row -> nat -> rng -> list nat * rng.
Variable draw_index : list R -> rng -> Z * rng.

(** The loop [for t, bb in enumerate(bb_idx)] of both functions, [r_probs]
    giving the emission probabilities for the hidden state. *)
Fixpoint returns_loop (r_probs : nat -> outcome (list R))
  (bb_idx : list (nat * nat)) (realized_returns : list Z) (g : rng)
  : outcome (list Z) * rng :=
  match bb_idx with
  | [] => (Ok realized_returns, g)
  | (t, bb) :: rest =>
      match r_probs bb with
      | Ok q =>
          let (x, g') := draw_index q g in
          match np_setitem realized_returns (Z.of_nat t) x with
          | Ok realized_returns' => returns_loop r_probs rest realized_returns' g'
          | Raised e => (Raised e, g')
          | Running => (Running, g')
          end
      | Raised e => (Raised e, g)
      | Running => (Running, g)
      end
  end.

Definition enumerate {A : Type} (l : list A) : list (nat * A) :=
  combine (seq 0 (List.length l)) l.

(** The function [simulate_bb_model(mc, r_bear_probs, r_bull_probs, T)], the
    chain [mc] given by its transition matrix. *)
Definition simulate_bb_model (mc : row * row) (r_bear_probs r_bull_probs : list R)
  (T : nat) (g : rng) : outcome (list nat * list Z) * rng :=
  let (bb_idx, g1) := simulate_indices mc T g in
  let r_probs bb := if (bb =? 0)%nat then Ok r_bear_probs else Ok r_bull_probs in
  match returns_loop r_probs (enumerate bb_idx) (repeat 0%Z T) g1 with
  | (Ok realized_returns, g2) => (Ok (bb_idx, realized_returns), g2)
  | (Raised e, g2) => (Raised e, g2)
  | (Running, g2) => (Running, g2)
  end.

(** The method [HMMBB.simulate(T)]: the emission probabilities are the row
    [self.emp[bb, :]]. *)
Definition simulate (self : HMMBB) (T : nat) (g : rng)
  : outcome (list nat * list Z) * rng :=
  let (bb_idx, g1) := simulate_indices (P self) T g in
  let r_probs bb := at2 (emp self) bb in
  match returns_loop r_probs (enumerate bb_idx) (repeat 0%Z T) g1 with
  | (Ok realized_returns, g2) => (Ok (bb_idx, realized_returns), g2)
  | (Raised e, g2) => (Raised e, g2)
  | (Running, g2) => (Running, g2)
  end.

End Simulate.

End Simulation.

(** * Specifications *)

(** ** Shortest paths *)

Import ShortestPath.

(** A loop that has returned or raised does the same with more fuel. *)
Definition settled {A : Type} (r : outcome A) : Prop := r <> Running.

Section RouteSpec.
Variable self : problem.
Local Open Scope Q_scope.

(** [edge v w c]: [dag[v][w]] is [c]. *)
Definition edge (v w : node) (c : Q) : Prop :=
  exists d, getitem (dag self) v = Ok d /\ getitem d w = Ok c.

(** [route v p]: [p] lists the vertices of a walk along edges that starts at
    [v] and stops the first time it is at the terminal. *)
Inductive route : node -> list node -> Prop :=
| route_end : route (terminal self) [terminal self]
| route_step (v w : node) (c : Q) (p : list node) :
    v <> terminal self -> edge v w c -> route w p -> route v (v :: p).

(** The cost dictionary format: a dictionary of dictionaries, so keys are
    distinct, in which every vertex an edge leads to has an entry. *)
Record dag_format : Prop := {
  format_keys : NoDup (keys (dag self));
  format_inner : forall v d, In (v, d) (dag self) -> NoDup (keys d);
  format_closed : forall v w c, edge v w c -> In w (keys (dag self))
}.

(** Acyclic: the vertices can be numbered so that every edge goes down. *)
Definition acyclic : Prop :=
  exists rank : node -> nat, forall v w c, edge v w c -> (rank w < rank v)%nat.

(** [J[v]], [bellman_equation(v, J)] and [evaluate_path(p)] where they return. *)
Definition jval (J : dict node Q) (v : node) : Q :=
  match getitem J v with Ok x => x | _ => 0 end.

Definition bval (J : dict node Q) (v : node) : Q :=
  match bellman_equation self v J with Ok x => x | _ => 0 end.

Definition pcost (p : list node) : Q :=
  match evaluate_path self p with Ok c => c | _ => 0 end.

(** One sweep of value function iteration over all vertices. *)
Definition sweep (J : dict node Q) : dict node Q :=
  map (fun k => (k, bval J k)) (keys (dag self)).

Definition covers (J : dict node Q) : Prop := keys J = keys (dag self).

(** [x] is a whole multiple of the unit [u]. *)
Definition on_grid (u x : Q) : Prop := exists z : Z, x == inject_Z z * u.

(** [J] solves the Bellman equation at every vertex. *)
Definition fixed (J : dict node Q) : Prop :=
  covers J /\
  forall v, In v (keys (dag self)) ->
    exists x, bellman_equation self v J = Ok x /\ jval J v == x.

(** Python ints.  The int [n] is the rational [n # 1].  Python adds,
    subtracts and compares ints exactly, and compares an int with the floats
    [1e-10] and [1e10] exactly, so on ints the numbers of the model are the
    numbers of the code.  On floats the code rounds every sum and difference
    (also on a float that holds a whole number); the properties below that
    depend on the value of a sum are stated for costs that are ints. *)
Definition int_costs : Prop :=
  forall v w c, edge v w c -> Qden c = 1%positive.

(** Every entry of the cost function [J] is an int. *)
Definition int_table (J : dict node Q) : Prop :=
  forall v x, getitem J v = Ok x -> Qden x = 1%positive.

(** [J] at the vertices of the cost dictionary, in their order. *)
Definition restrict (J : dict node Q) : dict node Q :=
  map (fun k => (k, jval J k)) (keys (dag self)).

(** [n] executions of the body of the [while] loop of [find_cost_function],
    from the dictionaries [J_n] and [J_np1]. *)
Fixpoint sweeps (n : nat) (J_n J_np1 : dict node Q)
  : outcome (dict node Q * dict node Q) :=
  match n with
  | O => Ok (J_n, J_np1)
  | S n' =>
      ' (J_n', J_np1') <- cost_sweep self J_n J_np1 ;;
      sweeps n' J_n' J_np1'
  end.

(** The dictionaries that [find_cost_function] starts from. *)
Definition first_guess : dict node Q * dict node Q :=
  (dict_of (map (fun v => (v, 100)) (keys (dag self))),
   dict_of (map (fun v => (v, 0)) (keys (dag self)))).

End RouteSpec.

Section IterationSpec.
Variable self : problem.
Variable rank : node -> nat.
Variable unit_cost : Q.
Local Open Scope Q_scope.

Definition grid_valued (J : dict node Q) : Prop :=
  forall v, In v (keys (dag self)) -> on_grid unit_cost (jval J v).

Definition agree_below (r : nat) (J J' : dict node Q) : Prop :=
  forall v, In v (keys (dag self)) -> (rank v < r)%nat -> jval J v == jval J' v.

End IterationSpec.

Section TraversalSpec.
Variable self : problem.
Variable rank : node -> nat.
Local Open Scope Q_scope.

(** The list that [available_actions] returns at an entry of the dictionary. *)
Definition full (v : node) : list node :=
  match available_actions self v with Ok a => a | _ => [] end.

(** Every vertex of rank below [r] has all its actions left. *)
Definition fresh_below (A : dict node (list node)) (r : nat) : Prop :=
  forall w, In w (keys (dag self)) -> (rank w < r)%nat -> getitem A w = Ok (full w).

(** The walk [pre] followed by [v] begins every route through it. *)
Definition begins (pre : list node) (v : node) : Prop :=
  forall r, route self v r -> route self (vertex self) (pre ++ r).

(** [PC'] holds [PC], with sound entries for at least the routes in [S]. *)
Definition adds (PC PC' : dict (list node) Q) (S : list node -> Prop) : Prop :=
  (forall q c, In (q, c) PC' ->
     In (q, c) PC \/ (route self (vertex self) q /\ evaluate_path self q = Ok c)) /\
  (forall q, In q (keys PC) -> In q (keys PC')) /\
  (forall q, S q -> In q (keys PC')).

Definition acovers (A : dict node (list node)) : Prop := keys A = keys (dag self).

(** From [v] on top of the walk, with all actions left at [v] and below, the
    loop comes back to the vertex under [v] having recorded every route
    through the walk, and leaves the actions as they were. *)
Definition visits (v : node) : Prop :=
  forall pre u A PC,
    begins (pre ++ [u]) v -> acovers A -> fresh_below A (S (rank v)) ->
    exists fuel PC',
      (forall k,
         traverse_loop self (fuel + k)
           {| t_actions := A; t_cnode := v; t_cpath := (pre ++ [u]) ++ [v];
              t_costs := PC |}
         = traverse_loop self k
             {| t_actions := A; t_cnode := u; t_cpath := pre ++ [u];
                t_costs := PC' |}) /\
      adds PC PC' (fun q => exists r, route self v r /\ q = (pre ++ [u]) ++ r).

End TraversalSpec.

(** *** A graph with a cycle of negative cost *)


Section DescentSpec.
Local Open Scope Q_scope.


End DescentSpec.

(** *** The hypotheses on a problem, as functions *)

Fixpoint nodupb (l : list node) : bool :=
  match l with
  | [] => true
  | x :: l' => negb (existsb (String.eqb x) l') && nodupb l'
  end.

(** The format, a numbering that goes down along every edge, and whole costs. *)
Definition formatb (self : problem) : bool :=
  nodupb (keys (dag self)) &&
  forallb (fun vd : node * dict node Q =>
             nodupb (keys (snd vd)) &&
             forallb (fun w => existsb (String.eqb w) (keys (dag self)))
                     (keys (snd vd)))
          (dag self).

Definition rankb (self : problem) (rank : node -> nat) : bool :=
  forallb (fun vd : node * dict node Q =>
             forallb (fun w => (rank w <? rank (fst vd))%nat) (keys (snd vd)))
          (dag self).

Definition wholeb (self : problem) : bool :=
  forallb (fun vd : node * dict node Q =>
             forallb (fun c : Q => Pos.eqb (Qden c) 1) (values (snd vd)))
          (dag self).

Fixpoint routeb (self : problem) (v : node) (p : list node) : bool :=
  match p with
  | [] => false
  | [x] => String.eqb x v && String.eqb v (terminal self)
  | x :: ((w :: _) as p') =>
      String.eqb x v && negb (String.eqb v (terminal self)) &&
      match getitem (dag self) v with
      | Ok d => match getitem d w with
                | Ok _ => routeb self w p'
                | _ => false
                end
      | _ => false
      end
  end.

(** Every vertex starts one of the routes [ps], of cost below 1e10. *)
Definition cheapb (self : problem) (ps : list (list node)) : bool :=
  forallb (fun v =>
             existsb (fun p => routeb self v p &&
                               Qltb (pcost self p) min_cost_start) ps)
          (keys (dag self)).

(** *** Problems on which the two solvers differ *)

(** Costs at and above the starting value 1e10 of [min_cost]. *)
Definition far_apart : problem :=
  {| dag := [ ("A", [("B", 20000000000); ("G", 30000000000)]);
              ("B", [("G", 20000000000)]);
              ("G", []) ]%Q;
     vertex := "A"; terminal := "G" |}.

(** Costs below the tolerance 1e-10. *)
Definition close_together : problem :=
  {| dag := [ ("A", [("B", 1 # 100000000000); ("C", 2 # 100000000000)]);
              ("B", [("D", 1 # 100000000000)]);
              ("C", [("E", 1 # 100000000000)]);
              ("D", [("G", 5 # 100000000000)]);
              ("E", [("G", 1 # 100000000000)]);
              ("G", []) ]%Q;
     vertex := "A"; terminal := "G" |}.

(** The start vertex is the terminal. *)
Definition already_there : problem :=
  {| dag := [ ("G", []) ]; vertex := "G"; terminal := "G" |}.

Definition rank_of (ranks : list (node * nat)) (v : node) : nat :=
  match getitem ranks v with Ok n => n | _ => O end.

(** *** Problems with a degenerate start or a dead end *)

(** The lecture's graph, started at a vertex that it does not have. *)
Definition start_missing : problem :=
  {| dag := simple_cost_dict; vertex := "Z"; terminal := "G" |}.

(** A -> B (1), and nothing leaves B, which is not the terminal. *)
Definition dead_end : problem :=
  {| dag := [ ("A", [("B", 1)]); ("B", []) ]%Q;
     vertex := "A"; terminal := "G" |}.

(** The ranks used for the lecture's graph: the largest number of edges on a
    route to G. *)
Definition simple_ranks : list (node * nat) :=
  [("A", 4); ("B", 3); ("C", 2); ("D", 2); ("E", 1); ("F", 1); ("G", 0)]%nat.

(** ** The hidden Markov model *)

Import HMM.

Section LikelihoodSpec.
Variable self : HMMBB.
Local Open Scope R_scope.

(** [P[i, j]] and [emp[i, y]] as numbers. *)
Definition trans (i j : nat) : R :=
  match i, j with
  | O, O => P00 self
  | O, _ => P01 self
  | _, O => P10 self
  | _, _ => P11 self
  end.

Definition emit (i : nat) (y : Z) : R :=
  match emp_col self y with
  | Ok e => match i with O => fst e | _ => snd e end
  | _ => 0
  end.

(** The observation [y] indexes a column of [emp]. *)
Definition observable (y : Z) : Prop := exists e, emp_col self y = Ok e.

(** The probability of the hidden states [xs] and the observations [ys] from
    some time on, given the hidden state [prev] just before. *)
Fixpoint chain (prev : nat) (xs : list nat) (ys : list Z) : R :=
  match xs, ys with
  | x :: xs', y :: ys' => trans prev x * emit x y * chain x xs' ys'
  | _, _ => 1
  end.

(** The joint probability of the hidden states [xs] and the observations
    [ys], with the initial state uniform over bear and bull. *)
Definition joint (xs : list nat) (ys : list Z) : R :=
  match xs, ys with
  | x0 :: xs', y0 :: ys' => 0.5 * emit x0 y0 * chain x0 xs' ys'
  | _, _ => 1
  end.

(** All sequences of [T] hidden states. *)
Fixpoint all_paths (T : nat) : list (list nat) :=
  match T with
  | O => [[]]
  | S n => flat_map (fun p => [0%nat :: p; 1%nat :: p]) (all_paths n)
  end.

Definition Rsum (l : list R) : R := fold_right Rplus 0 l.

(** The probability of the observations, by enumeration of the hidden
    state sequences. *)
Definition likelihood_by_enumeration (ys : list Z) : R :=
  Rsum (map (fun xs => joint xs ys) (all_paths (List.length ys))).

(** [alphas[t, i]] *)
Definition cell (table : list row) (t i : nat) : R :=
  match i with
  | O => fst (nth t table (0, 0))
  | _ => snd (nth t table (0, 0))
  end.

(** [forward_step] as a function. *)
Definition alpha_step (prev : row) (y : Z) : row :=
  (emit 0 y * (0 + fst prev * trans 0 0 + snd prev * trans 1 0),
   emit 1 y * (0 + fst prev * trans 0 1 + snd prev * trans 1 1)).

(** The sum over the state sequences from some time on, started from the
    weights [prev] of the two states just before. *)
Definition tail_sum (prev : row) (ys : list Z) : R :=
  Rsum (map (fun xs => fst prev * chain 0 xs ys + snd prev * chain 1 xs ys)
            (all_paths (List.length ys))).

End LikelihoodSpec.

Section LectureModel.
Local Open Scope R_scope.

(** [HMMBB(0.95, 0.95, [0.7, 0.25, 0.05], [0.1, 0.3, 0.6])] *)
Definition lecture_hmm : HMMBB :=
  {| P := ((0.95, 1 - 0.95), (1 - 0.95, 0.95));
     emp := ([0.7; 0.25; 0.05], [0.1; 0.3; 0.6]) |}.

(** The objective of the most likely path: the sum over [t] of
    [log P(x_t | x_{t-1}) + log emp[x_t, y_t]], the state before the first
    being drawn uniformly. *)
Fixpoint log_chain (self : HMMBB) (prev : nat) (xs : list nat) (ys : list Z) : R :=
  match xs, ys with
  | x :: xs', y :: ys' =>
      ln (trans self prev x) + ln (emit self x y) + log_chain self x xs' ys'
  | _, _ => 0
  end.

Definition log_joint (self : HMMBB) (xs : list nat) (ys : list Z) : R :=
  match xs, ys with
  | x0 :: xs', y0 :: ys' => ln 0.5 + ln (emit self x0 y0) + log_chain self x0 xs' ys'
  | _, _ => 0
  end.

(** The tables of the lecture's model on the observations [1, 1]. *)
Definition alpha_0 : row := (0.25 * 0.5, 0.3 * 0.5).
Definition alpha_1 : row :=
  (0.25 * (0 + fst alpha_0 * 0.95 + snd alpha_0 * (1 - 0.95)),
   0.3 * (0 + fst alpha_0 * (1 - 0.95) + snd alpha_0 * 0.95)).
Definition filtered_1 : row :=
  (fst alpha_1 / (fst alpha_1 + snd alpha_1), snd alpha_1 / (fst alpha_1 + snd alpha_1)).
Definition filtered_0 : row :=
  (fst alpha_0 / (fst alpha_0 + snd alpha_0), snd alpha_0 / (fst alpha_0 + snd alpha_0)).

End LectureModel.

(** *** Sampling and construction *)

(** The draws that a run of [ffbs] made, replayed on the generator. *)
Definition replay {rng : Type} (draw : row -> rng -> nat * rng)
  (log : list (nat * row)) (g : rng) : rng :=
  fold_left (fun g e => snd (draw (snd e) g)) log g.

(** The sampler of quantecon's [DiscreteRV] on a generator given by the
    uniform variates it will return: the index drawn is the number of entries
    of the cumulative sums [[q0, q0 + q1]] that are at most the variate
    ([searchsorted] with [side='right']). *)
Definition inverse_cdf (q : row) (u : R) : nat :=
  (if Rle_dec (fst q) u then 1 else 0) + (if Rle_dec (fst q + snd q) u then 1 else 0).

Definition stream_draw (q : row) (g : nat -> R) : nat * (nat -> R) :=
  (inverse_cdf q (g 0%nat), fun n => g (S n)).

(** A generator that returns 0.9, then 0.1 for ever. *)
Definition high_then_low (n : nat) : R :=
  match n with O => 0.9%R | _ => 0.1%R end.

(** The check of quantecon's [MarkovChain] on a 2 x 2 matrix: no entry is
    negative and each row sums to 1. *)
Definition row_stochastic (P : row * row) : bool :=
  let nonneg x := if Rle_dec 0 x then true else false in
  let one x := if Req_dec_T x 1 then true else false in
  nonneg (fst (fst P)) && nonneg (snd (fst P)) &&
  nonneg (fst (snd P)) && nonneg (snd (snd P)) &&
  one (fst (fst P) + snd (fst P))%R && one (fst (snd P) + snd (snd P))%R.

(** *** The distributions of the sampler *)

(** The distribution over [x_t] proportional to [P[i, x] * betas[t, i]],
    normalized, for [x_{t+1} = x]. *)
Definition backward_probs (self : HMMBB) (betas : list row) (t x : nat)
  : outcome row :=
  c <- P_col self x ;;
  b <- np_item betas (Z.of_nat t) ;;
  let sp := (fst c * fst b, snd c * snd b)%R in
  Ok (fst sp / (fst sp + snd sp), snd sp / (fst sp + snd sp))%R.

(** What is true of an entry [(t, q)] of [drawn_from]: at [T - 1] it is the
    last filtered row [f]; from [T - 2] down to 1 it is [backward_probs] at
    the state sampled for [t + 1]; at 0 it is the entry of [t = 1] again. *)
Definition drawn_as_coded (self : HMMBB) (T : nat) (f : row) (betas : list row)
  (xs : list nat) (log : list (nat * row)) (e : nat * row) : Prop :=
  (fst e = (T - 1)%nat -> snd e = f) /\
  ((1 <= fst e)%nat -> (fst e + 1 < T)%nat ->
     exists x, nth_error xs (fst e + 1) = Some x /\
               backward_probs self betas (fst e) x = Ok (snd e)) /\
  (fst e = 0%nat -> (2 <= T)%nat -> In (1%nat, snd e) log).

Section DrawSpec.
Variable self : HMMBB.
Variable T : nat.
Variable f : row.
Variable betas : list row.

(** What the loop of [ffbs] keeps true when it is about to draw [x_{n-1}]. *)
Definition about_to_draw (n : nat) (s : sampler) : Prop :=
  List.length (x_sample s) = T /\
  (forall e, In e (drawn_from s) ->
     (n <= fst e)%nat /\
     drawn_as_coded self T f betas (x_sample s) (drawn_from s) e) /\
  (n = T -> sample_probs s = f) /\
  ((2 <= n)%nat -> (n < T)%nat ->
     exists x, nth_error (x_sample s) n = Some x /\
               backward_probs self betas (n - 1) x = Ok (sample_probs s)) /\
  (n = 1%nat -> (2 <= T)%nat -> In (1%nat, sample_probs s) (drawn_from s)).

End DrawSpec.

(** *** Decoding *)

(** [emp[:, y]] and [P[x, :]] as rows. *)
Definition emit_col (self : HMMBB) (y : Z) : row := (emit self 0 y, emit self 1 y).
Definition trans_row (self : HMMBB) (x : nat) : row := (trans self x 0, trans self x 1).

(** The state that the loop of [viterbi] stores at [t] when the state before
    is [prev]. *)
Definition decoded (self : HMMBB) (ys : list Z) (log_mus : list lrow)
  (prev t : nat) : nat :=
  argmax (score (emit_col self (nth t ys 0%Z)) (trans_row self prev)
            (nth t log_mus (NegInf, NegInf))).



(** *** The backward table *)

(** [backward_step] as a function, on probabilities that are not negative. *)
Definition beta_step (self : HMMBB) (y : Z) (next : row) : row :=
  (0 + emit self 0 y * fst next * trans self 0 0
     + emit self 1 y * snd next * trans self 0 1,
   0 + emit self 0 y * fst next * trans self 1 0
     + emit self 1 y * snd next * trans self 1 1)%R.

(** The probability of the observations [ys] that follow a time at which the
    hidden state is [i], by enumeration of the hidden states that follow. *)
Definition future (self : HMMBB) (i : nat) (ys : list Z) : R :=
  Rsum (map (fun xs => chain self i xs ys) (all_paths (List.length ys))).

(** No transition probability and no emission probability of the
    observations is negative. *)
Definition nonneg_model (self : HMMBB) (ys : list Z) : Prop :=
  (forall i j, (0 <= trans self i j)%R) /\
  Forall (fun y => (0 <= emit self 0 y)%R /\ (0 <= emit self 1 y)%R) ys.

(** The table whose row [t] holds [future] of the observations after [t]. *)
Fixpoint future_table (self : HMMBB) (ys : list Z) : list row :=
  match ys with
  | [] => []
  | _ :: ys' => (future self 0 ys', future self 1 ys') :: future_table self ys'
  end.

(** The rows that [forward] computes after a row [prev]. *)
Fixpoint alpha_rows (self : HMMBB) (prev : row) (ys : list Z) : list row :=
  match ys with
  | [] => []
  | y :: ys' => alpha_step self prev y :: alpha_rows self (alpha_step self prev y) ys'
  end.

(** The first row of [forward]. *)
Definition alpha_first (self : HMMBB) (y0 : Z) : row :=
  (emit self 0 y0 * 0.5, emit self 1 y0 * 0.5)%R.

(** *** Indexes *)

(** [y] is an index into an array of length [k]: at least [-k], below [k]. *)
Definition valid_index (k : nat) (y : Z) : Prop :=
  (- Z.of_nat k <= y < Z.of_nat k)%Z.

(** A sampler of one of two states on a generator given by the uniform
    variates it will return: state 1 when the variate reaches the first
    probability, state 0 otherwise. *)
Definition binary_draw (q : row) (g : nat -> R) : nat * (nat -> R) :=
  (if Rle_dec (fst q) (g 0%nat) then 1%nat else 0%nat, fun n => g (S n)).

(** *** The tables in floating point *)

Section FloatSpec.
Import Floats.PrimFloat.
Local Open Scope float_scope.




End FloatSpec.

(** *** The delivery format *)

Import GraphFile.

(** The character [a] does not occur in [s]. *)
Fixpoint lacks (a : Ascii.ascii) (s : string) : bool :=
  match s with
  | EmptyString => true
  | String c s' => negb (Ascii.eqb a c) && lacks a s'
  end.

(** A name of a vertex or the text of a cost: not empty, without white space
    and without comma. *)
Fixpoint plain (s : string) : bool :=
  match s with
  | EmptyString => true
  | String c s' => negb (is_space c) && negb (Ascii.eqb ","%char c) && plain s'
  end.

Definition word (s : string) : Prop := s <> EmptyString /\ plain s = true.

(** White space only. *)
Fixpoint blank (s : string) : bool :=
  match s with
  | EmptyString => true
  | String c s' => is_space c && blank s'
  end.

(** The line of a vertex in the delivery format, as the lecture describes it:
    [node0, node1 0.04, node8 11.11] for a vertex with routes, [node0,] for
    one without; [eol] is what ends the line. *)
Definition show_route (r : node * string) : string :=
  (fst r ++ " " ++ snd r)%string.

Definition show_line (eol : string) (e : node * list (node * string)) : string :=
  match snd e with
  | [] => (fst e ++ "," ++ eol)%string
  | _ :: _ =>
      (fst e ++ "," ++ " " ++ String.concat ", " (map show_route (snd e)) ++ eol)%string
  end.

(** The entry of the cost dictionary that a line describes, [value] giving
    the number that the text of a cost stands for. *)
Definition entry_of (value : string -> Q) (e : node * list (node * string))
  : node * dict node Q :=
  (fst e, dict_of (map (fun r => (fst r, value (snd r))) (snd e))).

(** A route and a line that the reader accepts: names and costs are words,
    and [float] reads the cost. *)
Definition route_ok (float : string -> outcome Q) (value : string -> Q)
  (r : node * string) : Prop :=
  word (fst r) /\ word (snd r) /\ float (snd r) = Ok (value (snd r)).

Definition line_ok (float : string -> outcome Q) (value : string -> Q)
  (e : node * list (node * string)) : Prop :=
  plain (fst e) = true /\ Forall (route_ok float value) (snd e).

(** A [float] that knows the costs of a table and raises [ValueError] on
    every other text, with the numbers it reads. *)
Definition float_of_table (table : list (string * Q)) (s : string) : outcome Q :=
  match getitem table s with
  | Ok c => Ok c
  | _ => Raised ValueError
  end.

Definition value_of_table (table : list (string * Q)) (s : string) : Q :=
  match getitem table s with
  | Ok c => c
  | _ => 0%Q
  end.

(** The line feed that ends a line read by [readlines]. *)
Definition line_feed : string := String (Ascii.ascii_of_nat 10) EmptyString.

(** The costs and the lines of the lecture's example of the format. *)
Definition example_costs : list (string * Q) :=
  [("0.04", 4 # 100); ("11.11", 1111 # 100); ("72.21", 7221 # 100)]%Q.

Definition example_lines : list (node * list (node * string)) :=
  [("node0", [("node1", "0.04"); ("node8", "11.11"); ("node14", "72.21")]);
   ("node99", [])].

(** *** Simulation *)

Import Simulation.

(** The row of emission probabilities of a hidden state. *)
Definition emp_row (self : HMMBB) (bb : nat) : list R :=
  if (bb =? 0)%nat then fst (emp self) else snd (emp self).

(** One draw after the other from the rows of the hidden states [bb_idx]:
    the indexes drawn, and the state the generator is left in. *)
Fixpoint emissions {rng : Type} (draw_index : list R -> rng -> Z * rng)
  (self : HMMBB) (bb_idx : list nat) (g : rng) : list Z * rng :=
  match bb_idx with
  | [] => ([], g)
  | bb :: rest =>
      let (x, g') := draw_index (emp_row self bb) g in
      let (xs, g'') := emissions draw_index self rest g' in
      (x :: xs, g'')
  end.

(** Every step of the path [p] is an edge of the cost dictionary. *)
Fixpoint hops (self : problem) (p : list node) : bool :=
  match p with
  | v :: (w :: _) as rest =>
      match getitem (dag self) v with
      | Ok d => match getitem d w with
                | Ok _ => hops self rest
                | _ => false
                end
      | _ => false
      end
  | _ => true
  end.

(** * Properties of the shortest-path classes *)

(** ** Fuel *)

Lemma bind_settled {A B : Type} (m : outcome A) (k : A -> outcome B) :
  settled (bind m k) -> settled m.
Proof. destruct m; simpl; unfold settled; congruence. Qed.

Lemma cost_loop_more_fuel (self : problem) (n k : nat) :
  forall J_n J_np1,
    settled (cost_loop self n J_n J_np1) ->
    cost_loop self (n + k) J_n J_np1 = cost_loop self n J_n J_np1.
Proof.
  induction n as [|n IH]; intros J_n J_np1; simpl.
  - destruct k; simpl; [reflexivity|].
    destruct (compare_J self J_n J_np1) as [d| |]; simpl; try reflexivity.
    destruct (Qltb tolerance d); [|reflexivity].
    unfold settled; congruence.
  - destruct (compare_J self J_n J_np1) as [d| |]; simpl; try reflexivity.
    destruct (Qltb tolerance d); [|reflexivity].
    destruct (cost_sweep self J_n J_np1) as [[a b]| |]; simpl; try reflexivity.
    apply IH.
Qed.

Lemma path_loop_more_fuel (self : problem) (J : dict node Q) (n k : nat) :
  forall cnode cpath,
    settled (path_loop self n J cnode cpath) ->
    path_loop self (n + k) J cnode cpath = path_loop self n J cnode cpath.
Proof.
  induction n as [|n IH]; intros cnode cpath; simpl.
  - destruct k; simpl; [reflexivity|].
    destruct (is_at_end self cnode); [reflexivity|].
    unfold settled; congruence.
  - destruct (is_at_end self cnode); [reflexivity|].
    destruct (available_actions self cnode) as [a| |]; simpl; try reflexivity.
    destruct (best_action self cnode J a) as [w| |]; simpl; try reflexivity.
    apply IH.
Qed.

Lemma traverse_loop_more_fuel (self : problem) (n k : nat) :
  forall s,
    settled (traverse_loop self n s) ->
    traverse_loop self (n + k) s = traverse_loop self n s.
Proof.
  induction n as [|n IH]; intros s; simpl.
  - destruct k; simpl; [reflexivity|].
    destruct (t_cpath s); [reflexivity|].
    unfold settled; congruence.
  - destruct (t_cpath s); [reflexivity|].
    destruct (traverse_step self s) as [[s'|pc]| |]; simpl; try reflexivity.
    apply IH.
Qed.

(** ** The lecture's graph *)

(** C8. On [simple_cost_dict] with terminal G, [find_cost_function] returns a
    cost function with J(A) = 8, the path that [find_shortest_path] extracts
    from A is A, C, F, G, [evaluate_path] gives it the cost 8, and that is the
    cost of both A, C, F, G and A, D, F, G. *)
Theorem simple_graph_cost_and_path :
  exists (fuel : nat) (J : dict node Q) (cpath : list node),
    find_cost_function simple_problem fuel = Ok J /\
    getitem J "A" = Ok 8%Q /\
    find_shortest_path simple_problem fuel J = Ok cpath /\
    last_item cpath = Ok "G" /\
    evaluate_path simple_problem cpath = Ok 8%Q /\
    evaluate_path simple_problem ["A"; "C"; "F"; "G"] = Ok 8%Q /\
    evaluate_path simple_problem ["A"; "D"; "F"; "G"] = Ok 8%Q.
Proof.
  exists 5%nat.
  eexists. eexists.
  split; [vm_compute; reflexivity|].
  split; [reflexivity|].
  split; [vm_compute; reflexivity|].
  repeat split; reflexivity.
Qed.

(** ** Dictionaries *)

Section DictFacts.
Context {K V : Type} `{Key K}.
Implicit Types (d : dict K V) (k : K) (v : V).

Lemma keyb_refl k : keyb k k = true.
Proof. apply keyb_spec; reflexivity. Qed.

Lemma keyb_neq k k' : k <> k' -> keyb k k' = false.
Proof.
  intros N. destruct (keyb k k') eqn:E; [|reflexivity].
  apply keyb_spec in E; contradiction.
Qed.

Lemma keyb_dec k k' : {k = k'} + {k <> k'}.
Proof.
  destruct (keyb k k') eqn:E.
  - left; apply keyb_spec; exact E.
  - right; intros ->. rewrite keyb_refl in E; discriminate.
Qed.

Lemma getitem_In d k v : getitem d k = Ok v -> In (k, v) d.
Proof.
  induction d as [|[k' v'] d IH]; simpl; [discriminate|].
  destruct (keyb k' k) eqn:E.
  - apply keyb_spec in E; subst. intros [= ->]; left; reflexivity.
  - intros G; right; auto.
Qed.

Lemma getitem_keys d k v : getitem d k = Ok v -> In k (keys d).
Proof. intros G. apply getitem_In in G. apply (in_map fst) in G. exact G. Qed.

Lemma keys_getitem d k : In k (keys d) -> exists v, getitem d k = Ok v.
Proof.
  induction d as [|[k' v'] d IH]; simpl; [tauto|].
  intros [->|I].
  - rewrite keyb_refl; eauto.
  - destruct (keyb k' k); eauto.
Qed.

Lemma getitem_not_Running d k : getitem d k <> Running.
Proof.
  induction d as [|[k' v'] d IH]; simpl; [discriminate|].
  destruct (keyb k' k); [discriminate|exact IH].
Qed.

Lemma getitem_NoDup d k v : NoDup (keys d) -> In (k, v) d -> getitem d k = Ok v.
Proof.
  induction d as [|[k' v'] d IH]; simpl; [tauto|].
  intros ND [E|I]; inversion ND as [|? ? NI ND']; subst.
  - injection E as -> ->. rewrite keyb_refl; reflexivity.
  - destruct (keyb_dec k' k) as [->|N].
    + exfalso; apply NI. apply (in_map fst) in I; exact I.
    + rewrite keyb_neq by exact N. auto.
Qed.

Lemma getitem_setitem_same d k v : getitem (setitem d k v) k = Ok v.
Proof.
  induction d as [|[k' v'] d IH]; simpl.
  - rewrite keyb_refl; reflexivity.
  - destruct (keyb k' k) eqn:E; simpl; rewrite E; auto.
Qed.

Lemma getitem_setitem_other d k k' v :
  k <> k' -> getitem (setitem d k v) k' = getitem d k'.
Proof.
  intros N. induction d as [|[k0 v0] d IH]; simpl.
  - rewrite keyb_neq by exact N; reflexivity.
  - destruct (keyb k0 k) eqn:E; simpl.
    + apply keyb_spec in E; subst. rewrite !(keyb_neq _ _ N). reflexivity.
    + rewrite IH; reflexivity.
Qed.

Lemma setitem_same d k v : getitem d k = Ok v -> setitem d k v = d.
Proof.
  induction d as [|[k' v'] d IH]; simpl; [discriminate|].
  destruct (keyb k' k) eqn:E.
  - intros [= ->]; reflexivity.
  - intros G; rewrite IH by exact G; reflexivity.
Qed.

Lemma setitem_setitem d k v v' : setitem (setitem d k v) k v' = setitem d k v'.
Proof.
  induction d as [|[k0 v0] d IH]; simpl.
  - rewrite keyb_refl; reflexivity.
  - destruct (keyb k0 k) eqn:E; simpl; rewrite E; [reflexivity|].
    rewrite IH; reflexivity.
Qed.

Lemma keys_setitem d k v : In k (keys d) -> keys (setitem d k v) = keys d.
Proof.
  induction d as [|[k' v'] d IH]; simpl; [tauto|].
  intros I. destruct (keyb k' k) eqn:E; simpl; [reflexivity|].
  f_equal. apply IH. destruct I as [->|I]; [|exact I].
  rewrite keyb_refl in E; discriminate.
Qed.

Lemma In_setitem d k v k' v' :
  In (k', v') (setitem d k v) -> (k' = k /\ v' = v) \/ In (k', v') d.
Proof.
  induction d as [|[k0 v0] d IH]; simpl.
  - intros [[= <- <-]|[]]; auto.
  - destruct (keyb k0 k) eqn:E; simpl.
    + apply keyb_spec in E; subst.
      intros [[= <- <-]|I]; auto.
    + intros [E'|I]; auto. destruct (IH I); auto.
Qed.

Lemma In_keys_setitem d k v k' :
  In k' (keys (setitem d k v)) <-> k' = k \/ In k' (keys d).
Proof.
  induction d as [|[k0 v0] d IH]; simpl.
  - intuition congruence.
  - destruct (keyb k0 k) eqn:E; simpl.
    + apply keyb_spec in E; subst. intuition congruence.
    + rewrite IH. intuition congruence.
Qed.

Lemma setitem_fresh d k v : ~ In k (keys d) -> setitem d k v = d ++ [(k, v)].
Proof.
  induction d as [|[k' v'] d IH]; simpl; [reflexivity|].
  intros N. rewrite keyb_neq by (intros ->; apply N; auto).
  rewrite IH by tauto. reflexivity.
Qed.

Lemma setitem_middle (pre suf : dict K V) k v0 v :
  ~ In k (keys pre) ->
  setitem (pre ++ (k, v0) :: suf) k v = pre ++ (k, v) :: suf.
Proof.
  induction pre as [|[k' v'] pre IH]; simpl.
  - rewrite keyb_refl; reflexivity.
  - intros N. rewrite keyb_neq by (intros ->; apply N; auto).
    rewrite IH by tauto. reflexivity.
Qed.

Lemma NoDup_keys_middle (pre suf : dict K V) k v :
  NoDup (keys (pre ++ (k, v) :: suf)) -> ~ In k (keys pre).
Proof.
  unfold keys. rewrite map_app. simpl. intros ND I.
  apply NoDup_remove_2 in ND. apply ND, in_or_app; auto.
Qed.

Lemma NoDup_keys_shift (pre suf : dict K V) k v v' :
  NoDup (keys (pre ++ (k, v) :: suf)) -> NoDup (keys ((pre ++ [(k, v')]) ++ suf)).
Proof.
  unfold keys. rewrite <- app_assoc, !map_app. simpl. auto.
Qed.

Lemma fold_setitem_fresh (l acc : list (K * V)) :
  NoDup (keys (acc ++ l)) ->
  fold_left (fun d kv => setitem d (fst kv) (snd kv)) l acc = acc ++ l.
Proof.
  revert acc; induction l as [|[k v] l IH]; intros acc ND; simpl.
  - rewrite app_nil_r; reflexivity.
  - rewrite setitem_fresh by (eapply NoDup_keys_middle; exact ND).
    rewrite IH by (eapply NoDup_keys_shift; exact ND).
    rewrite <- app_assoc; reflexivity.
Qed.

(** A comprehension over distinct keys lists them as they come. *)
Lemma dict_of_NoDup (l : list (K * V)) : NoDup (map fst l) -> dict_of l = l.
Proof. intros ND. apply (fold_setitem_fresh l []). exact ND. Qed.

Lemma fold_setitem_same_keys (e d pre : dict K V) :
  keys d = keys e -> NoDup (keys (pre ++ d)) ->
  fold_left (fun d kv => setitem d (fst kv) (snd kv)) e (pre ++ d) = pre ++ e.
Proof.
  revert d pre; induction e as [|[k v] e IH]; intros [|[k0 v0] d] pre E ND;
    simpl in *; try discriminate; [reflexivity|].
  injection E as -> E.
  rewrite setitem_middle by (eapply NoDup_keys_middle; exact ND).
  change (pre ++ (k, v) :: d) with (pre ++ [(k, v)] ++ d).
  change (pre ++ (k, v) :: e) with (pre ++ [(k, v)] ++ e).
  rewrite !app_assoc. apply IH; [exact E|].
  eapply NoDup_keys_shift; exact ND.
Qed.

(** [d.update(e)] makes [d] equal to [e] when both list the same distinct
    keys in the same order. *)
Lemma update_same_keys d e :
  keys d = keys e -> NoDup (keys d) -> update d e = e.
Proof. intros E ND. apply (fold_setitem_same_keys e d []); assumption. Qed.

Lemma foldM_setitem_middle (body : K -> outcome V) (f : K -> V) (d pre : dict K V) :
  NoDup (keys (pre ++ d)) ->
  (forall k, In k (keys d) -> body k = Ok (f k)) ->
  foldM (fun J k => c <- body k ;; Ok (setitem J k c)) (keys d) (pre ++ d)
  = Ok (pre ++ map (fun k => (k, f k)) (keys d)).
Proof.
  revert pre; induction d as [|[k v] d IH]; intros pre ND B; simpl.
  - reflexivity.
  - rewrite B by (left; reflexivity). simpl.
    rewrite setitem_middle by (eapply NoDup_keys_middle; exact ND).
    change (pre ++ (k, f k) :: d) with (pre ++ [(k, f k)] ++ d).
    rewrite app_assoc, IH.
    + rewrite <- app_assoc; reflexivity.
    + eapply NoDup_keys_shift; exact ND.
    + intros k' I; apply B; right; exact I.
Qed.

(** A loop that assigns [d[k] = f k] for new keys [l]. *)
Lemma foldM_setitem_new (body : K -> outcome V) (f : K -> V) (l : list K) d :
  NoDup (keys d ++ l) ->
  (forall k, In k l -> body k = Ok (f k)) ->
  foldM (fun J k => c <- body k ;; Ok (setitem J k c)) l d
  = Ok (d ++ map (fun k => (k, f k)) l).
Proof.
  revert d; induction l as [|k l IH]; intros d ND B; simpl.
  - rewrite app_nil_r; reflexivity.
  - rewrite B by (left; reflexivity). simpl.
    rewrite setitem_fresh.
    + rewrite IH.
      * rewrite <- app_assoc; reflexivity.
      * unfold keys in *. rewrite map_app. simpl. rewrite <- app_assoc. exact ND.
      * intros k' I; apply B; right; exact I.
    + apply NoDup_remove_2 in ND. intros I; apply ND, in_or_app; auto.
Qed.

(** A loop that assigns [d[k] = f k] for the keys of [d] in order. *)
Lemma foldM_setitem_keys (body : K -> outcome V) (f : K -> V) d :
  NoDup (keys d) ->
  (forall k, In k (keys d) -> body k = Ok (f k)) ->
  foldM (fun J k => c <- body k ;; Ok (setitem J k c)) (keys d) d
  = Ok (map (fun k => (k, f k)) (keys d)).
Proof. intros ND B. apply (foldM_setitem_middle body f d []); assumption. Qed.

End DictFacts.

(** ** [sum], [min] and [max] *)

Section Builtins.
Local Open Scope Q_scope.

Lemma Qltb_true x y : Qltb x y = true <-> x < y.
Proof.
  unfold Qltb. rewrite negb_true_iff.
  destruct (Qle_bool y x) eqn:E.
  - apply Qle_bool_iff in E. split; [discriminate|]. intros L.
    exfalso. apply (Qlt_not_le _ _ L E).
  - split; [|reflexivity]. intros _. apply Qnot_le_lt. intros L.
    apply Qle_bool_iff in L. congruence.
Qed.

Lemma Qltb_false x y : Qltb x y = false <-> y <= x.
Proof.
  destruct (Qltb x y) eqn:E.
  - apply Qltb_true in E. split; [discriminate|]. intros L.
    exfalso. apply (Qlt_not_le _ _ E L).
  - split; [|reflexivity]. intros _. apply Qnot_lt_le. intros L.
    apply Qltb_true in L. congruence.
Qed.

Lemma fold_min_spec (l : list Q) (x : Q) :
  let m := fold_left (fun m y => if Qltb y m then y else m) l x in
  In m (x :: l) /\ forall y, In y (x :: l) -> m <= y.
Proof.
  revert x; induction l as [|z l IH]; intros x; simpl.
  - split; [auto|]. intros y [->|[]]. apply Qle_refl.
  - destruct (IH (if Qltb z x then z else x)) as [I L]. split.
    + destruct I as [E|I]; [|auto]. rewrite <- E. destruct (Qltb z x); auto.
    + intros y Hy.
      assert (Lx : (if Qltb z x then z else x) <= x /\
                   (if Qltb z x then z else x) <= z).
      { destruct (Qltb z x) eqn:E.
        - apply Qltb_true in E. split; [apply Qlt_le_weak; exact E|apply Qle_refl].
        - apply Qltb_false in E. split; [apply Qle_refl|exact E]. }
      destruct Lx as [Lx Lz].
      destruct Hy as [->|[->|Hy]].
      * eapply Qle_trans; [apply L; left; reflexivity|exact Lx].
      * eapply Qle_trans; [apply L; left; reflexivity|exact Lz].
      * apply L; right; exact Hy.
Qed.

Lemma py_min_spec (l : list Q) :
  l <> [] ->
  exists m, py_min l = Ok m /\ In m l /\ forall y, In y l -> m <= y.
Proof.
  destruct l as [|x l]; [congruence|]. intros _.
  eexists; split; [reflexivity|]. apply fold_min_spec.
Qed.

Lemma py_min_Ok (l : list Q) (m : Q) :
  py_min l = Ok m -> In m l /\ forall y, In y l -> m <= y.
Proof.
  destruct l as [|x l]; [discriminate|]. intros [= <-]. apply fold_min_spec.
Qed.

Lemma fold_max_spec (l : list Q) (x : Q) :
  let m := fold_left (fun m y => if Qltb m y then y else m) l x in
  In m (x :: l) /\ forall y, In y (x :: l) -> y <= m.
Proof.
  revert x; induction l as [|z l IH]; intros x; simpl.
  - split; [auto|]. intros y [->|[]]. apply Qle_refl.
  - destruct (IH (if Qltb x z then z else x)) as [I L]. split.
    + destruct I as [E|I]; [|auto]. rewrite <- E. destruct (Qltb x z); auto.
    + intros y Hy.
      assert (Lx : x <= (if Qltb x z then z else x) /\
                   z <= (if Qltb x z then z else x)).
      { destruct (Qltb x z) eqn:E.
        - apply Qltb_true in E. split; [apply Qlt_le_weak; exact E|apply Qle_refl].
        - apply Qltb_false in E. split; [apply Qle_refl|exact E]. }
      destruct Lx as [Lx Lz].
      destruct Hy as [->|[->|Hy]].
      * eapply Qle_trans; [exact Lx|apply L; left; reflexivity].
      * eapply Qle_trans; [exact Lz|apply L; left; reflexivity].
      * apply L; right; exact Hy.
Qed.

Lemma py_max_Ok (l : list Q) (m : Q) :
  py_max l = Ok m -> In m l /\ forall y, In y l -> y <= m.
Proof.
  destruct l as [|x l]; [discriminate|]. intros [= <-]. apply fold_max_spec.
Qed.

Lemma fold_Qplus_shift (l : list Q) (a : Q) :
  fold_left Qplus l a == a + fold_left Qplus l 0.
Proof.
  revert a; induction l as [|c l IH]; intros a; simpl.
  - lra.
  - rewrite IH, (IH (0 + c)). lra.
Qed.

Lemma py_sum_cons (c : Q) (l : list Q) : py_sum (c :: l) == c + py_sum l.
Proof. unfold py_sum. simpl. rewrite fold_Qplus_shift. lra. Qed.

End Builtins.

(** ** Routes in a cost dictionary *)

Section Routes.
Variable self : problem.
Local Open Scope Q_scope.

Local Abbreviation edge := (edge self).
Local Abbreviation route := (route self).
Local Abbreviation route_end := (route_end self).
Local Abbreviation route_step := (route_step self).
Local Abbreviation dag_format := (dag_format self).
Local Abbreviation acyclic := (acyclic self).
Local Abbreviation bval := (bval self).
Local Abbreviation pcost := (pcost self).
Local Abbreviation sweep := (sweep self).
Local Abbreviation covers := (covers self).
Local Abbreviation fixed := (fixed self).

Lemma is_at_end_true v : is_at_end self v = true <-> v = terminal self.
Proof. unfold is_at_end. apply String.eqb_eq. Qed.

Lemma is_at_end_false v : is_at_end self v = false <-> v <> terminal self.
Proof. unfold is_at_end. apply String.eqb_neq. Qed.

Lemma edge_source v w c : edge v w c -> In v (keys (dag self)).
Proof. intros (d & G & _). eapply getitem_keys; exact G. Qed.

Lemma route_head v p : route v p -> exists q, p = v :: q.
Proof. intros R; inversion R; subst; eauto. Qed.

Lemma keys_map_pair {A : Type} (f : node -> A) (l : list node) :
  keys (map (fun k => (k, f k)) l) = l.
Proof. unfold keys. rewrite map_map. simpl. apply map_id. Qed.

Lemma getitem_map_pair {A : Type} (f : node -> A) (l : list node) (v : node) :
  In v l -> getitem (map (fun k => (k, f k)) l) v = Ok (f v).
Proof.
  induction l as [|k l IH]; simpl; [tauto|].
  destruct (String.eqb k v) eqn:E.
  - apply String.eqb_eq in E; subst; reflexivity.
  - intros [->|I]; [rewrite String.eqb_refl in E; discriminate|auto].
Qed.

Lemma covers_sweep J : covers (sweep J).
Proof. apply keys_map_pair. Qed.

Lemma jval_sweep J v : In v (keys (dag self)) -> jval (sweep J) v = bval J v.
Proof. intros I. unfold jval, sweep. rewrite getitem_map_pair by exact I. reflexivity. Qed.

Lemma covers_getitem J v :
  covers J -> In v (keys (dag self)) -> getitem J v = Ok (jval J v).
Proof.
  intros C I. unfold jval. rewrite <- C in I.
  destruct (keys_getitem _ _ I) as [x ->]. reflexivity.
Qed.

(** *** [evaluate_path] along a route *)

Lemma edge_costs_step v w c p cs :
  edge v w c -> edge_costs self (w :: p) = Ok cs ->
  edge_costs self (v :: w :: p) = Ok (c :: cs).
Proof.
  intros (d & G & Gw) E. cbn [edge_costs]. rewrite G. cbn [bind]. rewrite Gw.
  cbn [bind]. cbn [edge_costs] in E. rewrite E. reflexivity.
Qed.

Lemma route_edge_costs v p : route v p -> exists cs, edge_costs self p = Ok cs.
Proof.
  induction 1 as [|v w c p N E R [cs IH]].
  - exists []; reflexivity.
  - destruct (route_head _ _ R) as [q ->].
    exists (c :: cs). apply edge_costs_step; assumption.
Qed.

Lemma route_evaluate v p : route v p -> evaluate_path self p = Ok (pcost p).
Proof.
  intros R. destruct (route_edge_costs _ _ R) as [cs E].
  unfold pcost, evaluate_path. rewrite E. reflexivity.
Qed.

Lemma pcost_end : pcost [terminal self] = 0.
Proof. reflexivity. Qed.

Lemma pcost_step v w c p :
  v <> terminal self -> edge v w c -> route w p ->
  pcost (v :: p) == c + pcost p.
Proof.
  intros N E R. destruct (route_head _ _ R) as [q ->].
  destruct (route_edge_costs _ _ R) as [cs Ecs].
  unfold pcost, evaluate_path.
  rewrite (edge_costs_step _ _ _ _ _ E Ecs), Ecs. cbn [bind].
  apply py_sum_cons.
Qed.

End Routes.

(** ** The Bellman equation *)

Section Bellman.
Variable self : problem.
Hypothesis format : dag_format self.
Local Open Scope Q_scope.

Lemma edge_In v d : getitem (dag self) v = Ok d -> In (v, d) (dag self).
Proof. apply getitem_In. Qed.

Lemma eval_action_edge v w c J :
  covers self J -> edge self v w c ->
  eval_action self v w J = Ok (c + jval J w).
Proof.
  intros C E. pose proof (format_closed _ format _ _ _ E) as I.
  destruct E as (d & G & Gw). unfold eval_action.
  rewrite G; cbn [bind]. rewrite Gw; cbn [bind].
  rewrite (covers_getitem self J w C I). reflexivity.
Qed.

Lemma bellman_terminal J : bellman_equation self (terminal self) J = Ok 0.
Proof. unfold bellman_equation. rewrite String.eqb_refl. reflexivity. Qed.

Lemma available_actions_inner v d :
  v <> terminal self -> getitem (dag self) v = Ok d ->
  available_actions self v = Ok (keys d).
Proof.
  intros N G. unfold available_actions.
  apply is_at_end_false in N. rewrite N, G. reflexivity.
Qed.

(** Away from the terminal, [bellman_equation] returns the least of the
    values [dag[v][w] + J[w]] over the edges that leave [v]. *)
Lemma bellman_inner v d J :
  v <> terminal self -> getitem (dag self) v = Ok d -> keys d <> [] ->
  covers self J ->
  exists m, bellman_equation self v J = Ok m /\
    (exists w c, getitem d w = Ok c /\ m = c + jval J w) /\
    (forall w c, getitem d w = Ok c -> m <= c + jval J w).
Proof.
  intros N G NE C.
  set (f := fun w => match getitem d w with Ok c => c | _ => 0 end + jval J w).
  assert (B : forall w, In w (keys d) -> eval_action self v w J = Ok (f w)).
  { intros w I. destruct (keys_getitem _ _ I) as [c Gw].
    unfold f. rewrite Gw. apply eval_action_edge; [exact C|].
    exists d; auto. }
  unfold bellman_equation.
  assert (N' := N). apply String.eqb_neq in N'. rewrite N'.
  rewrite (available_actions_inner v d N G). cbn [bind].
  rewrite (foldM_setitem_new (fun w => eval_action self v w J) f (keys d) []).
  - cbn [bind app]. unfold values. rewrite map_map. cbn [snd].
    destruct (py_min_spec (map f (keys d))) as (m & Em & Im & Lm).
    { destruct (keys d); [congruence|discriminate]. }
    exists m. split; [exact Em|]. split.
    + apply in_map_iff in Im. destruct Im as (w & <- & I).
      destruct (keys_getitem _ _ I) as [c Gw].
      exists w, c. split; [exact Gw|]. unfold f. rewrite Gw. reflexivity.
    + intros w c Gw.
      assert (E : f w = c + jval J w) by (unfold f; rewrite Gw; reflexivity).
      rewrite <- E. apply Lm. apply in_map. eapply getitem_keys; exact Gw.
  - simpl. apply (format_inner _ format v d). apply edge_In; exact G.
  - exact B.
Qed.

(** [bellman_equation] at [v] looks at [J] only on the vertices that the
    edges from [v] lead to. *)
Lemma bellman_agree v J J' x x' :
  covers self J -> covers self J' ->
  (forall w c, edge self v w c -> jval J w == jval J' w) ->
  bellman_equation self v J = Ok x -> bellman_equation self v J' = Ok x' ->
  x == x'.
Proof.
  intros C C' A Bx Bx'.
  destruct (string_dec v (terminal self)) as [->|N].
  - rewrite bellman_terminal in Bx, Bx'. congruence.
  - destruct (getitem (dag self) v) as [d| |] eqn:G.
    + destruct (keys d) as [|w0 l] eqn:Ek.
      * unfold bellman_equation in Bx. assert (N' := N).
        apply String.eqb_neq in N'. rewrite N' in Bx.
        rewrite (available_actions_inner v d N G), Ek in Bx. discriminate.
      * destruct (bellman_inner v d J N G) as (m & Em & (w & c & Gw & Mw) & Lm);
          [rewrite Ek; discriminate|exact C|].
        destruct (bellman_inner v d J' N G) as (m' & Em' & (w' & c' & Gw' & Mw') & Lm');
          [rewrite Ek; discriminate|exact C'|].
        assert (x = m) by congruence. assert (x' = m') by congruence. subst x x'.
        pose proof (Lm w' c' Gw') as L1. pose proof (Lm' w c Gw) as L2.
        assert (A1 : jval J w == jval J' w) by (apply (A w c); exists d; auto).
        assert (A2 : jval J w' == jval J' w') by (apply (A w' c'); exists d; auto).
        rewrite Mw, Mw' in *. apply Qle_antisym; lra.
    + unfold bellman_equation, available_actions in Bx. assert (N' := N).
      apply String.eqb_neq in N'. apply is_at_end_false in N.
      rewrite N', N, G in Bx. discriminate.
    + exfalso. eapply getitem_not_Running; exact G.
Qed.

End Bellman.

Lemma mapM_total {A B : Type} (f : A -> outcome B) (g : A -> B) (l : list A) :
  (forall x, In x l -> f x = Ok (g x)) -> mapM f l = Ok (map g l).
Proof.
  induction l as [|x l IH]; intros F; simpl; [reflexivity|].
  rewrite F by (left; reflexivity). cbn [bind].
  rewrite IH by (intros y I; apply F; right; exact I). reflexivity.
Qed.

Lemma compare_J_spec (self : problem) (J_n J_np1 : dict node Q) :
  covers self J_n -> covers self J_np1 -> keys (dag self) <> [] ->
  exists d, compare_J self J_n J_np1 = Ok d /\
    (exists v, In v (keys (dag self)) /\ d = Qabs (jval J_n v - jval J_np1 v)%Q) /\
    (forall v, In v (keys (dag self)) -> (Qabs (jval J_n v - jval J_np1 v) <= d)%Q).
Proof.
  intros Cn Cnp1 NE. unfold compare_J.
  rewrite (mapM_total _ (fun k => Qabs (jval J_n k - jval J_np1 k)%Q)).
  - cbn [bind].
    destruct (map (fun k => Qabs (jval J_n k - jval J_np1 k)%Q) (keys (dag self)))
      as [|x l] eqn:E.
    + destruct (keys (dag self)); [congruence|discriminate].
    + rewrite <- E. destruct (py_max (map _ (keys (dag self)))) as [d| |] eqn:M.
      * exists d. split; [reflexivity|]. apply py_max_Ok in M. destruct M as [I L].
        split.
        -- apply in_map_iff in I. destruct I as (v & <- & I). eauto.
        -- intros v I'. apply L. apply in_map_iff. eauto.
      * rewrite E in M. discriminate.
      * rewrite E in M. discriminate.
  - intros k I. rewrite (covers_getitem self J_n k Cn I). cbn [bind].
    rewrite (covers_getitem self J_np1 k Cnp1 I). reflexivity.
Qed.

(** ** Value function iteration *)

Section Iteration.
Variable self : problem.
Hypothesis format : dag_format self.
Variable rank : node -> nat.
Hypothesis rank_down : forall v w c, edge self v w c -> (rank w < rank v)%nat.
Hypothesis leaves : forall v, In v (keys (dag self)) -> v <> terminal self ->
  exists w c, edge self v w c.
Variable unit_cost : Q.
Hypothesis unit_above_tolerance : (tolerance < unit_cost)%Q.
Hypothesis costs_on_grid : forall v w c, edge self v w c -> on_grid unit_cost c.
Local Open Scope Q_scope.

Local Abbreviation grid_valued := (grid_valued self unit_cost).
Local Abbreviation agree_below := (agree_below self rank).

Lemma bellman_total v J :
  covers self J -> In v (keys (dag self)) ->
  bellman_equation self v J = Ok (bval self J v).
Proof.
  intros C I. unfold bval.
  destruct (string_dec v (terminal self)) as [->|N].
  - rewrite bellman_terminal. reflexivity.
  - destruct (leaves v I N) as (w & c & d & G & Gw).
    destruct (bellman_inner self format v d J N G) as (m & -> & _).
    + intros E. apply getitem_keys in Gw. rewrite E in Gw. exact Gw.
    + exact C.
    + reflexivity.
Qed.

Lemma cost_sweep_eq J_n J_np1 :
  covers self J_n -> covers self J_np1 ->
  cost_sweep self J_n J_np1 = Ok (J_np1, sweep self J_np1).
Proof.
  intros Cn Cnp1. unfold cost_sweep.
  assert (U : update J_n J_np1 = J_np1).
  { apply update_same_keys; [congruence|].
    rewrite Cn. apply (format_keys _ format). }
  rewrite U. rewrite <- Cnp1.
  rewrite (foldM_setitem_keys (fun node => bellman_equation self node J_np1)
             (bval self J_np1)).
  - cbn [bind]. unfold sweep. rewrite Cnp1. reflexivity.
  - rewrite Cnp1. apply (format_keys _ format).
  - intros k I. apply bellman_total; [exact Cnp1|]. rewrite <- Cnp1. exact I.
Qed.

(** *** Values stay on the grid of the costs *)

Lemma on_grid_0 : on_grid unit_cost 0.
Proof. exists 0%Z. unfold inject_Z. lra. Qed.

Lemma on_grid_plus x y :
  on_grid unit_cost x -> on_grid unit_cost y -> on_grid unit_cost (x + y).
Proof.
  intros [a A] [b B]. exists (a + b)%Z. rewrite inject_Z_plus, A, B. lra.
Qed.

Lemma on_grid_close x y :
  on_grid unit_cost x -> on_grid unit_cost y ->
  Qabs (x - y) <= tolerance -> x == y.
Proof.
  intros [a A] [b B] L.
  assert (T : 0 < tolerance) by reflexivity.
  assert (U : 0 < unit_cost) by lra.
  apply Qabs_Qle_condition in L. destruct L as [L1 L2].
  rewrite A, B in *.
  assert (E : a = b).
  { destruct (Z.lt_trichotomy a b) as [Lt|[E|Gt]]; [|exact E|]; exfalso.
    - assert (Lt' : (a + 1 <= b)%Z) by lia.
      rewrite Zle_Qle, inject_Z_plus in Lt'. change (inject_Z 1) with 1 in Lt'.
      assert (inject_Z a * unit_cost + unit_cost <= inject_Z b * unit_cost) by nra.
      lra.
    - assert (Gt' : (b + 1 <= a)%Z) by lia.
      rewrite Zle_Qle, inject_Z_plus in Gt'. change (inject_Z 1) with 1 in Gt'.
      assert (inject_Z b * unit_cost + unit_cost <= inject_Z a * unit_cost) by nra.
      lra. }
  subst; reflexivity.
Qed.

Lemma grid_valued_sweep J :
  covers self J -> grid_valued J -> grid_valued (sweep self J).
Proof.
  intros C G v I. rewrite jval_sweep by exact I.
  pose proof (bellman_total v J C I) as B.
  destruct (string_dec v (terminal self)) as [->|N].
  - rewrite bellman_terminal in B. injection B as <-. apply on_grid_0.
  - destruct (leaves v I N) as (w & c & d & Gd & Gw).
    destruct (bellman_inner self format v d J N Gd) as (m & Em & (w' & c' & Gw' & ->) & _).
    + intros E. apply getitem_keys in Gw. rewrite E in Gw. exact Gw.
    + exact C.
    + assert (bval self J v = c' + jval J w') as -> by congruence.
      assert (Ed : edge self v w' c') by (exists d; auto).
      apply on_grid_plus; [eapply costs_on_grid; exact Ed|].
      apply G. eapply format_closed; [exact format|exact Ed].
Qed.

(** *** The loop of [find_cost_function] stops at a solution *)

Lemma sweep_agree r J J' :
  covers self J -> covers self J' -> agree_below r J J' ->
  agree_below (S r) (sweep self J) (sweep self J').
Proof.
  intros C C' A v I L. rewrite !jval_sweep by exact I.
  apply (bellman_agree self format v J J'); try assumption.
  - intros w c E. apply A.
    + eapply format_closed; [exact format|exact E].
    + apply rank_down in E. lia.
  - apply bellman_total; assumption.
  - apply bellman_total; assumption.
Qed.

Lemma fixed_of_close J :
  covers self J -> grid_valued J ->
  (forall v, In v (keys (dag self)) ->
     Qabs (jval J v - jval (sweep self J) v) <= tolerance) ->
  fixed self (sweep self J).
Proof.
  intros C G L. split; [apply covers_sweep|].
  intros v I. exists (bval self (sweep self J) v). split.
  - apply bellman_total; [apply covers_sweep|exact I].
  - rewrite jval_sweep by exact I.
    apply (bellman_agree self format v J (sweep self J)).
    + exact C.
    + apply covers_sweep.
    + intros w c E.
      assert (Iw : In w (keys (dag self))) by (eapply format_closed; eauto).
      apply on_grid_close; [apply G; exact Iw| |apply L; exact Iw].
      apply grid_valued_sweep; assumption.
    + apply bellman_total; assumption.
    + apply bellman_total; [apply covers_sweep|exact I].
Qed.

Lemma loop_converges (n : nat) :
  forall (r : nat) (J : dict node Q),
    (forall v, In v (keys (dag self)) -> (rank v < r + n)%nat) ->
    keys (dag self) <> [] ->
    covers self J -> grid_valued J -> agree_below r J (sweep self J) ->
    exists fuel J', cost_loop self fuel J (sweep self J) = Ok J' /\ fixed self J'.
Proof.
  induction n as [|n IH]; intros r J Bound NE C G A;
    destruct (compare_J_spec self J (sweep self J) C (covers_sweep self J) NE)
      as (d & Ed & (v0 & I0 & E0) & Ld);
    destruct (Qltb tolerance d) eqn:T.
  - exfalso. apply Qltb_true in T.
    assert (Z0 : jval J v0 == jval (sweep self J) v0).
    { apply A; [exact I0|]. specialize (Bound v0 I0). lia. }
    assert (D0 : d <= 0).
    { rewrite E0. apply Qabs_Qle_condition. split; lra. }
    assert (0 < tolerance) by reflexivity. lra.
  - exists 0%nat, (sweep self J). split.
    + cbn [cost_loop]. rewrite Ed. cbn [bind]. rewrite T. reflexivity.
    + apply Qltb_false in T. apply fixed_of_close; try assumption.
      intros v I. eapply Qle_trans; [apply Ld; exact I|exact T].
  - destruct (IH (S r) (sweep self J)) as (fuel & J' & EJ & FJ).
    + intros v I. specialize (Bound v I). lia.
    + exact NE.
    + apply covers_sweep.
    + apply grid_valued_sweep; assumption.
    + apply sweep_agree; [exact C|apply covers_sweep|exact A].
    + exists (S fuel), J'. split; [|exact FJ].
      cbn [cost_loop]. rewrite Ed. cbn [bind]. rewrite T.
      rewrite (cost_sweep_eq J (sweep self J) C (covers_sweep self J)).
      cbn [bind]. exact EJ.
  - exists 0%nat, (sweep self J). split.
    + cbn [cost_loop]. rewrite Ed. cbn [bind]. rewrite T. reflexivity.
    + apply Qltb_false in T. apply fixed_of_close; try assumption.
      intros v I. eapply Qle_trans; [apply Ld; exact I|exact T].
Qed.

Lemma rank_bound (l : list node) :
  exists R, forall v, In v l -> (rank v < R)%nat.
Proof.
  induction l as [|x l [R IH]].
  - exists 0%nat. intros v [].
  - exists (S (Nat.max R (rank x))). intros v [->|I]; [lia|].
    specialize (IH v I). lia.
Qed.

Lemma jval_const (c : Q) (l : list node) (v : node) :
  In v l -> jval (map (fun k => (k, c)) l) v = c.
Proof. intros I. unfold jval. rewrite (getitem_map_pair (fun _ => c)) by exact I. reflexivity. Qed.

(** With enough iterations [find_cost_function] returns, and what it returns
    solves the Bellman equation. *)
Lemma find_cost_function_converges :
  keys (dag self) <> [] ->
  exists fuel J, find_cost_function self fuel = Ok J /\ fixed self J.
Proof.
  intros NE. unfold find_cost_function.
  pose proof (format_keys _ format) as ND.
  rewrite !dict_of_NoDup by (rewrite map_map; simpl; rewrite map_id; exact ND).
  set (J100 := map (fun v => (v, 100)) (keys (dag self))).
  set (J0 := map (fun v => (v, 0)) (keys (dag self))).
  assert (C100 : covers self J100) by apply keys_map_pair.
  assert (C0 : covers self J0) by apply keys_map_pair.
  destruct (compare_J_spec self J100 J0 C100 C0 NE) as (d & Ed & _ & Ld).
  assert (T : Qltb tolerance d = true).
  { apply Qltb_true. destruct (keys (dag self)) as [|v l] eqn:E; [congruence|].
    assert (I : In v (v :: l)) by (left; reflexivity).
    specialize (Ld v I). unfold J100, J0 in Ld.
    rewrite !jval_const in Ld by exact I.
    eapply Qlt_le_trans; [|exact Ld]. reflexivity. }
  destruct (rank_bound (keys (dag self))) as [R Bound].
  destruct (loop_converges R 0 J0) as (fuel & J' & EJ & FJ); try assumption.
  - intros v I. unfold J0. rewrite jval_const by exact I. apply on_grid_0.
  - intros v I L. lia.
  - exists (S fuel), J'. split; [|exact FJ].
    cbn [cost_loop]. rewrite Ed. cbn [bind]. rewrite T.
    rewrite (cost_sweep_eq J100 J0 C100 C0). cbn [bind]. exact EJ.
Qed.

End Iteration.

(** ** A solution of the Bellman equation and the routes *)

Section Solution.
Variable self : problem.
Hypothesis format : dag_format self.
Variable J : dict node Q.
Hypothesis solution : fixed self J.
Local Open Scope Q_scope.

Lemma fixed_terminal : In (terminal self) (keys (dag self)) -> jval J (terminal self) == 0.
Proof.
  intros I. destruct solution as [_ Sol]. destruct (Sol _ I) as (x & B & E).
  rewrite bellman_terminal in B. injection B as <-. exact E.
Qed.

Lemma fixed_edge v w c : edge self v w c -> v <> terminal self -> jval J v <= c + jval J w.
Proof.
  intros E N. pose proof (edge_source _ _ _ _ E) as I.
  destruct solution as [C Sol]. destruct (Sol _ I) as (x & B & Ex).
  destruct E as (d & G & Gw).
  destruct (bellman_inner self format v d J N G) as (m & Em & _ & Lm).
  - intros K. apply getitem_keys in Gw. rewrite K in Gw. exact Gw.
  - exact C.
  - assert (x = m) by congruence. subst. rewrite Ex. apply Lm. exact Gw.
Qed.

(** No route from [v] is cheaper than [J[v]]. *)
Lemma fixed_lower_bound v p :
  route self v p -> In v (keys (dag self)) -> jval J v <= pcost self p.
Proof.
  induction 1 as [|v w c p N E R IH]; intros I.
  - rewrite pcost_end, fixed_terminal; [apply Qle_refl|exact I].
  - rewrite (pcost_step self v w c p N E R).
    pose proof (fixed_edge v w c E N).
    assert (jval J w <= pcost self p).
    { apply IH. eapply format_closed; [exact format|exact E]. }
    lra.
Qed.

(** *** The loop over the actions in [find_shortest_path] *)

Lemma fold_best (cnode : node) (f : node -> Q) (l : list node) :
  (forall w, In w l -> eval_action self cnode w J = Ok (f w)) ->
  forall st : node * Q,
  exists st',
    foldM (fun st w => J_v <- eval_action self cnode w J ;;
                       if Qltb J_v (snd st) then Ok (w, J_v) else Ok st) l st
    = Ok st' /\
    snd st' <= snd st /\
    (forall w, In w l -> snd st' <= f w) /\
    (st' = st \/ (In (fst st') l /\ snd st' = f (fst st'))).
Proof.
  induction l as [|w l IH]; intros F st; simpl.
  - exists st. repeat split; [apply Qle_refl|tauto|auto].
  - rewrite F by (left; reflexivity). cbn [bind].
    set (st1 := if Qltb (f w) (snd st) then (w, f w) else st).
    assert (S1 : snd st1 <= snd st /\ snd st1 <= f w /\
                 (st1 = st \/ st1 = (w, f w))).
    { unfold st1. destruct (Qltb (f w) (snd st)) eqn:T.
      - apply Qltb_true in T. simpl. repeat split; [lra|lra|auto].
      - apply Qltb_false in T. repeat split; [lra|lra|auto]. }
    destruct S1 as (L1 & L2 & D1).
    destruct (IH (fun w' I => F w' (or_intror I)) st1) as (st' & E & L & A & D).
    exists st'. split.
    + unfold st1 in E. destruct (Qltb (f w) (snd st)); exact E.
    + split; [lra|]. split.
      * intros w' [ <- | I ]; [lra|auto].
      * destruct D as [->|[I E']]; [|right; split; [right; exact I|exact E']].
        destruct D1 as [ -> | -> ]; [left; reflexivity|].
        right; split; [left; reflexivity|reflexivity].
Qed.

Lemma best_action_spec (cnode : node) (f : node -> Q) (actions : list node) :
  (forall w, In w actions -> eval_action self cnode w J = Ok (f w)) ->
  (exists w, In w actions /\ f w < min_cost_start) ->
  exists w, best_action self cnode J actions = Ok w /\ In w actions /\
            forall w', In w' actions -> f w <= f w'.
Proof.
  intros F (w0 & I0 & L0). unfold best_action.
  destruct actions as [|a l]; [contradiction|]. cbn [first_item bind].
  destruct (fold_best cnode f (a :: l) F (a, min_cost_start))
    as ([w m] & E & L & A & D).
  rewrite E. cbn [bind]. exists w. split; [reflexivity|].
  destruct D as [D|[I E']].
  - exfalso. injection D as -> ->. specialize (A w0 I0). simpl in A. lra.
  - simpl in I, E'. split; [exact I|]. intros w' I'. rewrite <- E'. apply (A w' I').
Qed.

End Solution.

(** ** The path that [find_shortest_path] extracts *)

Section Extraction.
Variable self : problem.
Hypothesis format : dag_format self.
Variable rank : node -> nat.
Hypothesis rank_down : forall v w c, edge self v w c -> (rank w < rank v)%nat.
Variable J : dict node Q.
Hypothesis solution : fixed self J.
Hypothesis below_start : forall v, In v (keys (dag self)) -> v <> terminal self ->
  (jval J v < min_cost_start)%Q.
Hypothesis leaves : forall v, In v (keys (dag self)) -> v <> terminal self ->
  exists w c, edge self v w c.
Local Open Scope Q_scope.

Lemma path_loop_route (n : nat) :
  forall v, (rank v < n)%nat -> In v (keys (dag self)) ->
  forall pre, exists fuel p,
    path_loop self fuel J v (pre ++ [v]) = Ok (pre ++ p) /\
    route self v p /\ pcost self p == jval J v.
Proof.
  induction n as [|n IH]; intros v L I pre; [lia|].
  destruct (string_dec v (terminal self)) as [->|N].
  - exists 0%nat, [terminal self]. split; [|split].
    + cbn [path_loop]. unfold is_at_end. rewrite String.eqb_refl. reflexivity.
    + constructor.
    + rewrite pcost_end. symmetry. apply (fixed_terminal self J solution I).
  - destruct (leaves v I N) as (w1 & c1 & d & G & Gw1).
    assert (NEd : keys d <> []).
    { intros K. apply getitem_keys in Gw1. rewrite K in Gw1. exact Gw1. }
    destruct solution as [C Sol]. destruct (Sol v I) as (x & B & Ex).
    destruct (bellman_inner self format v d J N G NEd C)
      as (m & Em & (w0 & c0 & Gw0 & M0) & Lm).
    assert (x = m) by congruence. subst x.
    set (f := fun w => match getitem d w with Ok c => c | _ => 0 end + jval J w).
    assert (F : forall w, In w (keys d) -> eval_action self v w J = Ok (f w)).
    { intros w Iw. destruct (keys_getitem _ _ Iw) as [c Gw].
      unfold f. rewrite Gw. apply eval_action_edge; [exact format|exact C|].
      exists d; auto. }
    destruct (best_action_spec self J v f (keys d) F) as (w & Ew & Iw & Lw).
    { exists w0. split; [eapply getitem_keys; exact Gw0|].
      unfold f. rewrite Gw0. rewrite <- M0, <- Ex. apply below_start; assumption. }
    destruct (keys_getitem _ _ Iw) as [c Gw].
    assert (E : edge self v w c) by (exists d; auto).
    assert (Fw : f w == jval J v).
    { rewrite Ex. apply Qle_antisym.
      - specialize (Lw w0 (getitem_keys _ _ _ Gw0)). unfold f in Lw at 2.
        rewrite Gw0, <- M0 in Lw. exact Lw.
      - unfold f. rewrite Gw. apply Lm. exact Gw. }
    destruct (IH w) with (pre := pre ++ [v]) as (fuel & p & Ep & Rp & Cp).
    + apply rank_down in E. lia.
    + eapply format_closed; [exact format|exact E].
    + exists (S fuel), (v :: p). split; [|split].
      * cbn [path_loop]. apply is_at_end_false in N. rewrite N.
        apply is_at_end_false in N.
        rewrite (available_actions_inner self v d N G). cbn [bind].
        rewrite Ew. cbn [bind]. rewrite Ep.
        rewrite <- app_assoc. reflexivity.
      * econstructor; eassumption.
      * rewrite (pcost_step self v w c p N E Rp), Cp, <- Fw.
        unfold f. rewrite Gw. reflexivity.
Qed.

(** [find_shortest_path] returns a route from the start vertex whose cost is
    [J] at the start vertex. *)
Lemma find_shortest_path_route :
  In (vertex self) (keys (dag self)) ->
  exists fuel p,
    find_shortest_path self fuel J = Ok p /\
    route self (vertex self) p /\ pcost self p == jval J (vertex self).
Proof.
  intros I. unfold find_shortest_path.
  apply (path_loop_route (S (rank (vertex self))) (vertex self)
           (Nat.lt_succ_diag_r _) I []).
Qed.

End Extraction.

(** ** The traversal of [BruteForceShortestPath] *)

Lemma last_item_snoc {A : Type} (l : list A) (x : A) : last_item (l ++ [x]) = Ok x.
Proof. unfold last_item. rewrite rev_app_distr. reflexivity. Qed.

Lemma length_snoc_eqb {A : Type} (l : list A) (x : A) :
  (List.length (l ++ [x]) =? 0)%nat = false.
Proof. rewrite length_app. simpl. apply Nat.eqb_neq. lia. Qed.

Lemma length_snoc_pos {A : Type} (l : list A) (x : A) :
  (0 <? List.length (l ++ [x]))%nat = true.
Proof. rewrite length_app. simpl. apply Nat.ltb_lt. lia. Qed.

Lemma length_snoc2 {A : Type} (l : list A) (x y : A) :
  (1 <? List.length ((l ++ [x]) ++ [y]))%nat = true.
Proof. rewrite !length_app. simpl. apply Nat.ltb_lt. lia. Qed.

Section Traversal.
Variable self : problem.
Hypothesis format : dag_format self.
Variable rank : node -> nat.
Hypothesis rank_down : forall v w c, edge self v w c -> (rank w < rank v)%nat.
Local Open Scope Q_scope.

Local Abbreviation full := (full self).
Local Abbreviation fresh_below := (fresh_below self rank).
Local Abbreviation begins := (begins self).
Local Abbreviation adds := (adds self).
Local Abbreviation acovers := (acovers self).
Local Abbreviation visits := (visits self rank).

Lemma adds_refl PC : adds PC PC (fun _ => False).
Proof. repeat split; auto. intros q []. Qed.

Lemma adds_trans PC PC1 PC2 (S1 S2 S : list node -> Prop) :
  adds PC PC1 S1 -> adds PC1 PC2 S2 ->
  (forall q, S q -> S1 q \/ S2 q) ->
  adds PC PC2 S.
Proof.
  intros (A1 & B1 & C1) (A2 & B2 & C2) HS. repeat split.
  - intros q c I. destruct (A2 q c I) as [I1|Snd]; [|right; exact Snd].
    apply A1; exact I1.
  - intros q I. apply B2, B1, I.
  - intros q Sq. destruct (HS q Sq) as [S1q|S2q].
    + apply B2, C1, S1q.
    + apply C2, S2q.
Qed.

Lemma adds_setitem PC q c :
  route self (vertex self) q -> evaluate_path self q = Ok c ->
  adds PC (setitem PC q c) (fun q' => q' = q).
Proof.
  intros R E. repeat split.
  - intros q' c' I. apply In_setitem in I. destruct I as [[-> ->]|I]; auto.
  - intros q' I. apply In_keys_setitem. right; exact I.
  - intros q' ->. apply In_keys_setitem. left; reflexivity.
Qed.

Lemma available_actions_full v :
  In v (keys (dag self)) -> available_actions self v = Ok (full v).
Proof.
  intros I. unfold full, available_actions.
  destruct (is_at_end self v); [reflexivity|].
  destruct (keys_getitem _ _ I) as [d ->]. reflexivity.
Qed.

Lemma full_edge v w :
  v <> terminal self -> In w (full v) -> exists c, edge self v w c.
Proof.
  intros N I. unfold full, available_actions in I.
  apply is_at_end_false in N. rewrite N in I.
  destruct (getitem (dag self) v) as [d| |] eqn:G; simpl in I; try contradiction.
  destruct (keys_getitem _ _ I) as [c Gw]. exists c, d; auto.
Qed.

Lemma edge_full v w c : v <> terminal self -> edge self v w c -> In w (full v).
Proof.
  intros N (d & G & Gw). unfold full.
  rewrite (available_actions_inner self v d N G).
  eapply getitem_keys; exact Gw.
Qed.

Lemma begins_step pre v w c :
  begins pre v -> v <> terminal self -> edge self v w c -> begins (pre ++ [v]) w.
Proof.
  intros B N E r R. rewrite <- app_assoc. apply B.
  econstructor; eassumption.
Qed.

Lemma traverse_loop_continue fuel s s' :
  t_cpath s <> [] -> traverse_step self s = Ok (inl s') ->
  traverse_loop self (S fuel) s = traverse_loop self fuel s'.
Proof.
  intros NE E. cbn [traverse_loop]. destruct (t_cpath s); [congruence|].
  rewrite E. reflexivity.
Qed.

Lemma traverse_loop_break fuel s pc :
  t_cpath s <> [] -> traverse_step self s = Ok (inr pc) ->
  traverse_loop self (S fuel) s = Ok pc.
Proof.
  intros NE E. cbn [traverse_loop]. destruct (t_cpath s); [congruence|].
  rewrite E. reflexivity.
Qed.

Lemma snoc_not_nil {A : Type} (l : list A) (x : A) : l ++ [x] <> [].
Proof. destruct l; discriminate. Qed.

(** The step that pops an action. *)
Lemma traverse_step_pop A v cpath PC acts w :
  v <> terminal self -> getitem A v = Ok (acts ++ [w]) ->
  traverse_step self {| t_actions := A; t_cnode := v; t_cpath := cpath; t_costs := PC |}
  = Ok (inl {| t_actions := setitem A v acts; t_cnode := w;
               t_cpath := cpath ++ [w]; t_costs := PC |}).
Proof.
  intros N G. unfold traverse_step. cbn [t_actions t_cnode t_cpath t_costs].
  rewrite G. cbn [bind]. apply is_at_end_false in N. rewrite N.
  rewrite length_snoc_eqb, length_snoc_pos. cbn [andb].
  rewrite last_item_snoc. cbn [bind]. rewrite removelast_last. reflexivity.
Qed.

(** The step at the terminal. *)
Lemma traverse_step_end A pre u PC acts :
  getitem A (terminal self) = Ok acts ->
  begins (pre ++ [u]) (terminal self) ->
  exists c,
    evaluate_path self ((pre ++ [u]) ++ [terminal self]) = Ok c /\
    traverse_step self {| t_actions := A; t_cnode := terminal self;
                          t_cpath := (pre ++ [u]) ++ [terminal self]; t_costs := PC |}
    = Ok (inl {| t_actions := A; t_cnode := u; t_cpath := pre ++ [u];
                 t_costs := setitem PC ((pre ++ [u]) ++ [terminal self]) c |}).
Proof.
  intros G B. specialize (B _ (route_end self)).
  pose proof (route_evaluate self _ _ B) as E.
  eexists. split; [exact E|].
  unfold traverse_step. cbn [t_actions t_cnode t_cpath t_costs].
  rewrite G. cbn [bind]. unfold is_at_end. rewrite String.eqb_refl.
  rewrite E. cbn [bind]. unfold step_back_path.
  rewrite removelast_last, last_item_snoc. reflexivity.
Qed.

(** The step that leaves a vertex whose actions are used up. *)
Lemma traverse_step_back A pre u v PC :
  v <> terminal self -> In v (keys (dag self)) -> getitem A v = Ok [] ->
  traverse_step self {| t_actions := A; t_cnode := v;
                        t_cpath := (pre ++ [u]) ++ [v]; t_costs := PC |}
  = Ok (inl {| t_actions := setitem A v (full v); t_cnode := u;
               t_cpath := pre ++ [u]; t_costs := PC |}).
Proof.
  intros N I G. unfold traverse_step. cbn [t_actions t_cnode t_cpath t_costs].
  rewrite G. cbn [bind]. apply is_at_end_false in N. rewrite N.
  rewrite length_snoc2. cbn [List.length Nat.eqb andb].
  rewrite (available_actions_full v I). cbn [bind]. unfold step_back_path.
  rewrite removelast_last, last_item_snoc. reflexivity.
Qed.

(** The step that ends the loop at the start vertex. *)
Lemma traverse_step_break A v PC :
  v <> terminal self -> getitem A v = Ok [] ->
  traverse_step self {| t_actions := A; t_cnode := v; t_cpath := [v]; t_costs := PC |}
  = Ok (inr PC).
Proof.
  intros N G. unfold traverse_step. cbn [t_actions t_cnode t_cpath t_costs].
  rewrite G. cbn [bind]. apply is_at_end_false in N. rewrite N. reflexivity.
Qed.

Lemma fresh_below_setitem A v acts r :
  fresh_below A r -> (r <= rank v)%nat -> fresh_below (setitem A v acts) r.
Proof.
  intros F L w I Lw. rewrite getitem_setitem_other; [apply F; assumption|].
  intros ->. lia.
Qed.

Lemma acovers_setitem A v acts :
  acovers A -> In v (keys (dag self)) -> acovers (setitem A v acts).
Proof.
  intros C I. unfold acovers. rewrite keys_setitem; [exact C|].
  rewrite C; exact I.
Qed.

(** The iterations that use up the actions left at [v]. *)
Lemma children_loop v pre :
  (forall w, (rank w < rank v)%nat -> In w (keys (dag self)) -> visits w) ->
  In v (keys (dag self)) -> v <> terminal self -> begins pre v ->
  forall acts A PC,
    getitem A v = Ok acts -> (forall w, In w acts -> In w (full v)) ->
    acovers A -> fresh_below A (rank v) ->
    exists fuel PC',
      (forall k,
         traverse_loop self (fuel + k)
           {| t_actions := A; t_cnode := v; t_cpath := pre ++ [v]; t_costs := PC |}
         = traverse_loop self k
             {| t_actions := setitem A v []; t_cnode := v; t_cpath := pre ++ [v];
                t_costs := PC' |}) /\
      adds PC PC'
        (fun q => exists w r, In w acts /\ route self w r /\ q = pre ++ v :: r).
Proof.
  intros V I N B acts.
  induction acts as [|w acts IH] using rev_ind; intros A PC G Sub C F.
  - exists 0%nat, PC. split.
    + intros k. rewrite (setitem_same A v [] G). reflexivity.
    + eapply adds_trans; [apply adds_refl|apply adds_refl|].
      intros q (w & r & [] & _).
  - assert (Iw : In w (full v)) by (apply Sub, in_or_app; right; left; reflexivity).
    destruct (full_edge v w N Iw) as [c E].
    assert (Kw : In w (keys (dag self))) by (eapply format_closed; eauto).
    assert (Lw : (rank w < rank v)%nat) by (eapply rank_down; exact E).
    destruct (V w Lw Kw pre v (setitem A v acts) PC) as (fuel1 & PC1 & R1 & A1).
    + eapply begins_step; eassumption.
    + apply acovers_setitem; assumption.
    + apply fresh_below_setitem; [|lia].
      intros x Ix Lx. apply F; [exact Ix|lia].
    + destruct (IH (setitem A v acts) PC1) as (fuel2 & PC2 & R2 & A2).
      * apply getitem_setitem_same.
      * intros x Ix. apply Sub, in_or_app; left; exact Ix.
      * apply acovers_setitem; assumption.
      * apply fresh_below_setitem; [exact F|lia].
      * exists (S (fuel1 + fuel2)), PC2. split.
        -- intros k. cbn [Nat.add].
           erewrite traverse_loop_continue;
             [|apply snoc_not_nil|apply (traverse_step_pop A v _ PC acts w N G)].
           rewrite <- Nat.add_assoc, R1, R2, setitem_setitem. reflexivity.
        -- eapply adds_trans; [exact A1|exact A2|].
           intros q (x & r & Ix & Rx & ->).
           apply in_app_or in Ix. destruct Ix as [Ix|[<-|[]]].
           ++ right. exists x, r. auto.
           ++ left. exists r. split; [exact Rx|]. rewrite <- app_assoc. reflexivity.
Qed.

Lemma route_terminal_inv r : route self (terminal self) r -> r = [terminal self].
Proof. intros R. inversion R; subst; [reflexivity|congruence]. Qed.

Lemma visits_all (n : nat) :
  forall v, (rank v < n)%nat -> In v (keys (dag self)) -> visits v.
Proof.
  induction n as [|n IH]; intros v L I; [lia|].
  intros pre u A PC B C F.
  assert (G : getitem A v = Ok (full v)) by (apply F; [exact I|lia]).
  destruct (string_dec v (terminal self)) as [->|N].
  - destruct (traverse_step_end A pre u PC _ G B) as (c & E & St).
    exists 1%nat, (setitem PC ((pre ++ [u]) ++ [terminal self]) c). split.
    + intros k. cbn [Nat.add].
      apply traverse_loop_continue; [apply snoc_not_nil|exact St].
    + eapply adds_trans; [apply adds_refl|apply adds_setitem|].
      * apply B. constructor.
      * exact E.
      * intros q (r & R & ->). right. apply route_terminal_inv in R.
        subst; reflexivity.
  - destruct (children_loop v (pre ++ [u])) with (acts := full v) (A := A) (PC := PC)
      as (fuel & PC' & R & Ad); try assumption.
    + intros w Lw Iw. apply IH; [lia|exact Iw].
    + auto.
    + intros x Ix Lx. apply F; [exact Ix|lia].
    + exists (fuel + 1)%nat, PC'. split.
      * intros k. rewrite <- Nat.add_assoc, R. cbn [Nat.add].
        erewrite traverse_loop_continue;
          [|apply snoc_not_nil
           |apply (traverse_step_back (setitem A v []) pre u v PC' N I
                     (getitem_setitem_same A v []))].
        rewrite setitem_setitem, (setitem_same A v (full v) G). reflexivity.
      * eapply adds_trans; [exact Ad|apply adds_refl|].
        intros q (r & Rr & ->). left.
        inversion Rr as [|v' w c p N' E Rp]; subst; [congruence|].
        exists w, p. split; [eapply edge_full; eassumption|].
        split; [exact Rp|reflexivity].
Qed.

(** [traverse_paths] returns, with an entry for every route from the start
    vertex and no other entry, each with the cost of its route. *)
Lemma traverse_paths_routes :
  In (vertex self) (keys (dag self)) -> vertex self <> terminal self ->
  exists fuel PC,
    traverse_paths self fuel = Ok PC /\
    (forall q c, In (q, c) PC ->
       route self (vertex self) q /\ evaluate_path self q = Ok c) /\
    (forall q, route self (vertex self) q -> In q (keys PC)).
Proof.
  intros I N.
  pose proof (format_keys _ format) as ND.
  set (A0 := map (fun k => (k, full k)) (keys (dag self))).
  assert (E0 : forall fuel,
             traverse_paths self fuel
             = traverse_loop self fuel
                 {| t_actions := A0; t_cnode := vertex self;
                    t_cpath := [] ++ [vertex self]; t_costs := [] |}).
  { intros fuel. unfold traverse_paths.
    rewrite (mapM_total _ (fun k => (k, full k))).
    - cbn [bind].
      rewrite dict_of_NoDup by (rewrite map_map; simpl; rewrite map_id; exact ND).
      reflexivity.
    - intros k Ik. rewrite (available_actions_full k Ik). reflexivity. }
  assert (C0 : acovers A0) by apply keys_map_pair.
  assert (F0 : forall r, fresh_below A0 r).
  { intros r w Iw _. apply (getitem_map_pair full). exact Iw. }
  assert (V : forall w, (rank w < rank (vertex self))%nat ->
                        In w (keys (dag self)) -> visits w).
  { intros w Lw Iw. apply (visits_all (S (rank w))); [lia|exact Iw]. }
  assert (B : begins [] (vertex self)) by (intros r Rr; exact Rr).
  destruct (children_loop (vertex self) [] V I N B (full (vertex self)) A0 []
              (F0 _ _ I (Nat.lt_succ_diag_r _)) (fun w Iw => Iw) C0 (F0 _))
    as (fuel & PC & R & (Snd & _ & Cmp)).
  exists (fuel + 1)%nat, PC. split; [|split].
  - rewrite E0, R. cbn [app].
    apply traverse_loop_break; [discriminate|].
    apply traverse_step_break; [exact N|apply getitem_setitem_same].
  - intros q c Iq. destruct (Snd q c Iq) as [[]|Sq]. exact Sq.
  - intros q Rq. apply Cmp.
    inversion Rq as [E|v' w c p N' E Rp]; subst; [congruence|].
    exists w, p. split; [eapply edge_full; eassumption|].
    split; [exact Rp|reflexivity].
Qed.

End Traversal.

(** ** The two solvers agree *)

(** An int is a whole multiple of the unit 1. *)
Lemma int_costs_on_grid (self : problem) :
  int_costs self -> forall v w c, edge self v w c -> on_grid 1 c.
Proof.
  intros Ints v w c E. specialize (Ints v w c E).
  exists (Qnum c). destruct c as [n m]. simpl in Ints. subst m.
  unfold Qeq, inject_Z. simpl. lia.
Qed.

Lemma find_shortest_paths_least (self : problem) (fuel : nat)
  (PC : dict (list node) Q) :
  traverse_paths self fuel = Ok PC -> PC <> [] ->
  (forall q c, In (q, c) PC -> evaluate_path self q = Ok c) ->
  exists m paths,
    find_shortest_paths self fuel = Ok paths /\
    In m (values PC) /\ (forall y, In y (values PC) -> (m <= y)%Q) /\
    paths <> [] /\
    forall q, In q paths -> exists c, In (q, c) PC /\ (c <= m)%Q.
Proof.
  intros T NE Snd. unfold find_shortest_paths. rewrite T. cbn [bind].
  destruct (py_min_spec (values PC)) as (m & Em & Im & Lm).
  { destruct PC; [congruence|discriminate]. }
  rewrite Em. cbn [bind].
  set (gv := fun q => match getitem PC q with Ok c => c | _ => 0%Q end).
  assert (Gv : forall q, In q (keys PC) -> getitem PC q = Ok (gv q)).
  { intros q I. unfold gv. destruct (keys_getitem _ _ I) as [c ->]. reflexivity. }
  rewrite (mapM_total _ (fun q => (q, gv q))).
  2:{ intros q I. rewrite (Gv q I). reflexivity. }
  cbn [bind]. eexists m, _. split; [reflexivity|].
  split; [exact Im|]. split; [exact Lm|]. split.
  - apply in_map_iff in Im. destruct Im as ([q' c'] & Ec & Iq). simpl in Ec. subst c'.
    assert (Kq : In q' (keys PC)) by (apply (in_map fst) in Iq; exact Iq).
    assert (E : gv q' = m).
    { pose proof (Gv q' Kq) as G. apply getitem_In in G.
      apply Snd in G. apply Snd in Iq. congruence. }
    intros K.
    assert (I : In q' (map fst (filter (fun pc => Qle_bool (snd pc) m)
                                  (map (fun q => (q, gv q)) (keys PC))))).
    { apply in_map_iff. exists (q', gv q'). split; [reflexivity|].
      apply filter_In. split; [apply (in_map (fun q => (q, gv q))); exact Kq|].
        cbn [snd]. rewrite E. apply Qle_bool_iff. apply Qle_refl. }
    rewrite K in I. exact I.
  - intros q I. apply in_map_iff in I. destruct I as ([q0 c0] & Eq & I).
    simpl in Eq. subst q0. apply filter_In in I. destruct I as [I L].
    apply in_map_iff in I. destruct I as (q1 & Eq1 & Kq).
    injection Eq1 as -> <-.
    cbn [snd] in L. apply Qle_bool_iff in L.
    exists (gv q). split; [|exact L].
    apply getitem_In. apply Gv. exact Kq.
Qed.

Lemma more_fuel_Ok {A : Type} (f : nat -> outcome A) (n m : nat) (a : A) :
  (forall k, settled (f n) -> f (n + k)%nat = f n) ->
  f n = Ok a -> (n <= m)%nat -> f m = Ok a.
Proof.
  intros M E L. replace m with (n + (m - n))%nat by lia.
  rewrite M; [exact E|]. rewrite E. discriminate.
Qed.

Lemma find_cost_function_fuel (self : problem) (n m : nat) (J : dict node Q) :
  find_cost_function self n = Ok J -> (n <= m)%nat ->
  find_cost_function self m = Ok J.
Proof.
  apply (more_fuel_Ok (find_cost_function self)).
  intros k. apply cost_loop_more_fuel.
Qed.

Lemma find_shortest_path_fuel (self : problem) (J : dict node Q) (n m : nat)
  (p : list node) :
  find_shortest_path self n J = Ok p -> (n <= m)%nat ->
  find_shortest_path self m J = Ok p.
Proof.
  apply (more_fuel_Ok (fun n => find_shortest_path self n J)).
  intros k. apply path_loop_more_fuel.
Qed.

Lemma traverse_paths_fuel (self : problem) (n m : nat) (PC : dict (list node) Q) :
  traverse_paths self n = Ok PC -> (n <= m)%nat -> traverse_paths self m = Ok PC.
Proof.
  apply (more_fuel_Ok (traverse_paths self)).
  intros k. unfold traverse_paths.
  destruct (mapM _ (keys (dag self))); cbn [bind]; try reflexivity.
  apply traverse_loop_more_fuel.
Qed.

(** C10, amended.  Take a problem in the cost dictionary format whose graph is
    acyclic, whose start vertex has an entry and is not the terminal, whose
    costs are Python ints, and where from every vertex some route to the
    terminal costs less than 1e10.  Then with enough iterations
    [find_cost_function] returns a cost function, [find_shortest_path]
    extracts a route from it, [find_shortest_paths] of the brute-force solver
    returns a non-empty list of routes, and [evaluate_path] gives each of them
    the cost of the extracted route, which no route from the start vertex to
    the terminal undercuts. *)
Theorem solvers_agree_on_cost (self : problem) :
  dag_format self -> acyclic self ->
  In (vertex self) (keys (dag self)) -> vertex self <> terminal self ->
  int_costs self ->
  (forall v, In v (keys (dag self)) ->
     exists p, route self v p /\ (pcost self p < min_cost_start)%Q) ->
  exists fuel J cpath cost paths,
    find_cost_function self fuel = Ok J /\
    find_shortest_path self fuel J = Ok cpath /\
    route self (vertex self) cpath /\
    evaluate_path self cpath = Ok cost /\
    find_shortest_paths self fuel = Ok paths /\
    paths <> [] /\
    (forall q, In q paths ->
       route self (vertex self) q /\
       exists c, evaluate_path self q = Ok c /\ (c == cost)%Q) /\
    (forall q, route self (vertex self) q ->
       exists c, evaluate_path self q = Ok c /\ (cost <= c)%Q).
Proof.
  intros F [rank Rk] Iv Nv Ints Cheap.
  assert (U : (tolerance < 1)%Q) by reflexivity.
  pose proof (int_costs_on_grid self Ints) as G.
  assert (Leaves : forall v, In v (keys (dag self)) -> v <> terminal self ->
                             exists w c, edge self v w c).
  { intros v I N. destruct (Cheap v I) as (p & R & _).
    inversion R; subst; [congruence|eauto]. }
  assert (NE : keys (dag self) <> []) by (intros E; rewrite E in Iv; exact Iv).
  destruct (find_cost_function_converges self F rank Rk Leaves 1%Q U G NE)
    as (f1 & J & EJ & FJ).
  assert (Below : forall v, In v (keys (dag self)) -> v <> terminal self ->
                            (jval J v < min_cost_start)%Q).
  { intros v I _. destruct (Cheap v I) as (p & R & L).
    eapply Qle_lt_trans; [|exact L].
    apply (fixed_lower_bound self F J FJ v p R I). }
  destruct (find_shortest_path_route self F rank Rk J FJ Below Leaves Iv)
    as (f2 & cpath & Ep & Rp & Cp).
  destruct (traverse_paths_routes self F rank Rk Iv Nv)
    as (f3 & PC & ET & Snd & Cmp).
  set (fuel := (f1 + f2 + f3)%nat).
  assert (ET' : traverse_paths self fuel = Ok PC)
    by (apply (traverse_paths_fuel self f3); [exact ET|unfold fuel; lia]).
  assert (Kp : In cpath (keys PC)) by (apply Cmp; exact Rp).
  destruct (find_shortest_paths_least self fuel PC ET')
    as (m & paths & EP & Im & Lm & NEp & Sp).
  { intros E. rewrite E in Kp. exact Kp. }
  { intros q c I. apply (Snd q c I). }
  assert (Low : forall q, route self (vertex self) q ->
                          (pcost self cpath <= pcost self q)%Q).
  { intros q R. rewrite Cp. apply (fixed_lower_bound self F J FJ _ q R Iv). }
  assert (Mc : (m <= pcost self cpath)%Q).
  { apply Lm. destruct (keys_getitem _ _ Kp) as [c Gc]. apply getitem_In in Gc.
    destruct (Snd _ _ Gc) as [_ Ec].
    rewrite (route_evaluate self _ _ Rp) in Ec. injection Ec as <-.
    apply (in_map snd) in Gc. exact Gc. }
  exists fuel, J, cpath, (pcost self cpath), paths.
  split; [apply (find_cost_function_fuel self f1); [exact EJ|unfold fuel; lia]|].
  split; [apply (find_shortest_path_fuel self J f2); [exact Ep|unfold fuel; lia]|].
  split; [exact Rp|].
  split; [apply (route_evaluate self _ _ Rp)|].
  split; [exact EP|]. split; [exact NEp|]. split.
  - intros q I. destruct (Sp q I) as (c & Ic & Lc).
    destruct (Snd q c Ic) as [Rq Eq]. split; [exact Rq|].
    exists c. split; [exact Eq|].
    pose proof (Low q Rq) as L.
    rewrite (route_evaluate self _ _ Rq) in Eq. injection Eq as <-.
    apply Qle_antisym; [|exact L].
    eapply Qle_trans; [exact Lc|exact Mc].
  - intros q R. exists (pcost self q). split; [apply (route_evaluate self _ _ R)|].
    apply Low; exact R.
Qed.

(** ** A graph with a cycle of negative cost *)


Section NegativeCycle.
Local Open Scope Q_scope.




End NegativeCycle.





(** * Properties of the hidden Markov model *)

Section Likelihood.
Variable self : HMMBB.
Local Open Scope R_scope.

Local Abbreviation trans := (trans self).
Local Abbreviation emit := (emit self).
Local Abbreviation observable := (observable self).
Local Abbreviation chain := (chain self).
Local Abbreviation joint := (joint self).
Local Abbreviation likelihood_by_enumeration := (likelihood_by_enumeration self).
Local Abbreviation alpha_step := (alpha_step self).
Local Abbreviation tail_sum := (tail_sum self).

Lemma all_paths_length (T : nat) : List.length (all_paths T) = (2 ^ T)%nat.
Proof.
  induction T as [|T IH]; [reflexivity|].
  cbn [all_paths]. rewrite (flat_map_constant_length (c := 2%nat)) by reflexivity.
  rewrite IH. cbn [Nat.pow]. lia.
Qed.

Lemma all_paths_In (T : nat) (xs : list nat) :
  In xs (all_paths T) <->
  List.length xs = T /\ Forall (fun x => (x < 2)%nat) xs.
Proof.
  revert xs; induction T as [|T IH]; intros xs; cbn [all_paths].
  - split.
    + intros [<-|[]]. split; [reflexivity|constructor].
    + intros [L _]. destruct xs; [left; reflexivity|discriminate].
  - rewrite in_flat_map. split.
    + intros (p & Ip & I). apply IH in Ip. destruct Ip as [L F].
      destruct I as [<-|[<-|[]]]; (split; [simpl; congruence|constructor; [lia|exact F]]).
    + intros [L F]. destruct xs as [|x xs]; [discriminate|].
      inversion F as [|? ? Lx F']; subst. exists xs. split.
      * apply IH. split; [simpl in L; congruence|exact F'].
      * destruct x as [|[|x]]; [left; reflexivity|right; left; reflexivity|lia].
Qed.

Lemma forward_step_observable prev y :
  observable y -> forward_step self prev y = Ok (alpha_step prev y).
Proof.
  intros [e E]. unfold forward_step, alpha_step, emit. rewrite E. reflexivity.
Qed.

Lemma forward_loop_rows (ys : list Z) :
  forall prev, Forall observable ys ->
  exists rows,
    forward_loop self prev ys = Ok rows /\
    List.length rows = List.length ys /\
    forall t, (t < List.length ys)%nat ->
      nth t rows (0, 0) = alpha_step (nth t (prev :: rows) (0, 0)) (nth t ys 0%Z).
Proof.
  induction ys as [|y ys IH]; intros prev F.
  - exists []. repeat split. intros t L; simpl in L; lia.
  - inversion F as [|? ? Oy F']; subst.
    destruct (IH (alpha_step prev y) F') as (rows & E & L & Rec).
    exists (alpha_step prev y :: rows). split; [|split].
    + cbn [forward_loop]. rewrite (forward_step_observable prev y Oy). cbn [bind].
      rewrite E. reflexivity.
    + simpl. congruence.
    + intros [|t] Lt; [reflexivity|].
      cbn [nth]. apply Rec. simpl in Lt. lia.
Qed.

Lemma Rsum_ext {A : Type} (f g : A -> R) (l : list A) :
  (forall x, f x = g x) -> Rsum (map f l) = Rsum (map g l).
Proof. intros E. induction l as [|x l IH]; simpl; [reflexivity|]. rewrite E, IH. reflexivity. Qed.

Lemma Rsum_branch (f : list nat -> R) (l : list (list nat)) :
  Rsum (map f (flat_map (fun p => [0%nat :: p; 1%nat :: p]) l))
  = Rsum (map (fun p => f (0%nat :: p) + f (1%nat :: p)) l).
Proof.
  induction l as [|p l IH]; simpl; [reflexivity|]. unfold Rsum in *. simpl in *.
  rewrite IH. ring.
Qed.

Lemma tail_sum_step prev y ys :
  tail_sum prev (y :: ys) = tail_sum (alpha_step prev y) ys.
Proof.
  unfold tail_sum. cbn [List.length all_paths]. rewrite Rsum_branch.
  apply Rsum_ext. intros xs. cbn [chain alpha_step fst snd]. ring.
Qed.

Lemma forward_loop_last (ys : list Z) :
  forall prev rows, forward_loop self prev ys = Ok rows ->
    Forall observable ys ->
    cell (prev :: rows) (List.length ys) 0 + cell (prev :: rows) (List.length ys) 1
    = tail_sum prev ys.
Proof.
  induction ys as [|y ys IH]; intros prev rows E F.
  - injection E as <-. unfold tail_sum, cell. simpl. ring.
  - inversion F as [|? ? Oy F']; subst.
    cbn [forward_loop] in E. rewrite (forward_step_observable prev y Oy) in E.
    cbn [bind] in E.
    destruct (forward_loop self (alpha_step prev y) ys) as [rest| |] eqn:E';
      cbn [bind] in E; try discriminate.
    injection E as <-. rewrite tail_sum_step, <- (IH _ rest E' F').
    reflexivity.
Qed.

Lemma forward_rows (ys : list Z) :
  ys <> [] -> Forall observable ys ->
  exists alphas, forward self ys = Ok alphas /\ List.length alphas = List.length ys.
Proof.
  intros NE F. destruct ys as [|y0 ys]; [congruence|].
  inversion F as [|? ? [e E0] F']; subst.
  destruct (forward_loop_rows ys (fst e * 0.5, snd e * 0.5) F') as (rows & E & L & _).
  exists ((fst e * 0.5, snd e * 0.5) :: rows). split.
  - cbn [forward]. rewrite E0. cbn [bind]. rewrite E. reflexivity.
  - simpl. congruence.
Qed.

End Likelihood.

(** C4. For observations [ys] of length T >= 1, each an index into the
    emission rows, [forward] returns a table of T rows with
    alpha[0, i] = emp[i, y[0]] * 0.5 and, for t = 1 .. T-1,
    alpha[t, i] = emp[i, y[t]] * (alpha[t-1, 0] * P[0, i] + alpha[t-1, 1] * P[1, i]);
    and the last row sums to the probability of the observations obtained by
    summing the joint probability over all 2^T sequences of hidden states. *)
Theorem forward_computes_likelihood (self : HMMBB) (ys : list Z) :
  ys <> [] -> Forall (observable self) ys ->
  exists alphas,
    let T := List.length ys in
    forward self ys = Ok alphas /\
    List.length alphas = T /\
    (forall i, (i < 2)%nat ->
       cell alphas 0 i = (emit self i (nth 0 ys 0%Z) * 0.5)%R) /\
    (forall t i, (1 <= t < T)%nat -> (i < 2)%nat ->
       cell alphas t i
       = (emit self i (nth t ys 0%Z) *
          (cell alphas (t - 1) 0 * trans self 0 i +
           cell alphas (t - 1) 1 * trans self 1 i))%R) /\
    (cell alphas (T - 1) 0 + cell alphas (T - 1) 1)%R
    = likelihood_by_enumeration self ys /\
    List.length (all_paths T) = (2 ^ T)%nat.
Proof.
  intros NE F. destruct ys as [|y0 ys]; [congruence|].
  inversion F as [|? ? O0 F']; subst. destruct O0 as [e E0].
  set (r0 := ((fst e * 0.5)%R, (snd e * 0.5)%R)).
  destruct (forward_loop_rows self ys r0 F') as (rows & E & L & Rec).
  exists (r0 :: rows). cbn zeta.
  split; [|split; [|split; [|split; [|split]]]].
  - cbn [forward]. rewrite E0. cbn [bind]. fold r0. rewrite E. reflexivity.
  - simpl. congruence.
  - intros i Li. unfold cell, emit. cbn [nth]. rewrite E0.
    destruct i as [|[|i]]; [reflexivity|reflexivity|lia].
  - intros t i [L1 L2] Li. destruct t as [|t]; [lia|].
    cbn [List.length] in L2.
    assert (Lt : (t < List.length ys)%nat) by lia.
    specialize (Rec t Lt).
    replace (S t - 1)%nat with t by lia.
    unfold cell. change (nth (S t) (r0 :: rows) (0, 0)%R) with (nth t rows (0, 0)%R).
    change (nth (S t) (y0 :: ys) 0%Z) with (nth t ys 0%Z).
    rewrite Rec.
    destruct i as [|[|i]]; [| |lia]; cbn [alpha_step fst snd]; unfold row; ring.
  - cbn [List.length]. replace (S (List.length ys) - 1)%nat with (List.length ys) by lia.
    transitivity (tail_sum self r0 ys);
      [exact (forward_loop_last self ys r0 rows E F')|].
    unfold likelihood_by_enumeration, tail_sum. cbn [List.length all_paths].
    rewrite Rsum_branch. apply Rsum_ext. intros xs.
    cbn [joint]. unfold emit. rewrite E0. unfold r0. cbn [fst snd]. ring.
  - apply all_paths_length.
Qed.

(** ** Tables filled from the last row backwards *)

Lemma np_item_last {A : Type} (l : list A) (d : A) :
  l <> [] -> np_item l (-1) = Ok (List.last l d).
Proof.
  intros NE. unfold np_item. cbn [Z.ltb Z.compare].
  assert (L : (0 < List.length l)%nat) by (destruct l; [congruence|simpl; lia]).
  replace ((0 <=? -1 + Z.of_nat (List.length l))%Z) with true
    by (symmetry; apply Z.leb_le; lia).
  replace ((-1 + Z.of_nat (List.length l) <? Z.of_nat (List.length l))%Z) with true
    by (symmetry; apply Z.ltb_lt; lia).
  cbn [andb].
  replace (Z.to_nat (-1 + Z.of_nat (List.length l))) with (List.length l - 1)%nat by lia.
  destruct (exists_last NE) as (l' & x & ->).
  rewrite last_last, length_app. cbn [List.length].
  replace (List.length l' + 1 - 1)%nat with (List.length l') by lia.
  rewrite nth_error_app2, Nat.sub_diag by lia. reflexivity.
Qed.

Lemma last_cons_cons {A : Type} (x y : A) (l : list A) (d : A) :
  List.last (x :: y :: l) d = List.last (y :: l) d.
Proof. reflexivity. Qed.

Lemma fill_back_rows {A : Type} (step : Z -> A -> outcome A) (last_row : A)
  (ys : list Z) (d : A) :
  ys <> [] ->
  (forall y next, In y (tl ys) -> exists r, step y next = Ok r) ->
  exists rows,
    fill_back step last_row ys = Ok rows /\
    List.length rows = List.length ys /\
    List.last rows d = last_row.
Proof.
  induction ys as [|y ys IH]; intros NE St; [congruence|].
  destruct ys as [|y' ys].
  - exists [last_row]. repeat split.
  - destruct IH as (rows & E & L & La); [discriminate| |].
    + intros z next I. apply St. right. exact I.
    + destruct rows as [|next rows]; [discriminate|].
      destruct (St y' next (or_introl eq_refl)) as [r Er].
      exists (r :: next :: rows). split; [|split].
      * change (fill_back step last_row (y :: y' :: ys))
          with (rest <- fill_back step last_row (y' :: ys) ;;
                next <- first_item rest ;;
                r <- step y' next ;;
                Ok (r :: rest)).
        rewrite E. cbn [bind first_item]. rewrite Er. reflexivity.
      * simpl in *. congruence.
      * rewrite last_cons_cons. exact La.
Qed.

Section Smoothing.
Variable self : HMMBB.
Local Open Scope R_scope.

Lemma backward_step_observable y next :
  observable self y -> exists r, backward_step self y next = Ok r.
Proof. intros [e E]. unfold backward_step. rewrite E. eexists; reflexivity. Qed.

Lemma backward_rows (ys : list Z) :
  ys <> [] -> Forall (observable self) ys ->
  exists betas,
    backward self ys = Ok betas /\
    List.length betas = List.length ys /\
    List.last betas (0, 0) = (1, 1).
Proof.
  intros NE F. apply fill_back_rows; [exact NE|].
  intros y next I. apply backward_step_observable.
  rewrite Forall_forall in F. apply F. destruct ys; [contradiction|right; exact I].
Qed.



End Smoothing.

(** ** The model of the lecture *)

Section Lecture.
Local Open Scope R_scope.

Lemma np_log_pos x : 0 < x -> np_log x = Fin (ln x).
Proof. intros L. unfold np_log. destruct (Req_dec_T x 0); [lra|reflexivity]. Qed.

Lemma lltb_lt x y : x < y -> lltb (Fin x) (Fin y) = true.
Proof. intros L. unfold lltb. destruct (Rlt_dec x y); [reflexivity|contradiction]. Qed.

Lemma lltb_ge x y : y <= x -> lltb (Fin x) (Fin y) = false.
Proof. intros L. unfold lltb. destruct (Rlt_dec x y); [lra|reflexivity]. Qed.

(** Compares two sums of logarithms of positive constants and of 1. *)
Ltac exp_cmp :=
  apply exp_lt_inv; rewrite ?exp_plus, ?exp_ln by lra;
  pose proof (exp_pos 1); nra.

Ltac decide_lltb :=
  match goal with
  | |- context [lltb (Fin ?x) (Fin ?y)] =>
      first [ rewrite (lltb_lt x y) by exp_cmp
            | rewrite (lltb_ge x y) by (apply Rlt_le; exp_cmp) ]
  end.

Ltac decide_argmax :=
  unfold argmax, score, P_row, at2; cbn [P lecture_hmm fst snd];
  rewrite !np_log_pos by lra; cbn [ladd fst snd]; decide_lltb.

Lemma emp_col_lecture_1 : emp_col lecture_hmm 1 = Ok (0.25, 0.3).
Proof. reflexivity. Qed.

Lemma emit_lecture_1 : emit lecture_hmm 0 1 = 0.25 /\ emit lecture_hmm 1 1 = 0.3.
Proof. unfold emit. rewrite emp_col_lecture_1. split; reflexivity. Qed.

Lemma viterbi_step_lecture_1 :
  viterbi_step lecture_hmm 1 (Fin 1, Fin 1)
  = Ok (Fin (ln 0.25 + ln 0.95 + 1), Fin (ln 0.3 + ln 0.95 + 1)).
Proof.
  unfold viterbi_step. rewrite emp_col_lecture_1. cbn [bind fst snd].
  unfold P00, P01, P10, P11, max2. cbn [P lecture_hmm fst snd].
  rewrite !np_log_pos by lra. cbn [ladd fst snd].
  repeat decide_lltb. reflexivity.
Qed.

Lemma log_mus_lecture :
  log_mus_table lecture_hmm [1; 1]%Z
  = Ok [(Fin (ln 0.25 + ln 0.95 + 1), Fin (ln 0.3 + ln 0.95 + 1)); (Fin 1, Fin 1)].
Proof.
  unfold log_mus_table. cbn [fill_back bind first_item].
  rewrite viterbi_step_lecture_1. reflexivity.
Qed.

(** With the uniform initial distribution the first state would be 1. *)
Lemma first_state_uniform :
  argmax (score (0.25, 0.3) (0.5, 0.5)
            (Fin (ln 0.25 + ln 0.95 + 1), Fin (ln 0.3 + ln 0.95 + 1))) = 1%nat.
Proof. decide_argmax. reflexivity. Qed.

(** On two zero returns in a row [viterbi] decodes bear, bear. *)
Lemma viterbi_lecture : viterbi lecture_hmm [1; 1]%Z = Ok [0; 0]%nat.
Proof.
  unfold viterbi. rewrite log_mus_lecture. cbn [bind List.length repeat seq foldM].
  change (np_item [1; 1]%Z 0) with (Ok 1%Z). cbn [bind].
  rewrite emp_col_lecture_1. cbn [bind].
  match goal with |- context [np_item ?l 0] =>
    change (np_item l 0) with (Ok (nth 0 l (NegInf, NegInf))) end.
  cbn [nth bind]. rewrite first_state_uniform.
  change (np_setitem [0; 0]%nat 0 1%nat) with (Ok [1; 0]%nat). cbn [bind].
  unfold decode_step.
  change (np_item [1; 1]%Z (Z.of_nat 0)) with (Ok 1%Z).
  change (np_item [1; 1]%Z (Z.of_nat 1)) with (Ok 1%Z).
  cbn [bind]. rewrite emp_col_lecture_1. cbn [bind].
  change (np_item [1; 0]%nat (Z.of_nat 0 - 1)) with (Ok 0%nat). cbn [bind].
  change (P_row lecture_hmm 0) with (Ok (0.95, 1 - 0.95)). cbn [bind].
  match goal with |- context [np_item ?l (Z.of_nat 0)] =>
    change (np_item l (Z.of_nat 0)) with (Ok (nth 0 l (NegInf, NegInf))) end.
  cbn [nth bind].
  match goal with |- context [argmax ?v] =>
    replace (argmax v) with 0%nat by (symmetry; decide_argmax; reflexivity) end.
  change (np_setitem [1; 0]%nat (Z.of_nat 0) 0%nat) with (Ok [0; 0]%nat). cbn [bind].
  change (np_item [0; 0]%nat (Z.of_nat 1 - 1)) with (Ok 0%nat). cbn [bind].
  change (P_row lecture_hmm 0) with (Ok (0.95, 1 - 0.95)). cbn [bind].
  match goal with |- context [np_item ?l (Z.of_nat 1)] =>
    change (np_item l (Z.of_nat 1)) with (Ok (nth 1 l (NegInf, NegInf))) end.
  cbn [nth bind].
  match goal with |- context [argmax ?v] =>
    replace (argmax v) with 0%nat by (symmetry; decide_argmax; reflexivity) end.
  reflexivity.
Qed.

(** C2 at the observations [1, 1] of the lecture's model: the last row of
    [log_mus] is (1, 1), not (0, 0); the argmax with the uniform initial
    distribution is state 1; and [viterbi] returns state 0 first, because its
    loop starts at [t = 0] and overwrites [xt_star[0]]. *)
Theorem viterbi_first_state_is_overwritten :
  exists log_mus e m0,
    log_mus_table lecture_hmm [1; 1]%Z = Ok log_mus /\
    np_item log_mus (-1) = Ok (Fin 1, Fin 1) /\
    emp_col lecture_hmm 1 = Ok e /\
    np_item log_mus 0 = Ok m0 /\
    argmax (score e (0.5, 0.5) m0) = 1%nat /\
    viterbi lecture_hmm [1; 1]%Z = Ok [0; 0]%nat.
Proof.
  eexists _, _, _. split; [apply log_mus_lecture|].
  split; [reflexivity|]. split; [apply emp_col_lecture_1|].
  split; [reflexivity|]. split; [apply first_state_uniform|apply viterbi_lecture].
Qed.

(** C3 at the same input: the path bull, bull has a larger joint
    log-probability than the path bear, bear that [viterbi] returns. *)
Theorem viterbi_path_is_not_most_likely :
  viterbi lecture_hmm [1; 1]%Z = Ok [0; 0]%nat /\
  log_joint lecture_hmm [0; 0]%nat [1; 1]%Z < log_joint lecture_hmm [1; 1]%nat [1; 1]%Z.
Proof.
  split; [apply viterbi_lecture|].
  destruct emit_lecture_1 as [E0 E1].
  unfold log_joint, log_chain. rewrite E0, E1.
  unfold trans, P00, P11. cbn [P lecture_hmm fst snd].
  apply exp_lt_inv. rewrite ?exp_plus, ?exp_ln, exp_0 by lra. lra.
Qed.

End Lecture.

(** ** Sampling *)

Section Sampling.
Variable self : HMMBB.
Variable rng : Type.
Variable draw : row -> rng -> nat * rng.

Lemma replace_nth_length {A : Type} (n : nat) (x : A) (a : list A) :
  List.length (replace_nth n x a) = List.length a.
Proof.
  revert n; induction a as [|y a IH]; intros [|n]; simpl; auto.
Qed.

Lemma np_setitem_length {A : Type} (a b : list A) (i : Z) (x : A) :
  np_setitem a i x = Ok b -> List.length b = List.length a.
Proof.
  unfold np_setitem. destruct (_ && _)%bool; [|discriminate].
  intros [= <-]. apply replace_nth_length.
Qed.

Lemma ffbs_step_log betas s t g s' g' :
  ffbs_step self rng draw betas s t g = (Ok s', g') ->
  drawn_from s' = drawn_from s ++ [(t, sample_probs s)] /\
  g' = snd (draw (sample_probs s) g) /\
  List.length (x_sample s') = List.length (x_sample s).
Proof.
  unfold ffbs_step. destruct (draw (sample_probs s) g) as [x g1]. cbn [snd].
  destruct (np_setitem (x_sample s) (Z.of_nat t) x) as [xs| |] eqn:E;
    cbn [bind]; try discriminate.
  apply np_setitem_length in E.
  destruct (0 <? Z.of_nat t - 1)%Z.
  - destruct (np_item xs (Z.of_nat t)) as [x_t| |]; cbn [bind]; try discriminate.
    destruct (P_col self x_t) as [c| |]; cbn [bind]; try discriminate.
    destruct (np_item betas (Z.of_nat t - 1)) as [b| |]; cbn [bind]; try discriminate.
    intros [= <- <-]. cbn [drawn_from x_sample]. auto.
  - intros [= <- <-]. cbn [drawn_from x_sample]. auto.
Qed.

Lemma ffbs_loop_log betas (ts : list nat) :
  forall s g s' g',
    ffbs_loop self rng draw betas ts s g = (Ok s', g') ->
    exists log,
      drawn_from s' = drawn_from s ++ log /\ map fst log = ts /\
      g' = replay draw log g /\
      List.length (x_sample s') = List.length (x_sample s).
Proof.
  induction ts as [|t ts IH]; intros s g s' g'; cbn [ffbs_loop].
  - intros [= <- <-]. exists []. rewrite app_nil_r. auto.
  - destruct (ffbs_step self rng draw betas s t g) as [[s1| |] g1] eqn:E;
      try discriminate.
    intros L. apply ffbs_step_log in E. destruct E as (D1 & G1 & X1).
    destruct (IH _ _ _ _ L) as (log & D & F & G & X).
    exists ((t, sample_probs s) :: log). split; [|split; [|split]].
    + rewrite D, D1, <- app_assoc. reflexivity.
    + simpl. rewrite F. reflexivity.
    + rewrite G, G1. reflexivity.
    + congruence.
Qed.

End Sampling.

(** C7, amended.  [ffbs] takes no random source of its own: a call that
    returns has made one draw for each time step, from [T - 1] down to 0, on
    the global generator, and leaves that generator in the state that these
    draws lead to; the path it returns has [T] states.  ([forward],
    [backward], [filter_probabilities], [smooth_probabilities] and [viterbi]
    do not touch the generator: they are functions of the model and the
    observations.) *)
Theorem ffbs_advances_the_global_generator (self : HMMBB) (rng : Type)
  (draw : row -> rng -> nat * rng) (ys : list Z) (g g' : rng) (s : sampler) :
  ffbs_run self rng draw ys g = (Ok s, g') ->
  ffbs self rng draw ys g = (Ok (x_sample s), g') /\
  List.length (x_sample s) = List.length ys /\
  map fst (drawn_from s) = rev (seq 0 (List.length ys)) /\
  g' = replay draw (drawn_from s) g.
Proof.
  intros E. split; [unfold ffbs; rewrite E; reflexivity|].
  unfold ffbs_run in E.
  destruct (alphas <- forward self ys ;; betas <- backward self ys ;;
            sp <- np_item (filter_probabilities alphas) (-1) ;; Ok (betas, sp))
    as [[betas sp]| |]; try discriminate.
  apply ffbs_loop_log in E. destruct E as (log & D & F & G & X).
  cbn [drawn_from x_sample app] in D, X. subst log.
  rewrite X, repeat_length. auto.
Qed.

Section LectureSampling.
Local Open Scope R_scope.

Lemma inverse_cdf_0 q u : u < fst q -> u < fst q + snd q -> inverse_cdf q u = 0%nat.
Proof.
  intros L1 L2. unfold inverse_cdf.
  destruct (Rle_dec (fst q) u); [lra|]. destruct (Rle_dec (fst q + snd q) u); [lra|].
  reflexivity.
Qed.

Lemma inverse_cdf_1 q u : fst q <= u -> u < fst q + snd q -> inverse_cdf q u = 1%nat.
Proof.
  intros L1 L2. unfold inverse_cdf.
  destruct (Rle_dec (fst q) u); [|lra]. destruct (Rle_dec (fst q + snd q) u); [lra|].
  reflexivity.
Qed.

Lemma forward_lecture_1 : forward lecture_hmm [1]%Z = Ok [alpha_0].
Proof. reflexivity. Qed.

Lemma forward_lecture_11 : forward lecture_hmm [1; 1]%Z = Ok [alpha_0; alpha_1].
Proof. reflexivity. Qed.

Lemma backward_lecture_1 : backward lecture_hmm [1]%Z = Ok [(1, 1)].
Proof. reflexivity. Qed.

Lemma exp_ln3 a b c : 0 < a -> 0 < b -> 0 < c ->
  np_exp (np_log a +l np_log b +l np_log c) = a * b * c.
Proof.
  intros A B C. rewrite !np_log_pos by assumption. cbn [ladd np_exp].
  rewrite !exp_plus, !exp_ln by assumption. reflexivity.
Qed.

Lemma backward_lecture_11 :
  backward lecture_hmm [1; 1]%Z
  = Ok [(0 + 0.25 * 1 * 0.95 + 0.3 * 1 * (1 - 0.95),
         0 + 0.25 * 1 * (1 - 0.95) + 0.3 * 1 * 0.95); (1, 1)].
Proof.
  unfold backward. cbn [fill_back bind first_item].
  unfold backward_step. rewrite emp_col_lecture_1. cbn [bind fst snd].
  unfold P00, P01, P10, P11. cbn [P lecture_hmm fst snd].
  rewrite !exp_ln3 by lra. reflexivity.
Qed.

Lemma filtered_1_bounds : 0.4 < fst filtered_1 < 0.5 /\ fst filtered_1 + snd filtered_1 = 1.
Proof. unfold filtered_1, alpha_1, alpha_0. cbn [fst snd]. split; [split|]; lra. Qed.

Lemma filtered_0_bounds : 0.4 < fst filtered_0 < 0.5 /\ fst filtered_0 + snd filtered_0 = 1.
Proof. unfold filtered_0, alpha_0. cbn [fst snd]. split; [split|]; lra. Qed.

Lemma draw_high q g :
  0.4 < fst q < 0.5 /\ fst q + snd q = 1 -> g 0%nat = 0.9 ->
  stream_draw q g = (1%nat, fun n => g (S n)).
Proof.
  intros [B S1] G. unfold stream_draw. rewrite G, inverse_cdf_1 by lra. reflexivity.
Qed.

Lemma draw_low q g :
  0.4 < fst q < 0.5 /\ fst q + snd q = 1 -> g 0%nat = 0.1 ->
  stream_draw q g = (0%nat, fun n => g (S n)).
Proof.
  intros [B S1] G. unfold stream_draw. rewrite G, inverse_cdf_0 by lra. reflexivity.
Qed.

(** [ffbs] on the observations [1, 1]: both states are drawn from the last
    row of the filtered probabilities. *)
Lemma ffbs_run_lecture_11 :
  ffbs_run lecture_hmm (nat -> R) stream_draw [1; 1]%Z high_then_low
  = (Ok {| x_sample := [0; 1]%nat; sample_probs := filtered_1;
           drawn_from := [(1%nat, filtered_1); (0%nat, filtered_1)] |},
     fun n => high_then_low (S (S n))).
Proof.
  unfold ffbs_run. rewrite forward_lecture_11, backward_lecture_11. cbn [bind].
  change (np_item (filter_probabilities [alpha_0; alpha_1]) (-1)) with (Ok filtered_1).
  cbn [bind List.length seq rev app repeat ffbs_loop].
  unfold ffbs_step at 1. cbn [sample_probs x_sample drawn_from].
  rewrite (draw_high filtered_1 high_then_low filtered_1_bounds eq_refl).
  change (np_setitem [0; 0]%nat (Z.of_nat 1) 1%nat) with (Ok [0; 1]%nat).
  cbn [bind app]. change (0 <? Z.of_nat 1 - 1)%Z with false. cbv iota.
  unfold ffbs_step. cbn [sample_probs x_sample drawn_from].
  rewrite (draw_low filtered_1 (fun n => high_then_low (S n)) filtered_1_bounds eq_refl).
  change (np_setitem [0; 1]%nat (Z.of_nat 0) 0%nat) with (Ok [0; 1]%nat).
  cbn [bind app]. change (0 <? Z.of_nat 0 - 1)%Z with false. cbv iota.
  reflexivity.
Qed.

Lemma ffbs_lecture_first_call :
  ffbs lecture_hmm (nat -> R) stream_draw [1]%Z high_then_low
  = (Ok [1%nat], fun n => high_then_low (S n)).
Proof.
  unfold ffbs, ffbs_run. rewrite forward_lecture_1, backward_lecture_1. cbn [bind].
  change (np_item (filter_probabilities [alpha_0]) (-1)) with (Ok filtered_0).
  cbn [bind List.length seq rev app repeat ffbs_loop].
  unfold ffbs_step. cbn [sample_probs x_sample drawn_from].
  rewrite (draw_high filtered_0 high_then_low filtered_0_bounds eq_refl).
  change (np_setitem [0]%nat (Z.of_nat 0) 1%nat) with (Ok [1]%nat).
  cbn [bind app]. change (0 <? Z.of_nat 0 - 1)%Z with false. cbv iota.
  reflexivity.
Qed.

Lemma ffbs_lecture_second_call :
  ffbs lecture_hmm (nat -> R) stream_draw [1]%Z (fun n => high_then_low (S n))
  = (Ok [0%nat], fun n => high_then_low (S (S n))).
Proof.
  unfold ffbs, ffbs_run. rewrite forward_lecture_1, backward_lecture_1. cbn [bind].
  change (np_item (filter_probabilities [alpha_0]) (-1)) with (Ok filtered_0).
  cbn [bind List.length seq rev app repeat ffbs_loop].
  unfold ffbs_step. cbn [sample_probs x_sample drawn_from].
  rewrite (draw_low filtered_0 (fun n => high_then_low (S n)) filtered_0_bounds eq_refl).
  change (np_setitem [0]%nat (Z.of_nat 0) 0%nat) with (Ok [0]%nat).
  cbn [bind app]. change (0 <? Z.of_nat 0 - 1)%Z with false. cbv iota.
  reflexivity.
Qed.

(** C1 at the observations [1, 1] of the lecture's model, with the variates
    0.9 and 0.1: [x_sample[1]] is drawn from the last row of the filtered
    probabilities, and so is [x_sample[0]], because the sampling probabilities
    are updated only [if t-1 > 0].  The first entry of that row is above 0.4,
    and the draw is state 0; the first entry of the distribution proportional
    to [P[i, x_1] * betas[0, i]], with the drawn [x_1 = 1], is below 0.05. *)
Theorem ffbs_draws_first_state_from_filtered_row :
  exists s g' alphas betas b0,
    ffbs_run lecture_hmm (nat -> R) stream_draw [1; 1]%Z high_then_low = (Ok s, g') /\
    x_sample s = [0; 1]%nat /\
    forward lecture_hmm [1; 1]%Z = Ok alphas /\
    np_item (filter_probabilities alphas) (-1) = Ok filtered_1 /\
    drawn_from s = [(1%nat, filtered_1); (0%nat, filtered_1)] /\
    0.4 < fst filtered_1 /\
    backward lecture_hmm [1; 1]%Z = Ok betas /\
    np_item betas 0 = Ok b0 /\
    P01 lecture_hmm * fst b0 / (P01 lecture_hmm * fst b0 + P11 lecture_hmm * snd b0)
    < 0.05.
Proof.
  eexists _, _, _, _, _.
  split; [apply ffbs_run_lecture_11|]. split; [reflexivity|].
  split; [apply forward_lecture_11|]. split; [reflexivity|].
  split; [reflexivity|]. split; [apply filtered_1_bounds|].
  split; [apply backward_lecture_11|]. split; [reflexivity|].
  unfold P01, P11. cbn [P lecture_hmm fst snd]. lra.
Qed.

(** C7 as stated fails: two calls of [ffbs] in a row, on the same model and
    the same observations, return different paths, because the first call
    has advanced the global generator. *)
Lemma ffbs_twice_counterexample :
  exists g1 g2,
    ffbs lecture_hmm (nat -> R) stream_draw [1]%Z high_then_low = (Ok [1%nat], g1) /\
    ffbs lecture_hmm (nat -> R) stream_draw [1]%Z g1 = (Ok [0%nat], g2).
Proof.
  eexists _, _. split; [apply ffbs_lecture_first_call|apply ffbs_lecture_second_call].
Qed.

Lemma ffbs_advances_witness :
  ffbs lecture_hmm (nat -> R) stream_draw [1; 1]%Z high_then_low
  = (Ok [0; 1]%nat, fun n => high_then_low (S (S n))) /\
  List.length [0; 1]%nat = List.length [1; 1]%Z /\
  map fst [(1%nat, filtered_1); (0%nat, filtered_1)] = rev (seq 0 (List.length [1; 1]%Z)) /\
  (fun n => high_then_low (S (S n)))
  = replay stream_draw [(1%nat, filtered_1); (0%nat, filtered_1)] high_then_low.
Proof.
  exact (ffbs_advances_the_global_generator lecture_hmm (nat -> R) stream_draw
           [1; 1]%Z high_then_low _ _ ffbs_run_lecture_11).
Defined.

End LectureSampling.

(** ** Construction *)

Lemma row_stochastic_lecture : row_stochastic (P lecture_hmm) = true.
Proof.
  unfold row_stochastic. cbn [P lecture_hmm fst snd].
  repeat match goal with
         | |- context [Rle_dec ?a ?b] => destruct (Rle_dec a b); [|exfalso; lra]
         | |- context [Req_dec_T ?a ?b] => destruct (Req_dec_T a b); [|exfalso; lra]
         end.
  reflexivity.
Qed.

(** C6 as stated fails: the constructor accepts emission rows of which one
    sums to 1.45 and the other has a negative entry. *)
Lemma init_accepts_bad_emissions :
  init row_stochastic 0.95 0.95 [0.7; 0.25; 0.5]%R [1.5; -0.5; 0]%R
  = Ok {| P := P lecture_hmm; emp := ([0.7; 0.25; 0.5]%R, [1.5; -0.5; 0]%R) |} /\
  (0.7 + 0.25 + 0.5 = 1.45)%R /\ (-0.5 < 0)%R.
Proof.
  split; [|split; lra]. unfold init.
  change ((0.95, 1 - 0.95), (1 - 0.95, 0.95))%R with (P lecture_hmm).
  rewrite row_stochastic_lecture. reflexivity.
Qed.

(** C6, amended.  The constructor builds [P] from [p_bear] and [p_bull], so
    that its rows sum to 1 whatever they are; it returns exactly when the
    Markov chain library accepts [P] and the two emission rows have the same
    length, and raises [ValueError] otherwise; the model it returns holds the
    emission rows as they were given: their entries are not looked at. *)
Theorem init_checks_transitions_and_lengths
  (MarkovChain_accepts : row * row -> bool) (p_bear p_bull : R)
  (r_bear_probs r_bull_probs : list R) :
  let P0 := ((p_bear, 1 - p_bear), (1 - p_bull, p_bull))%R in
  let r := init MarkovChain_accepts p_bear p_bull r_bear_probs r_bull_probs in
  (fst (fst P0) + snd (fst P0) = 1)%R /\ (fst (snd P0) + snd (snd P0) = 1)%R /\
  ((exists m, r = Ok m) <->
   (MarkovChain_accepts P0 = true /\
    List.length r_bear_probs = List.length r_bull_probs)) /\
  (forall m, r = Ok m -> P m = P0 /\ emp m = (r_bear_probs, r_bull_probs)) /\
  (r = Raised ValueError \/ exists m, r = Ok m).
Proof.
  cbn zeta. split; [cbn [fst snd]; lra|]. split; [cbn [fst snd]; lra|].
  unfold init.
  destruct (MarkovChain_accepts _) eqn:A;
    destruct (List.length r_bear_probs =? List.length r_bull_probs)%nat eqn:L.
  - apply Nat.eqb_eq in L. split; [|split].
    + split; [auto|]. intros _. eexists; reflexivity.
    + intros m [= <-]. auto.
    + right. eexists; reflexivity.
  - apply Nat.eqb_neq in L. split; [|split].
    + split; [intros [m E]; discriminate|]. intros [_ E]. contradiction.
    + intros m E; discriminate.
    + left; reflexivity.
  - split; [|split].
    + split; [intros [m E]; discriminate|]. intros [E _]. discriminate.
    + intros m E; discriminate.
    + left; reflexivity.
  - split; [|split].
    + split; [intros [m E]; discriminate|]. intros [E _]. discriminate.
    + intros m E; discriminate.
    + left; reflexivity.
Qed.

(** ** Checking the hypotheses on a given problem *)

Lemma nodupb_NoDup (l : list node) : nodupb l = true -> NoDup l.
Proof.
  induction l as [|x l IH]; simpl; [constructor|].
  rewrite andb_true_iff, negb_true_iff. intros [E N]. constructor; [|auto].
  intros I. assert (existsb (String.eqb x) l = true); [|congruence].
  apply existsb_exists. exists x. split; [exact I|apply String.eqb_refl].
Qed.

Lemma edge_entry (self : problem) v w c :
  edge self v w c -> exists d, In (v, d) (dag self) /\ In (w, c) d.
Proof. intros (d & G & Gw). exists d. split; apply getitem_In; assumption. Qed.

Lemma formatb_format (self : problem) : formatb self = true -> dag_format self.
Proof.
  unfold formatb. rewrite andb_true_iff, forallb_forall. intros [N F]. split.
  - apply nodupb_NoDup; exact N.
  - intros v d I. specialize (F _ I). apply andb_true_iff in F.
    apply nodupb_NoDup. apply F.
  - intros v w c E. destruct (edge_entry self v w c E) as (d & Id & Iw).
    specialize (F _ Id). apply andb_true_iff in F. destruct F as [_ F].
    rewrite forallb_forall in F. specialize (F w (in_map fst _ _ Iw)).
    apply existsb_exists in F. destruct F as (k & Ik & Ek).
    apply String.eqb_eq in Ek. subst; exact Ik.
Qed.

Lemma rankb_acyclic (self : problem) (rank : node -> nat) :
  rankb self rank = true -> acyclic self.
Proof.
  unfold rankb. rewrite forallb_forall. intros F. exists rank.
  intros v w c E. destruct (edge_entry self v w c E) as (d & Id & Iw).
  specialize (F _ Id). rewrite forallb_forall in F.
  specialize (F w (in_map fst _ _ Iw)). apply Nat.ltb_lt in F. exact F.
Qed.

Lemma wholeb_int_costs (self : problem) : wholeb self = true -> int_costs self.
Proof.
  unfold wholeb. rewrite forallb_forall. intros F v w c E.
  destruct (edge_entry self v w c E) as (d & Id & Iw).
  specialize (F _ Id). rewrite forallb_forall in F.
  specialize (F c (in_map snd _ _ Iw)). apply Pos.eqb_eq in F. exact F.
Qed.

Lemma routeb_route (self : problem) (p : list node) :
  forall v, routeb self v p = true -> route self v p.
Proof.
  induction p as [|x p IH]; intros v; [discriminate|].
  destruct p as [|w p].
  - cbn [routeb]. rewrite andb_true_iff, !String.eqb_eq. intros [-> ->]. constructor.
  - change (routeb self v (x :: w :: p))
      with (String.eqb x v && negb (String.eqb v (terminal self)) &&
            match getitem (dag self) v with
            | Ok d => match getitem d w with
                      | Ok _ => routeb self w (w :: p)
                      | _ => false
                      end
            | _ => false
            end).
    rewrite !andb_true_iff, negb_true_iff, String.eqb_eq, String.eqb_neq.
    intros [[-> N] R].
    destruct (getitem (dag self) v) as [d| |] eqn:G; try discriminate.
    destruct (getitem d w) as [c| |] eqn:Gw; try discriminate.
    apply (route_step self v w c); [exact N|exists d; auto|apply IH; exact R].
Qed.

Lemma cheapb_cheap (self : problem) (ps : list (list node)) :
  cheapb self ps = true ->
  forall v, In v (keys (dag self)) ->
    exists p, route self v p /\ (pcost self p < min_cost_start)%Q.
Proof.
  unfold cheapb. rewrite forallb_forall. intros F v I.
  specialize (F v I). apply existsb_exists in F. destruct F as (p & _ & F).
  apply andb_true_iff in F. destruct F as [R L].
  exists p. split; [apply routeb_route; exact R|apply Qltb_true; exact L].
Qed.

(** ** Problems on which the two solvers differ *)

(** C10 as stated fails on [far_apart], which is in the format, acyclic and
    has a route from every vertex to the terminal: the path that
    [find_shortest_path] extracts costs 4e10, the brute-force solver finds the
    route of cost 3e10. *)
Lemma far_apart_counterexample :
  dag_format far_apart /\ acyclic far_apart /\
  (forall v, In v (keys (dag far_apart)) -> exists p, route far_apart v p) /\
  exists J,
    find_cost_function far_apart 10 = Ok J /\
    find_shortest_path far_apart 10 J = Ok ["A"; "B"; "G"] /\
    evaluate_path far_apart ["A"; "B"; "G"] = Ok (40000000000 # 1) /\
    find_shortest_paths far_apart 10 = Ok [["A"; "G"]] /\
    evaluate_path far_apart ["A"; "G"] = Ok (30000000000 # 1).
Proof.
  split; [apply formatb_format; reflexivity|].
  split; [apply (rankb_acyclic _ (rank_of [("A", 2); ("B", 1); ("G", 0)]%nat));
          reflexivity|].
  split.
  - intros v I. simpl in I.
    destruct I as [<-|[<-|[<-|[]]]];
      [exists ["A"; "G"]|exists ["B"; "G"]|exists ["G"]];
      apply routeb_route; reflexivity.
  - eexists. split; [vm_compute; reflexivity|].
    repeat split; vm_compute; reflexivity.
Qed.

(** On [close_together] the loop of [find_cost_function] stops after one
    sweep, and the extracted path costs 7e-11 where a route costs 4e-11. *)
Lemma close_together_paths_differ :
  dag_format close_together /\ acyclic close_together /\
  exists J c c',
    find_cost_function close_together 10 = Ok J /\
    find_shortest_path close_together 10 J = Ok ["A"; "B"; "D"; "G"] /\
    evaluate_path close_together ["A"; "B"; "D"; "G"] = Ok c /\
    (c == 7 # 100000000000)%Q /\
    find_shortest_paths close_together 20 = Ok [["A"; "C"; "E"; "G"]] /\
    evaluate_path close_together ["A"; "C"; "E"; "G"] = Ok c' /\
    (c' == 4 # 100000000000)%Q.
Proof.
  split; [apply formatb_format; reflexivity|].
  split; [apply (rankb_acyclic _ (rank_of [("A", 3); ("B", 2); ("C", 2); ("D", 1);
                                            ("E", 1); ("G", 0)]%nat));
          reflexivity|].
  eexists _, _, _. split; [vm_compute; reflexivity|].
  split; [vm_compute; reflexivity|]. split; [vm_compute; reflexivity|].
  split; [vm_compute; reflexivity|]. split; [vm_compute; reflexivity|].
  split; vm_compute; reflexivity.
Qed.

(** On [already_there] the dynamic-programming solver returns the path of the
    terminal alone, and [traverse_paths] raises [IndexError]. *)
Lemma already_there_raises :
  exists J,
    find_cost_function already_there 10 = Ok J /\
    find_shortest_path already_there 10 J = Ok ["G"] /\
    find_shortest_paths already_there 10 = Raised IndexError.
Proof.
  eexists. split; [vm_compute; reflexivity|].
  split; vm_compute; reflexivity.
Qed.

(** The amended C10 on the lecture's graph. *)
Lemma solvers_agree_on_simple_graph :
  exists fuel J cpath cost paths,
    find_cost_function simple_problem fuel = Ok J /\
    find_shortest_path simple_problem fuel J = Ok cpath /\
    route simple_problem (vertex simple_problem) cpath /\
    evaluate_path simple_problem cpath = Ok cost /\
    find_shortest_paths simple_problem fuel = Ok paths /\
    paths <> [] /\
    (forall q, In q paths ->
       route simple_problem (vertex simple_problem) q /\
       exists c, evaluate_path simple_problem q = Ok c /\ (c == cost)%Q) /\
    (forall q, route simple_problem (vertex simple_problem) q ->
       exists c, evaluate_path simple_problem q = Ok c /\ (cost <= c)%Q).
Proof.
  apply (solvers_agree_on_cost simple_problem).
  - apply formatb_format. vm_compute. reflexivity.
  - apply (rankb_acyclic _ (rank_of [("A", 4); ("B", 3); ("C", 2); ("D", 2);
                                       ("E", 1); ("F", 1); ("G", 0)]%nat)).
    vm_compute. reflexivity.
  - simpl. auto.
  - discriminate.
  - apply wholeb_int_costs. vm_compute. reflexivity.
  - apply (cheapb_cheap simple_problem
             [["A"; "C"; "F"; "G"]; ["B"; "E"; "G"]; ["C"; "F"; "G"];
              ["D"; "G"]; ["E"; "G"]; ["F"; "G"]; ["G"]]).
    vm_compute. reflexivity.
Defined.

(** ** The theorems on the lecture's model *)

Lemma lecture_observable : Forall (observable lecture_hmm) [1; 1]%Z.
Proof. repeat constructor; exists (0.25, 0.3)%R; reflexivity. Defined.

Lemma forward_computes_likelihood_lecture :
  exists alphas,
    let T := List.length [1; 1]%Z in
    forward lecture_hmm [1; 1]%Z = Ok alphas /\
    List.length alphas = T /\
    (forall i, (i < 2)%nat ->
       cell alphas 0 i = (emit lecture_hmm i (nth 0 [1; 1]%Z 0%Z) * 0.5)%R) /\
    (forall t i, (1 <= t < T)%nat -> (i < 2)%nat ->
       cell alphas t i
       = (emit lecture_hmm i (nth t [1; 1]%Z 0%Z) *
          (cell alphas (t - 1) 0 * trans lecture_hmm 0 i +
           cell alphas (t - 1) 1 * trans lecture_hmm 1 i))%R) /\
    (cell alphas (T - 1) 0 + cell alphas (T - 1) 1)%R
    = likelihood_by_enumeration lecture_hmm [1; 1]%Z /\
    List.length (all_paths T) = (2 ^ T)%nat.
Proof.
  apply (forward_computes_likelihood lecture_hmm [1; 1]%Z).
  - discriminate.
  - exact lecture_observable.
Defined.

(** ** The distributions that [ffbs] draws from *)

Lemma nth_error_replace_nth_same {A : Type} (n : nat) (x : A) (a : list A) :
  (n < List.length a)%nat -> nth_error (replace_nth n x a) n = Some x.
Proof.
  revert n; induction a as [|y a IH]; intros [|n] L; simpl in *; try lia;
    [reflexivity|].
  apply IH. lia.
Qed.

Lemma nth_error_replace_nth_other {A : Type} (n m : nat) (x : A) (a : list A) :
  n <> m -> nth_error (replace_nth n x a) m = nth_error a m.
Proof.
  revert n m; induction a as [|y a IH]; intros [|n] [|m] N; simpl; try reflexivity;
    try congruence.
  apply IH. congruence.
Qed.

Lemma np_setitem_nat {A : Type} (a b : list A) (n : nat) (x : A) :
  np_setitem a (Z.of_nat n) x = Ok b ->
  b = replace_nth n x a /\ (n < List.length a)%nat.
Proof.
  unfold np_setitem.
  replace (Z.of_nat n <? 0)%Z with false by (symmetry; apply Z.ltb_ge; lia).
  destruct ((0 <=? Z.of_nat n) && (Z.of_nat n <? Z.of_nat (List.length a)))%Z eqn:E;
    [|discriminate].
  apply andb_true_iff in E. destruct E as [_ E]. apply Z.ltb_lt in E.
  rewrite Nat2Z.id. intros [= <-]. split; [reflexivity|lia].
Qed.

Lemma np_item_nat {A : Type} (a : list A) (n : nat) (y : A) :
  np_item a (Z.of_nat n) = Ok y -> nth_error a n = Some y.
Proof.
  unfold np_item.
  replace (Z.of_nat n <? 0)%Z with false by (symmetry; apply Z.ltb_ge; lia).
  destruct ((0 <=? Z.of_nat n) && (Z.of_nat n <? Z.of_nat (List.length a)))%Z;
    [|discriminate].
  rewrite Nat2Z.id. destruct (nth_error a n); [|discriminate].
  intros [= <-]. reflexivity.
Qed.

Section Distributions.
Variable self : HMMBB.
Variable rng : Type.
Variable draw : row -> rng -> nat * rng.
Variable T : nat.
Variable f : row.
Variable betas : list row.

Local Abbreviation about_to_draw := (about_to_draw self T f betas).

Lemma ffbs_step_keeps n s g s' g' :
  (S n <= T)%nat -> about_to_draw (S n) s ->
  ffbs_step self rng draw betas s n g = (Ok s', g') ->
  about_to_draw n s'.
Proof.
  intros LT (Len & Log & AtT & Mid & At1). unfold ffbs_step.
  destruct (draw (sample_probs s) g) as [x g1].
  destruct (np_setitem (x_sample s) (Z.of_nat n) x) as [xs| |] eqn:E;
    cbn [bind]; try discriminate.
  apply np_setitem_nat in E. destruct E as [-> Ln].
  assert (Old : forall e, In e (drawn_from s ++ [(n, sample_probs s)]) ->
                  (n <= fst e)%nat /\
                  drawn_as_coded self T f betas (replace_nth n x (x_sample s))
                    (drawn_from s ++ [(n, sample_probs s)]) e).
  { intros e I. apply in_app_or in I. destruct I as [I|[<-|[]]].
    - destruct (Log e I) as (Le & A & B & C). split; [lia|]. split; [exact A|].
      split.
      + intros L1 L2. destruct (B L1 L2) as (x' & Ex & Bx). exists x'.
        split; [|exact Bx]. rewrite nth_error_replace_nth_other by lia. exact Ex.
      + intros Z0. lia.
    - unfold drawn_as_coded. cbn [fst snd]. split; [lia|]. split; [|split].
      + intros ET. apply AtT. lia.
      + intros L1 L2. destruct (Mid ltac:(lia) ltac:(lia)) as (x' & Ex & Bx).
        exists x'. replace (S n - 1)%nat with n in Bx by lia.
        split; [|exact Bx]. rewrite nth_error_replace_nth_other by lia.
        replace (n + 1)%nat with (S n) by lia. exact Ex.
      + intros -> L2. apply in_or_app. left. apply At1; [reflexivity|exact L2]. }
  destruct (0 <? Z.of_nat n - 1)%Z eqn:C.
  - apply Z.ltb_lt in C.
    destruct (np_item (replace_nth n x (x_sample s)) (Z.of_nat n)) as [x_t| |] eqn:Ex;
      cbn [bind]; try discriminate.
    apply np_item_nat in Ex. rewrite nth_error_replace_nth_same in Ex by exact Ln.
    injection Ex as <-.
    destruct (P_col self x) as [c| |] eqn:Ec; cbn [bind]; try discriminate.
    destruct (np_item betas (Z.of_nat n - 1)) as [b| |] eqn:Eb; cbn [bind];
      try discriminate.
    intros [= <- <-]. unfold about_to_draw. cbn [x_sample drawn_from sample_probs].
    split; [rewrite replace_nth_length; exact Len|]. split; [exact Old|].
    split; [intros ->; lia|]. split; [|intros ->; lia].
    intros _ _. exists x. split; [apply nth_error_replace_nth_same; exact Ln|].
    unfold backward_probs. rewrite Ec. cbn [bind].
    replace (Z.of_nat (n - 1)) with (Z.of_nat n - 1)%Z by lia.
    rewrite Eb. reflexivity.
  - apply Z.ltb_ge in C.
    intros [= <- <-]. unfold about_to_draw. cbn [x_sample drawn_from sample_probs].
    split; [rewrite replace_nth_length; exact Len|]. split; [exact Old|].
    split; [intros ->; lia|]. split; [intros L2; lia|].
    intros -> _. apply in_or_app. right. left. reflexivity.
Qed.

Lemma ffbs_loop_keeps (n : nat) :
  forall s g s' g',
    (n <= T)%nat -> about_to_draw n s ->
    ffbs_loop self rng draw betas (rev (seq 0 n)) s g = (Ok s', g') ->
    about_to_draw 0 s'.
Proof.
  induction n as [|n IH]; intros s g s' g' LT A.
  - cbn [seq rev ffbs_loop]. intros [= <- <-]. exact A.
  - rewrite seq_S, rev_app_distr. cbn [rev app Nat.add ffbs_loop].
    destruct (ffbs_step self rng draw betas s n g) as [[s1| |] g1] eqn:E;
      try discriminate.
    apply (IH s1 g1 s' g'); [lia|].
    eapply ffbs_step_keeps; eassumption.
Qed.

End Distributions.

(** ** The path that [ffbs] returns, draw by draw *)

Lemma replay_app {rng : Type} (draw : row -> rng -> nat * rng)
  (a b : list (nat * row)) (g : rng) :
  replay draw (a ++ b) g = replay draw b (replay draw a g).
Proof. unfold replay. apply fold_left_app. Qed.

Lemma firstn_S_nth_error {A : Type} (l : list A) (k : nat) (x : A) :
  nth_error l k = Some x -> firstn (S k) l = firstn k l ++ [x].
Proof.
  revert k; induction l as [|y l IH]; intros [|k] E; simpl in *; try discriminate.
  - injection E as ->. reflexivity.
  - rewrite (IH k E). reflexivity.
Qed.

Lemma nth_error_rev_seq (T i : nat) :
  (i < T)%nat -> nth_error (rev (seq 0 T)) i = Some (T - 1 - i)%nat.
Proof.
  intros L. rewrite nth_error_rev.
  rewrite length_seq.
  replace (i <? T)%nat with true by (symmetry; apply Nat.ltb_lt; exact L).
  rewrite nth_error_seq.
  replace (T - S i <? T)%nat with true by (symmetry; apply Nat.ltb_lt; lia).
  f_equal. lia.
Qed.

Lemma NoDup_map_fst_eq {A B : Type} (l : list (A * B)) (k : A) (a b : B) :
  NoDup (map fst l) -> In (k, a) l -> In (k, b) l -> a = b.
Proof.
  induction l as [|[k' c] l IH]; intros ND Ia Ib; [destruct Ia|].
  cbn [map fst] in ND. inversion ND as [|? ? NI ND']; subst.
  destruct Ia as [Ea|Ia], Ib as [Eb|Ib].
  - congruence.
  - injection Ea as -> ->. exfalso. apply NI.
    apply (in_map fst) in Ib. exact Ib.
  - injection Eb as -> ->. exfalso. apply NI.
    apply (in_map fst) in Ia. exact Ia.
  - apply IH; assumption.
Qed.

Section Draws.
Variable self : HMMBB.
Variable rng : Type.
Variable draw : row -> rng -> nat * rng.
Variable betas : list row.

Lemma ffbs_step_draw s t g s' g' :
  ffbs_step self rng draw betas s t g = (Ok s', g') ->
  x_sample s' = replace_nth t (fst (draw (sample_probs s) g)) (x_sample s) /\
  (t < List.length (x_sample s))%nat /\
  g' = snd (draw (sample_probs s) g) /\
  drawn_from s' = drawn_from s ++ [(t, sample_probs s)].
Proof.
  unfold ffbs_step. destruct (draw (sample_probs s) g) as [x g1]. cbn [fst snd].
  destruct (np_setitem (x_sample s) (Z.of_nat t) x) as [xs| |] eqn:E;
    cbn [bind]; try discriminate.
  apply np_setitem_nat in E. destruct E as [-> L].
  destruct (0 <? Z.of_nat t - 1)%Z.
  - destruct (np_item _ (Z.of_nat t)) as [x_t| |]; cbn [bind]; try discriminate.
    destruct (P_col self x_t) as [c| |]; cbn [bind]; try discriminate.
    destruct (np_item betas (Z.of_nat t - 1)) as [b| |]; cbn [bind]; try discriminate.
    intros [= <- <-]. cbn [drawn_from x_sample]. auto.
  - intros [= <- <-]. cbn [drawn_from x_sample]. auto.
Qed.

(** Every entry [(t, q)] of the log stands for one draw: [x_sample[t]] is
    what [draw] returned on [q] and the generator as the earlier draws left
    it, and no later iteration writes to [x_sample[t]] again. *)
Lemma ffbs_loop_draws (ts : list nat) :
  NoDup ts ->
  forall s g s' g',
    ffbs_loop self rng draw betas ts s g = (Ok s', g') ->
    exists log,
      drawn_from s' = drawn_from s ++ log /\
      map fst log = ts /\
      (forall i t q, nth_error log i = Some (t, q) ->
         nth_error (x_sample s') t
         = Some (fst (draw q (replay draw (firstn i log) g)))) /\
      (forall t, ~ In t ts -> nth_error (x_sample s') t = nth_error (x_sample s) t).
Proof.
  induction ts as [|t ts IH]; intros ND s g s' g'; cbn [ffbs_loop].
  - intros [= <- <-]. exists []. rewrite app_nil_r.
    split; [reflexivity|]. split; [reflexivity|]. split; [|reflexivity].
    intros [|i] t q E; discriminate.
  - inversion ND as [|? ? NI ND']; subst.
    destruct (ffbs_step self rng draw betas s t g) as [[s1| |] g1] eqn:E;
      try discriminate.
    intros L. apply ffbs_step_draw in E. destruct E as (X1 & Lt & G1 & D1).
    destruct (IH ND' _ _ _ _ L) as (log & D & F & Dr & Keep).
    exists ((t, sample_probs s) :: log). split; [|split; [|split]].
    + rewrite D, D1, <- app_assoc. reflexivity.
    + simpl. rewrite F. reflexivity.
    + intros [|i] t' q Ei.
      * injection Ei as <- <-. cbn [firstn replay fold_left].
        rewrite (Keep t NI), X1. apply nth_error_replace_nth_same. exact Lt.
      * cbn [nth_error] in Ei. cbn [firstn].
        change (replay draw ((t, sample_probs s) :: firstn i log) g)
          with (replay draw (firstn i log) (snd (draw (sample_probs s) g))).
        rewrite <- G1. apply (Dr i t' q Ei).
    + intros t' N. rewrite (Keep t'), X1 by (intros I; apply N; right; exact I).
      apply nth_error_replace_nth_other. intros ->. apply N. left. reflexivity.
Qed.

End Draws.

(** X1.  A call of [ffbs] that returns, on observations of length [T], has
    made [T] draws, for [t] from [T - 1] down to 0, each on the generator as
    the draw before left it, and [x_sample[t]] is the state that the draw for
    [t] returned.  The draw for [T - 1] is from the last filtered row; the
    draw for each [t] from [T - 2] down to 1 is from the normalized
    [P[i, x_{t+1}] * betas[t, i]]; the draw for 0 is from the distribution
    that the draw for 1 was from.  [D t] is the distribution and [G t] the
    state of the generator at the draw for [t]. *)
Theorem ffbs_distributions (self : HMMBB) (rng : Type)
  (draw : row -> rng -> nat * rng) (ys : list Z) (g g' : rng) (xs : list nat) :
  ffbs self rng draw ys g = (Ok xs, g') ->
  exists alphas betas f (D : nat -> row) (G : nat -> rng),
    forward self ys = Ok alphas /\ backward self ys = Ok betas /\
    np_item (filter_probabilities alphas) (-1) = Ok f /\
    List.length xs = List.length ys /\ (1 <= List.length ys)%nat /\
    D (List.length ys - 1)%nat = f /\
    (forall t, (1 <= t)%nat -> (S t < List.length ys)%nat ->
       exists x, nth_error xs (S t) = Some x /\
                 backward_probs self betas t x = Ok (D t)) /\
    ((2 <= List.length ys)%nat -> D 0%nat = D 1%nat) /\
    G (List.length ys - 1)%nat = g /\
    (forall t, (S t < List.length ys)%nat ->
       G t = snd (draw (D (S t)) (G (S t)))) /\
    (forall t, (t < List.length ys)%nat ->
       nth_error xs t = Some (fst (draw (D t) (G t)))) /\
    g' = snd (draw (D 0%nat) (G 0%nat)).
Proof.
  unfold ffbs. intros E.
  destruct (ffbs_run self rng draw ys g) as [[s| |] g1] eqn:Er; try discriminate.
  injection E as <- <-.
  unfold ffbs_run in Er.
  destruct (forward self ys) as [alphas| |] eqn:Ea; cbn [bind] in Er;
    try discriminate.
  destruct (backward self ys) as [betas| |] eqn:Eb; cbn [bind] in Er;
    try discriminate.
  destruct (np_item (filter_probabilities alphas) (-1)) as [f| |] eqn:Ef;
    cbn [bind] in Er; try discriminate.
  set (T := List.length ys) in *.
  assert (T1 : (1 <= T)%nat).
  { destruct ys; [discriminate|]. unfold T. simpl. lia. }
  destruct (ffbs_loop_log self rng draw betas _ _ _ _ _ Er)
    as (log0 & Dl0 & Fst & Rep & Len).
  cbn [drawn_from x_sample app] in Dl0, Len. rewrite repeat_length in Len.
  rewrite <- Dl0 in Fst, Rep. clear log0 Dl0.
  pose proof Er as Coded.
  apply ffbs_loop_keeps with (T := T) (f := f) in Coded.
  2:{ apply Nat.le_refl. }
  2:{ unfold about_to_draw. cbn [x_sample drawn_from sample_probs].
      split; [apply repeat_length|]. split; [intros e []|].
      split; [reflexivity|]. split; [intros _ L; lia|]. intros -> L; lia. }
  destruct Coded as (_ & Coded & _).
  apply ffbs_loop_draws in Er.
  2:{ apply NoDup_rev. apply seq_NoDup. }
  destruct Er as (log & Dl & _ & Dr & _). cbn [drawn_from app] in Dl.
  rewrite <- Dl in Dr. clear log Dl.
  set (log := drawn_from s) in *.
  assert (Ll : List.length log = T).
  { rewrite <- (length_map fst), Fst, length_rev, length_seq. reflexivity. }
  set (D := fun t => snd (nth (T - 1 - t) log (0%nat, (0%R, 0%R)))).
  set (G := fun t => replay draw (firstn (T - 1 - t) log) g).
  assert (At : forall t, (t < T)%nat -> nth_error log (T - 1 - t) = Some (t, D t)).
  { intros t L.
    assert (Li : (T - 1 - t < List.length log)%nat) by lia.
    rewrite (nth_error_nth' log (0%nat, (0%R, 0%R)) Li). f_equal.
    assert (F : nth_error (map fst log) (T - 1 - t) = Some t).
    { rewrite Fst, nth_error_rev_seq by lia. f_equal. lia. }
    rewrite nth_error_map, (nth_error_nth' log (0%nat, (0%R, 0%R)) Li) in F.
    cbn [option_map] in F. injection F as F. unfold D.
    destruct (nth (T - 1 - t) log (0%nat, (0%R, 0%R))) as [t0 q]. cbn [fst snd] in *.
    subst t0. reflexivity. }
  assert (In_log : forall t, (t < T)%nat -> In (t, D t) log).
  { intros t L. eapply nth_error_In. apply At. exact L. }
  exists alphas, betas, f, D, G.
  split; [reflexivity|]. split; [reflexivity|]. split; [exact Ef|].
  split; [exact Len|]. split; [exact T1|].
  split.
  { destruct (Coded _ (In_log (T - 1)%nat ltac:(lia))) as (_ & A & _ & _).
    apply A. reflexivity. }
  split.
  { intros t L1 L2. destruct (Coded _ (In_log t ltac:(lia))) as (_ & _ & B & _).
    cbn [fst snd] in B. replace (S t) with (t + 1)%nat by lia.
    apply B; lia. }
  split.
  { intros L2. destruct (Coded _ (In_log 0%nat ltac:(lia))) as (_ & _ & _ & C).
    cbn [fst snd] in C. specialize (C eq_refl L2).
    pose proof (In_log 1%nat ltac:(lia)) as I1.
    assert (ND : NoDup (map fst log)).
    { rewrite Fst. apply NoDup_rev. apply seq_NoDup. }
    apply (NoDup_map_fst_eq log 1%nat (D 0%nat) (D 1%nat) ND C I1). }
  split.
  { unfold G. replace (T - 1 - (T - 1))%nat with 0%nat by lia. reflexivity. }
  split.
  { intros t L. unfold G.
    replace (T - 1 - t)%nat with (S (T - 1 - S t)) by lia.
    rewrite (firstn_S_nth_error log _ _ (At (S t) L)), replay_app. reflexivity. }
  split.
  { intros t L. apply (Dr _ t (D t) (At t L)). }
  rewrite Rep. unfold G.
  rewrite <- (firstn_all log) at 1. rewrite Ll.
  replace T with (S (T - 1 - 0)) at 1 by lia.
  rewrite (firstn_S_nth_error log _ _ (At 0%nat ltac:(lia))), replay_app.
  reflexivity.
Qed.

(** ** What [viterbi] decodes *)

Lemma np_item_nat_Ok {A : Type} (a : list A) (n : nat) (d : A) :
  (n < List.length a)%nat -> np_item a (Z.of_nat n) = Ok (nth n a d).
Proof.
  intros L. unfold np_item.
  replace (Z.of_nat n <? 0)%Z with false by (symmetry; apply Z.ltb_ge; lia).
  replace ((0 <=? Z.of_nat n) && (Z.of_nat n <? Z.of_nat (List.length a)))%Z
    with true
    by (symmetry; apply andb_true_iff; split; [apply Z.leb_le|apply Z.ltb_lt]; lia).
  rewrite Nat2Z.id. rewrite (nth_error_nth' a d L). reflexivity.
Qed.

Lemma np_setitem_nat_Ok {A : Type} (a : list A) (n : nat) (x : A) :
  (n < List.length a)%nat -> np_setitem a (Z.of_nat n) x = Ok (replace_nth n x a).
Proof.
  intros L. unfold np_setitem.
  replace (Z.of_nat n <? 0)%Z with false by (symmetry; apply Z.ltb_ge; lia).
  replace ((0 <=? Z.of_nat n) && (Z.of_nat n <? Z.of_nat (List.length a)))%Z
    with true
    by (symmetry; apply andb_true_iff; split; [apply Z.leb_le|apply Z.ltb_lt]; lia).
  rewrite Nat2Z.id. reflexivity.
Qed.

Lemma nth_replace_nth_same {A : Type} (n : nat) (x d : A) (a : list A) :
  (n < List.length a)%nat -> nth n (replace_nth n x a) d = x.
Proof.
  intros L. apply nth_error_nth. apply nth_error_replace_nth_same. exact L.
Qed.

Lemma nth_replace_nth_other {A : Type} (n m : nat) (x d : A) (a : list A) :
  n <> m -> nth m (replace_nth n x a) d = nth m a d.
Proof.
  revert n m; induction a as [|y a IH]; intros [|n] [|m] N; simpl; try reflexivity;
    try congruence.
  apply IH. congruence.
Qed.

Lemma Forall_replace_nth {A : Type} (Q : A -> Prop) (n : nat) (x : A) (a : list A) :
  Q x -> Forall Q a -> Forall Q (replace_nth n x a).
Proof.
  intros Qx F. revert n; induction F as [|y a Qy F IH]; intros [|n]; simpl;
    constructor; auto.
Qed.

Lemma argmax_lt_2 (v : lrow) : (argmax v < 2)%nat.
Proof. unfold argmax. destruct (lltb (fst v) (snd v)); lia. Qed.

Section Decoding.
Variable self : HMMBB.
Variable ys : list Z.
Variable log_mus : list lrow.
Hypothesis seen : Forall (observable self) ys.
Hypothesis rows : List.length log_mus = List.length ys.

Lemma emp_col_observable y : observable self y -> emp_col self y = Ok (emit_col self y).
Proof. intros [[e0 e1] E]. unfold emit_col, emit. rewrite E. reflexivity. Qed.

Lemma P_row_lt_2 x : (x < 2)%nat -> P_row self x = Ok (trans_row self x).
Proof.
  intros L. destruct x as [|[|x]]; [| |lia]; unfold P_row, at2, trans_row, trans,
    P00, P01, P10, P11; destruct (P self) as [[a b] [c d]]; reflexivity.
Qed.

Lemma decode_step_at (xs : list nat) (t prev : nat) :
  (t < List.length ys)%nat -> List.length xs = List.length ys ->
  np_item xs (Z.of_nat t - 1) = Ok prev -> (prev < 2)%nat ->
  decode_step self ys log_mus xs t
  = Ok (replace_nth t (decoded self ys log_mus prev t) xs).
Proof.
  intros L Len Ep Lp. unfold decode_step.
  rewrite (np_item_nat_Ok ys t 0%Z L). cbn [bind].
  rewrite emp_col_observable
    by (rewrite Forall_forall in seen; apply seen, nth_In; exact L).
  cbn [bind]. rewrite Ep. cbn [bind]. rewrite (P_row_lt_2 prev Lp). cbn [bind].
  rewrite (np_item_nat_Ok log_mus t (NegInf, NegInf)) by lia. cbn [bind].
  apply np_setitem_nat_Ok. lia.
Qed.

Lemma decode_from (n : nat) :
  forall a xs,
    (1 <= a)%nat -> (a + n <= List.length ys)%nat ->
    List.length xs = List.length ys -> Forall (fun x => (x < 2)%nat) xs ->
    exists xs',
      foldM (decode_step self ys log_mus) (seq a n) xs = Ok xs' /\
      List.length xs' = List.length ys /\
      Forall (fun x => (x < 2)%nat) xs' /\
      (forall i, (i < a)%nat -> nth i xs' 0%nat = nth i xs 0%nat) /\
      (forall t, (a <= t < a + n)%nat ->
         nth t xs' 0%nat = decoded self ys log_mus (nth (t - 1) xs' 0%nat) t).
Proof.
  induction n as [|n IH]; intros a xs La Ln Len F.
  - exists xs. cbn [seq foldM]. repeat split; auto. intros t Lt; lia.
  - cbn [seq foldM].
    assert (Lp : (nth (a - 1) xs 0 < 2)%nat).
    { rewrite Forall_forall in F. apply F, nth_In. lia. }
    rewrite (decode_step_at xs a (nth (a - 1) xs 0%nat)); try lia.
    2:{ replace (Z.of_nat a - 1)%Z with (Z.of_nat (a - 1)) by lia.
        apply np_item_nat_Ok. lia. }
    cbn [bind].
    set (x := decoded self ys log_mus (nth (a - 1) xs 0%nat) a).
    destruct (IH (S a) (replace_nth a x xs)) as (xs' & E & Len' & F' & Pre & Dec).
    + lia.
    + lia.
    + rewrite replace_nth_length; exact Len.
    + apply Forall_replace_nth; [apply argmax_lt_2|exact F].
    + exists xs'. split; [exact E|]. split; [exact Len'|]. split; [exact F'|].
      split.
      * intros i Li. rewrite Pre by lia. apply nth_replace_nth_other. lia.
      * intros t Lt. destruct (Nat.eq_dec t a) as [->|N].
        -- rewrite !Pre by lia.
           rewrite nth_replace_nth_same by lia.
           rewrite nth_replace_nth_other by lia. reflexivity.
        -- apply Dec. lia.
Qed.

End Decoding.

Lemma fill_back_recurrence {A : Type} (step : Z -> A -> outcome A) (last_row : A)
  (d : A) (ys : list Z) :
  forall rows, fill_back step last_row ys = Ok rows ->
    List.length rows = List.length ys /\
    List.last rows d = last_row /\
    forall t, (t + 1 < List.length ys)%nat ->
      step (nth (t + 1) ys 0%Z) (nth (t + 1) rows d) = Ok (nth t rows d).
Proof.
  induction ys as [|y ys IH]; intros rows; [discriminate|].
  destruct ys as [|y' ys].
  - intros [= <-]. repeat split. intros t L; simpl in L; lia.
  - change (fill_back step last_row (y :: y' :: ys))
      with (rest <- fill_back step last_row (y' :: ys) ;;
            next <- first_item rest ;;
            r <- step y' next ;;
            Ok (r :: rest)).
    destruct (fill_back step last_row (y' :: ys)) as [rest| |] eqn:E;
      cbn [bind]; try discriminate.
    destruct (IH rest eq_refl) as (Len & La & Rec).
    destruct rest as [|next rest]; [discriminate|]. cbn [first_item bind].
    destruct (step y' next) as [r| |] eqn:Er; cbn [bind]; try discriminate.
    intros [= <-]. split; [simpl in *; congruence|]. split; [exact La|].
    intros [|t] L.
    + exact Er.
    + apply (Rec t). simpl in *. lia.
Qed.

(** For observations of length [T >= 2], each an index into the emission
    rows, [viterbi] returns a path of [T] states; [log_mus] has [T] rows, the
    last is (1, 1) and each other row comes from the next by [viterbi_step];
    the first state is the argmax of
    [log emp[i, y[0]] + log P[0, i] + log_mu[0, i]], and the state at
    [t >= 1] is the argmax of
    [log emp[i, y[t]] + log P[x_{t-1}, i] + log_mu[t, i]]. *)
Lemma viterbi_decodes_from_bear (self : HMMBB) (ys : list Z) :
  (2 <= List.length ys)%nat -> Forall (observable self) ys ->
  exists log_mus xs,
    log_mus_table self ys = Ok log_mus /\
    viterbi self ys = Ok xs /\
    List.length log_mus = List.length ys /\
    List.length xs = List.length ys /\
    np_item log_mus (-1) = Ok (Fin 1, Fin 1) /\
    (forall t, (t + 1 < List.length ys)%nat ->
       viterbi_step self (nth (t + 1) ys 0%Z) (nth (t + 1) log_mus (NegInf, NegInf))
       = Ok (nth t log_mus (NegInf, NegInf))) /\
    nth 0 xs 0%nat = decoded self ys log_mus 0 0 /\
    (forall t, (1 <= t < List.length ys)%nat ->
       nth t xs 0%nat = decoded self ys log_mus (nth (t - 1) xs 0%nat) t).
Proof.
  intros L2 F.
  assert (NE : ys <> []) by (destruct ys; [simpl in L2; lia|discriminate]).
  destruct (fill_back_rows (viterbi_step self) (Fin 1, Fin 1) ys (NegInf, NegInf) NE)
    as (log_mus & E & Len & La).
  { intros y next I. rewrite Forall_forall in F.
    assert (O : observable self y) by (apply F; destruct ys; [contradiction|right; exact I]).
    unfold viterbi_step. rewrite (emp_col_observable self y O). eexists; reflexivity. }
  assert (Et : log_mus_table self ys = Ok log_mus).
  { unfold log_mus_table. destruct ys; [congruence|exact E]. }
  destruct (fill_back_recurrence _ _ (NegInf, NegInf) ys log_mus E) as (_ & _ & Rec).
  set (T := List.length ys) in *.
  set (x0 := argmax (score (emit_col self (nth 0 ys 0%Z)) (0.5, 0.5)%R
                       (nth 0 log_mus (NegInf, NegInf)))).
  set (xs0 := replace_nth 0 x0 (repeat 0%nat T)).
  assert (Len0 : List.length xs0 = T)
    by (unfold xs0; rewrite replace_nth_length; apply repeat_length).
  assert (F0 : Forall (fun x => (x < 2)%nat) xs0).
  { apply Forall_replace_nth; [apply argmax_lt_2|].
    apply Forall_forall. intros x I. apply repeat_spec in I. lia. }
  assert (Last0 : np_item xs0 (Z.of_nat 0 - 1) = Ok 0%nat).
  { change (Z.of_nat 0 - 1)%Z with (-1)%Z.
    rewrite (np_item_last xs0 0%nat) by (intros K; rewrite K in Len0; simpl in Len0; lia).
    f_equal. unfold xs0. destruct T as [|[|T']]; try lia.
    cbn [repeat replace_nth]. rewrite last_cons_cons.
    clear. induction T' as [|T' IH]; [reflexivity|].
    cbn [repeat] in *. rewrite last_cons_cons. exact IH. }
  set (x := decoded self ys log_mus 0 0).
  destruct (decode_from self ys log_mus F Len (T - 1) 1 (replace_nth 0 x xs0))
    as (xs & Ex & Lenx & _ & Pre & Dec); try (fold T; lia).
  { rewrite replace_nth_length; exact Len0. }
  { apply Forall_replace_nth; [apply argmax_lt_2|exact F0]. }
  exists log_mus, xs. split; [exact Et|]. split.
  - unfold viterbi. rewrite Et. cbn [bind]. fold T.
    change 0%Z with (Z.of_nat 0).
    rewrite (np_item_nat_Ok ys 0 0%Z) by (fold T; lia). cbn [bind].
    rewrite emp_col_observable
      by (rewrite Forall_forall in F; apply F, nth_In; fold T; lia).
    cbn [bind].
    rewrite (np_item_nat_Ok log_mus 0 (NegInf, NegInf)) by lia. cbn [bind].
    rewrite np_setitem_nat_Ok by (rewrite repeat_length; lia). cbn [bind].
    fold x0. fold xs0.
    replace (seq 0 T) with (0%nat :: seq 1 (T - 1))
      by (destruct T; [lia|]; cbn [seq]; repeat f_equal; lia).
    cbn [foldM].
    rewrite (decode_step_at self ys log_mus F Len xs0 0 0) by (fold T; lia || exact Last0).
    cbn [bind]. exact Ex.
  - split; [exact Len|]. split; [exact Lenx|]. split.
    + rewrite (np_item_last log_mus (NegInf, NegInf)), La; [reflexivity|].
      intros K. rewrite K in Len. simpl in Len. fold T in Len. lia.
    + split; [exact Rec|]. split.
      * rewrite Pre by lia. apply nth_replace_nth_same. lia.
      * intros t Lt. apply Dec. fold T. lia.
Qed.

(** ** The path of [viterbi] is a most likely path from the bear state *)

Lemma skipn_nth {A : Type} (t : nat) (l : list A) (d : A) :
  (t < List.length l)%nat -> skipn t l = nth t l d :: skipn (S t) l.
Proof.
  revert t; induction l as [|x l IH]; intros [|t] L; simpl in *; try lia;
    [reflexivity|].
  apply IH. lia.
Qed.


Section Optimal.
Variable self : HMMBB.
Local Open Scope R_scope.





End Optimal.




(** * Further properties of the shortest-path classes *)

(** ** [evaluate_path] on a path cut in two *)

Lemma edge_costs_cons2 (self : problem) (x w : node) (rest : list node) :
  edge_costs self (x :: w :: rest)
  = (d <- getitem (dag self) x ;;
     c <- getitem d w ;;
     cs <- edge_costs self (w :: rest) ;; Ok (c :: cs))%outcome.
Proof. reflexivity. Qed.

Lemma edge_costs_app (self : problem) (p : list node) (v : node) (q : list node) :
  edge_costs self (p ++ v :: q)
  = (a <- edge_costs self (p ++ [v]) ;;
     b <- edge_costs self (v :: q) ;; Ok (a ++ b))%outcome.
Proof.
  induction p as [|x p IH].
  - simpl app. remember (edge_costs self (v :: q)) as r eqn:Er.
    change (edge_costs self [v]) with (@Ok (list Q) []). cbn [bind app].
    destruct r; reflexivity.
  - assert (H : exists w rest, p ++ v :: q = w :: rest /\
                               exists rest', p ++ [v] = w :: rest').
    { destruct p as [|w p]; simpl; eauto. }
    destruct H as (w & rest & E & rest' & E').
    change ((x :: p) ++ v :: q) with (x :: (p ++ v :: q)).
    change ((x :: p) ++ [v]) with (x :: (p ++ [v])).
    rewrite E, E', !edge_costs_cons2. rewrite <- E, <- E', IH.
    destruct (getitem (dag self) x) as [d| |]; cbn [bind]; try reflexivity.
    destruct (getitem d w) as [c| |]; cbn [bind]; try reflexivity.
    destruct (edge_costs self (p ++ [v])) as [a| |]; cbn [bind]; try reflexivity.
    destruct (edge_costs self (v :: q)) as [b| |]; cbn [bind]; reflexivity.
Qed.

(** Sums of ints. *)
Lemma Qplus_int (x y : Q) :
  Qden x = 1%positive -> Qden y = 1%positive ->
  (x + y)%Q = (Qnum x + Qnum y # 1)%Q.
Proof.
  destruct x as [a m], y as [b n]. simpl. intros -> ->.
  unfold Qplus. simpl. f_equal. lia.
Qed.

Lemma fold_Qplus_int (l : list Q) (z : Z) :
  Forall (fun c => Qden c = 1%positive) l ->
  fold_left Qplus l (z # 1)%Q = (fold_left (fun n c => n + Qnum c)%Z l z # 1)%Q.
Proof.
  revert z; induction l as [|c l IH]; intros z F; [reflexivity|].
  inversion F as [|? ? Ic Fl]; subst. cbn [fold_left].
  rewrite (Qplus_int (z # 1) c eq_refl Ic). apply IH. exact Fl.
Qed.

Lemma fold_Zplus_shift (l : list Q) (z : Z) :
  (fold_left (fun n c => n + Qnum c) l z = z + fold_left (fun n c => n + Qnum c) l 0)%Z.
Proof.
  revert z; induction l as [|c l IH]; intros z; cbn [fold_left]; [lia|].
  rewrite (IH (z + Qnum c)%Z), (IH (0 + Qnum c)%Z). lia.
Qed.

Lemma py_sum_int (l : list Q) :
  Forall (fun c => Qden c = 1%positive) l ->
  py_sum l = (fold_left (fun n c => n + Qnum c)%Z l 0%Z # 1)%Q.
Proof. intros F. unfold py_sum. apply (fold_Qplus_int l 0 F). Qed.

Lemma edge_costs_int (self : problem) (p : list node) :
  int_costs self ->
  forall cs, edge_costs self p = Ok cs -> Forall (fun c => Qden c = 1%positive) cs.
Proof.
  intros Ints. induction p as [|x p IH]; intros cs E.
  - injection E as <-. constructor.
  - destruct p as [|w p].
    + injection E as <-. constructor.
    + rewrite edge_costs_cons2 in E.
      destruct (getitem (dag self) x) as [d| |] eqn:Gd; cbn [bind] in E;
        try discriminate.
      destruct (getitem d w) as [c| |] eqn:Gc; cbn [bind] in E; try discriminate.
      destruct (edge_costs self (w :: p)) as [cs'| |]; cbn [bind] in E;
        try discriminate.
      injection E as <-. constructor.
      * apply (Ints x w c). exists d. split; assumption.
      * apply IH. reflexivity.
Qed.

(** X3.  With int costs, the cost of a path cut at one of its vertices is
    the sum of the costs of the two pieces, and all three are ints:
    [evaluate_path] returns on the whole path exactly when it returns on the
    piece up to the vertex and on the piece from it. *)
Theorem evaluate_path_of_two_pieces (self : problem) (p : list node) (v : node)
  (q : list node) :
  int_costs self ->
  (forall c, evaluate_path self (p ++ v :: q) = Ok c ->
     exists a b,
       evaluate_path self (p ++ [v]) = Ok a /\
       evaluate_path self (v :: q) = Ok b /\
       c = (a + b)%Q /\ Qden c = 1%positive) /\
  (forall a b,
     evaluate_path self (p ++ [v]) = Ok a ->
     evaluate_path self (v :: q) = Ok b ->
     evaluate_path self (p ++ v :: q) = Ok (a + b)%Q /\
     Qden (a + b)%Q = 1%positive).
Proof.
  intros Ints.
  assert (Sum : forall a b,
            edge_costs self (p ++ [v]) = Ok a -> edge_costs self (v :: q) = Ok b ->
            py_sum (a ++ b) = (py_sum a + py_sum b)%Q /\
            Qden (py_sum (a ++ b)) = 1%positive).
  { intros a b Ea Eb.
    pose proof (edge_costs_int self _ Ints a Ea) as Fa.
    pose proof (edge_costs_int self _ Ints b Eb) as Fb.
    assert (Fab : Forall (fun c => Qden c = 1%positive) (a ++ b))
      by (apply Forall_app; split; assumption).
    rewrite (py_sum_int _ Fab), (py_sum_int _ Fa), (py_sum_int _ Fb).
    split; [|reflexivity].
    set (za := fold_left (fun n c => (n + Qnum c)%Z) a 0%Z).
    set (zb := fold_left (fun n c => (n + Qnum c)%Z) b 0%Z).
    rewrite (Qplus_int (za # 1) (zb # 1) eq_refl eq_refl). cbn [Qnum].
    rewrite fold_left_app. fold za. rewrite fold_Zplus_shift. reflexivity. }
  unfold evaluate_path. rewrite edge_costs_app.
  destruct (edge_costs self (p ++ [v])) as [a| |]; cbn [bind];
    try (split; intros; discriminate).
  destruct (edge_costs self (v :: q)) as [b| |]; cbn [bind];
    try (split; intros; discriminate).
  destruct (Sum a b eq_refl eq_refl) as [S D].
  split.
  - intros c [= <-]. exists (py_sum a), (py_sum b).
    split; [reflexivity|]. split; [reflexivity|]. split; assumption.
  - intros a' b' [= <-] [= <-]. rewrite <- S. split; [reflexivity|exact D].
Qed.

(** ** The path of [find_shortest_path], whatever the cost function *)

Lemma best_action_In (self : problem) (cnode : node) (J : dict node Q)
  (actions : list node) (w : node) :
  best_action self cnode J actions = Ok w -> In w actions.
Proof.
  unfold best_action. destruct actions as [|a0 actions']; [discriminate|].
  cbn [first_item bind]. set (actions := a0 :: actions').
  assert (G : forall l st st',
             (forall x, In x l -> In x actions) -> In (fst st) actions ->
             foldM (fun st w =>
                      J_v <- eval_action self cnode w J ;;
                      if Qltb J_v (snd st) then Ok (w, J_v) else Ok st)%outcome
                   l st = Ok st' -> In (fst st') actions).
  { induction l as [|x l IH]; intros st st' Sub I E.
    - injection E as <-. exact I.
    - cbn [foldM] in E.
      destruct (eval_action self cnode x J) as [jv| |]; cbn [bind] in E;
        try discriminate.
      destruct (Qltb jv (snd st)).
      + cbn [bind] in E. apply (IH _ _ (fun y Iy => Sub y (or_intror Iy))) in E;
          [exact E|]. apply Sub. left; reflexivity.
      + cbn [bind] in E. apply (IH _ _ (fun y Iy => Sub y (or_intror Iy))) in E;
          [exact E|exact I]. }
  destruct (foldM _ actions (a0, min_cost_start)) as [[o m]| |] eqn:E;
    cbn [bind]; try discriminate.
  intros [= <-]. apply G in E; [exact E|auto|left; reflexivity].
Qed.

Lemma path_loop_Ok_route (self : problem) (J : dict node Q) (fuel : nat) :
  forall v pre p,
    path_loop self fuel J v (pre ++ [v]) = Ok p ->
    exists r, p = pre ++ r /\ route self v r.
Proof.
  induction fuel as [|fuel IH]; intros v pre p E; cbn [path_loop] in E;
    destruct (is_at_end self v) eqn:T; try discriminate.
  - injection E as <-. apply is_at_end_true in T. subst v.
    exists [terminal self]. split; [reflexivity|constructor].
  - injection E as <-. apply is_at_end_true in T. subst v.
    exists [terminal self]. split; [reflexivity|constructor].
  - apply is_at_end_false in T.
    unfold available_actions in E.
    rewrite (proj2 (is_at_end_false self v) T) in E.
    destruct (getitem (dag self) v) as [d| |] eqn:Ed; cbn [bind] in E;
      try discriminate.
    destruct (best_action self v J (keys d)) as [w| |] eqn:Eb; cbn [bind] in E;
      try discriminate.
    apply best_action_In in Eb. destruct (keys_getitem _ _ Eb) as [c Ec].
    apply (IH w (pre ++ [v])) in E. destruct E as (r & -> & R).
    exists (v :: r). split; [rewrite <- app_assoc; reflexivity|].
    apply (route_step self v w c); [exact T| |exact R].
    exists d. split; assumption.
Qed.

(** X4.  Whatever dictionary [J] it is given, a path that
    [find_shortest_path] returns starts at the start vertex, follows edges of
    the cost dictionary and stops the first time it is at the terminal; so
    [evaluate_path] returns its cost. *)
Theorem find_shortest_path_returns_a_route (self : problem) (fuel : nat)
  (J : dict node Q) (cpath : list node) :
  find_shortest_path self fuel J = Ok cpath ->
  route self (vertex self) cpath /\
  exists c, evaluate_path self cpath = Ok c.
Proof.
  unfold find_shortest_path. intros E.
  apply (path_loop_Ok_route self J fuel (vertex self) []) in E.
  destruct E as (r & -> & R). split; [exact R|].
  exists (pcost self r). apply (route_evaluate self _ _ R).
Qed.

(** ** Degenerate starts and dead ends *)

Lemma getitem_missing {K V : Type} `{Key K} (d : dict K V) (k : K) :
  ~ In k (keys d) -> getitem d k = Raised KeyError.
Proof.
  induction d as [|[k' v] d IH]; intros N; [reflexivity|].
  cbn [getitem]. rewrite keyb_neq by (intros ->; apply N; left; reflexivity).
  apply IH. intros I. apply N. right; exact I.
Qed.

Lemma keys_fold_setitem {K V : Type} `{Key K} (l : list (K * V)) :
  forall (acc : dict K V) (k : K),
    In k (keys (fold_left (fun d kv => setitem d (fst kv) (snd kv)) l acc))
    <-> In k (keys acc) \/ In k (map fst l).
Proof.
  induction l as [|[k0 v0] l IH]; intros acc k; cbn [fold_left map fst snd].
  - cbn [In]. tauto.
  - rewrite IH, In_keys_setitem. cbn [In]. intuition congruence.
Qed.

Lemma keys_dict_of {K V : Type} `{Key K} (l : list (K * V)) (k : K) :
  In k (keys (dict_of l)) <-> In k (map fst l).
Proof.
  unfold dict_of. rewrite keys_fold_setitem. cbn [keys map In]. tauto.
Qed.

(** The dictionary of the actions left, as [traverse_paths] builds it. *)
Lemma traverse_paths_start (self : problem) (fuel : nat) :
  traverse_paths self fuel
  = traverse_loop self fuel
      {| t_actions := dict_of (map (fun k => (k, full self k)) (keys (dag self)));
         t_cnode := vertex self; t_cpath := [vertex self]; t_costs := [] |}.
Proof.
  unfold traverse_paths.
  rewrite (mapM_total _ (fun k => (k, full self k))); [reflexivity|].
  intros k I. rewrite (available_actions_full self k I). reflexivity.
Qed.

Lemma keys_actions_left (self : problem) (k : node) :
  In k (keys (dict_of (map (fun k => (k, full self k)) (keys (dag self)))))
  <-> In k (keys (dag self)).
Proof.
  rewrite keys_dict_of, map_map. cbn [fst]. rewrite map_id. tauto.
Qed.

(** X5.  When the start vertex has no entry in the cost dictionary, the
    brute-force solver raises [KeyError] at its first look at the actions
    left; the dynamic-programming [find_shortest_path] does the same unless
    the start vertex is the terminal. *)
Theorem start_vertex_without_entry (self : problem) (fuel : nat) :
  ~ In (vertex self) (keys (dag self)) ->
  traverse_paths self (S fuel) = Raised KeyError /\
  find_shortest_paths self (S fuel) = Raised KeyError /\
  (vertex self <> terminal self ->
   forall J, find_shortest_path self (S fuel) J = Raised KeyError).
Proof.
  intros N.
  assert (E : traverse_paths self (S fuel) = Raised KeyError).
  { rewrite traverse_paths_start. cbn [traverse_loop t_cpath].
    unfold traverse_step. cbn [t_actions t_cnode].
    rewrite getitem_missing; [reflexivity|].
    rewrite keys_actions_left. exact N. }
  split; [exact E|]. split.
  - unfold find_shortest_paths. rewrite E. reflexivity.
  - intros T J. unfold find_shortest_path. cbn [path_loop].
    rewrite (proj2 (is_at_end_false self _) T).
    unfold available_actions. rewrite (proj2 (is_at_end_false self _) T).
    rewrite getitem_missing by exact N. reflexivity.
Qed.

(** X6.  When the start vertex is the terminal (and has an entry), the
    brute-force solver records the path of that one vertex and then raises
    [IndexError] in [step_back_path], which looks at the last vertex of an
    empty path; the dynamic-programming [find_shortest_path] returns the
    path of that one vertex. *)
Theorem start_vertex_is_terminal (self : problem) (fuel : nat) :
  vertex self = terminal self -> In (vertex self) (keys (dag self)) ->
  step_back_path [vertex self] = Raised IndexError /\
  traverse_paths self (S fuel) = Raised IndexError /\
  find_shortest_paths self (S fuel) = Raised IndexError /\
  forall J, find_shortest_path self fuel J = Ok [vertex self].
Proof.
  intros T I.
  assert (E : traverse_paths self (S fuel) = Raised IndexError).
  { rewrite traverse_paths_start. cbn [traverse_loop t_cpath].
    unfold traverse_step. cbn [t_actions t_cnode t_cpath t_costs].
    destruct (keys_getitem _ _ (proj2 (keys_actions_left self _) I)) as [a Ea].
    rewrite Ea. cbn [bind].
    rewrite (proj2 (is_at_end_true self _) T). reflexivity. }
  split; [reflexivity|]. split; [exact E|]. split.
  - unfold find_shortest_paths. rewrite E. reflexivity.
  - intros J. unfold find_shortest_path.
    destruct fuel; cbn [path_loop]; rewrite (proj2 (is_at_end_true self _) T);
      reflexivity.
Qed.

Lemma bellman_dead_end (self : problem) (v : node) (J : dict node Q) :
  v <> terminal self -> getitem (dag self) v = Ok [] ->
  bellman_equation self v J = Raised ValueError.
Proof.
  intros T E. unfold bellman_equation.
  rewrite (proj2 (String.eqb_neq _ _) T).
  rewrite (available_actions_inner self v [] T E). reflexivity.
Qed.

Lemma sweep_dead_end (self : problem) (format : dag_format self)
  (J : dict node Q) (C : covers self J) (v : node) :
  v <> terminal self -> getitem (dag self) v = Ok [] ->
  forall l acc,
    (forall x, In x l -> In x (keys (dag self))) -> In v l ->
    foldM (fun J' node => c <- bellman_equation self node J ;;
                          Ok (setitem J' node c))%outcome l acc
    = Raised ValueError.
Proof.
  intros T E. induction l as [|x l IH]; intros acc Sub I; [contradiction|].
  cbn [foldM].
  destruct (String.eqb x (terminal self)) eqn:Tx.
  - apply String.eqb_eq in Tx. subst x. rewrite bellman_terminal. cbn [bind].
    apply IH; [intros y Iy; apply Sub; right; exact Iy|].
    destruct I as [Ev|I]; [congruence|exact I].
  - apply String.eqb_neq in Tx.
    destruct (keys_getitem _ _ (Sub x (or_introl eq_refl))) as [d Ed].
    destruct d as [|[w c] d].
    + rewrite (bellman_dead_end self x J Tx Ed). reflexivity.
    + destruct (bellman_inner self format x _ J Tx Ed) as (m & Em & _);
        [discriminate|exact C|].
      rewrite Em. cbn [bind].
      apply IH; [intros y Iy; apply Sub; right; exact Iy|].
      destruct I as [Ev|I]; [congruence|exact I].
Qed.

(** X7.  A vertex other than the terminal that has an entry without
    actions (a dead end) makes [find_cost_function] raise [ValueError] in its
    first sweep, from the [min] of no values in [bellman_equation], wherever
    the vertex lies in the graph. *)
Theorem dead_end_raises_ValueError (self : problem) (v : node) (fuel : nat) :
  dag_format self -> v <> terminal self -> getitem (dag self) v = Ok [] ->
  (forall J, bellman_equation self v J = Raised ValueError) /\
  find_cost_function self (S fuel) = Raised ValueError.
Proof.
  intros format T E. split; [intros J; apply bellman_dead_end; assumption|].
  unfold find_cost_function.
  pose proof (format_keys _ format) as ND.
  rewrite !dict_of_NoDup by (rewrite map_map; simpl; rewrite map_id; exact ND).
  set (J100 := map (fun v => (v, 100%Q)) (keys (dag self))).
  set (J0 := map (fun v => (v, 0%Q)) (keys (dag self))).
  assert (C100 : covers self J100) by apply keys_map_pair.
  assert (C0 : covers self J0) by apply keys_map_pair.
  assert (I : In v (keys (dag self))) by (eapply getitem_keys; exact E).
  assert (NE : keys (dag self) <> []) by (intros K; rewrite K in I; exact I).
  destruct (compare_J_spec self J100 J0 C100 C0 NE) as (d & Ed & _ & Ld).
  assert (L : Qltb tolerance d = true).
  { apply Qltb_true. specialize (Ld v I). unfold J100, J0 in Ld.
    rewrite !jval_const in Ld by exact I.
    eapply Qlt_le_trans; [|exact Ld]. reflexivity. }
  cbn [cost_loop]. rewrite Ed. cbn [bind]. rewrite L.
  unfold cost_sweep.
  rewrite (update_same_keys J100 J0) by (unfold covers in *; congruence || (rewrite C100; exact ND)).
  rewrite (sweep_dead_end self format J0 C0 v T E); [reflexivity|auto|exact I].
Qed.

(** ** [compare_J] as a distance, and the Bellman equation under it *)

Lemma mapM_ext_in {A B : Type} (f g : A -> outcome B) (l : list A) :
  (forall x, In x l -> f x = g x) -> mapM f l = mapM g l.
Proof.
  induction l as [|x l IH]; intros E; [reflexivity|].
  cbn [mapM]. rewrite (E x (or_introl eq_refl)).
  rewrite IH by (intros y I; apply E; right; exact I). reflexivity.
Qed.

Lemma mapM_Ok_In {A B : Type} (f : A -> outcome B) (l : list A) (ys : list B) :
  mapM f l = Ok ys -> forall x, In x l -> exists y, f x = Ok y.
Proof.
  revert ys; induction l as [|a l IH]; intros ys E x I; [destruct I|].
  cbn [mapM] in E. destruct (f a) as [y| |] eqn:Ea; cbn [bind] in E;
    try discriminate.
  destruct (mapM f l) as [ys'| |]; cbn [bind] in E; try discriminate.
  destruct I as [<-|I]; [eauto|]. apply (IH ys' eq_refl x I).
Qed.

(** [compare_J] and [bellman_equation] read a cost function only at the
    vertices of the cost dictionary. *)
Lemma getitem_restrict (self : problem) (J : dict node Q) (v : node) (x : Q) :
  In v (keys (dag self)) -> getitem J v = Ok x ->
  getitem (restrict self J) v = Ok x.
Proof.
  intros I G. unfold restrict. rewrite (getitem_map_pair (jval J)) by exact I.
  unfold jval. rewrite G. reflexivity.
Qed.

Lemma jval_restrict (self : problem) (J : dict node Q) (v : node) (x : Q) :
  In v (keys (dag self)) -> getitem J v = Ok x -> jval (restrict self J) v = x.
Proof.
  intros I G. unfold jval at 1. rewrite (getitem_restrict self J v x I G). reflexivity.
Qed.

Lemma covers_restrict (self : problem) (J : dict node Q) :
  covers self (restrict self J).
Proof. apply keys_map_pair. Qed.

Lemma compare_J_entries (self : problem) (A B : dict node Q) (d : Q) :
  compare_J self A B = Ok d ->
  forall v, In v (keys (dag self)) ->
    exists a b, getitem A v = Ok a /\ getitem B v = Ok b.
Proof.
  unfold compare_J. intros E v I.
  destruct (mapM _ (keys (dag self))) as [ds| |] eqn:M; cbn [bind] in E;
    try discriminate.
  destruct (mapM_Ok_In _ _ _ M v I) as [y Ey].
  destruct (getitem A v) as [a| |]; cbn [bind] in Ey; try discriminate.
  destruct (getitem B v) as [b| |]; cbn [bind] in Ey; try discriminate.
  eauto.
Qed.

Lemma compare_J_restrict (self : problem) (A B : dict node Q) :
  (forall v, In v (keys (dag self)) ->
     exists a b, getitem A v = Ok a /\ getitem B v = Ok b) ->
  compare_J self A B = compare_J self (restrict self A) (restrict self B).
Proof.
  intros En. unfold compare_J. f_equal. apply mapM_ext_in. intros v I.
  destruct (En v I) as (a & b & Ga & Gb).
  rewrite Ga, Gb, (getitem_restrict self A v a I Ga),
    (getitem_restrict self B v b I Gb). reflexivity.
Qed.

Lemma eval_action_restrict (self : problem) (v w : node) (J : dict node Q) (x : Q) :
  dag_format self -> eval_action self v w J = Ok x ->
  eval_action self v w (restrict self J) = Ok x /\
  exists c j, edge self v w c /\ getitem J w = Ok j /\ x = (c + j)%Q.
Proof.
  intros format E. unfold eval_action in *.
  destruct (getitem (dag self) v) as [d| |] eqn:Gd; cbn [bind] in *;
    try discriminate.
  destruct (getitem d w) as [c| |] eqn:Gc; cbn [bind] in *; try discriminate.
  destruct (getitem J w) as [j| |] eqn:Gj; cbn [bind] in *; try discriminate.
  assert (Ed : edge self v w c) by (exists d; split; assumption).
  rewrite (getitem_restrict self J w j (format_closed _ format v w c Ed) Gj).
  split; [exact E|]. injection E as <-. exists c, j. auto.
Qed.

Lemma foldM_eval_restrict (self : problem) (v : node) (J : dict node Q)
  (actions : list node) :
  dag_format self ->
  forall acc r,
    foldM (fun J_np1 w => c <- eval_action self v w J ;; Ok (setitem J_np1 w c))
          actions acc = Ok r ->
    foldM (fun J_np1 w => c <- eval_action self v w (restrict self J) ;;
                          Ok (setitem J_np1 w c))
          actions acc = Ok r /\
    forall w, In w actions -> exists x, eval_action self v w J = Ok x.
Proof.
  intros format. induction actions as [|w l IH]; intros acc r E.
  - split; [exact E|]. intros w [].
  - cbn [foldM] in *.
    destruct (eval_action self v w J) as [x| |] eqn:Ex; cbn [bind] in *;
      try discriminate.
    destruct (eval_action_restrict self v w J x format Ex) as [-> _].
    cbn [bind]. destruct (IH _ _ E) as [E' En]. split; [exact E'|].
    intros w' [<-|I]; [eauto|apply En; exact I].
Qed.

Lemma bellman_restrict (self : problem) (v : node) (J : dict node Q) (x : Q) :
  dag_format self -> bellman_equation self v J = Ok x ->
  bellman_equation self v (restrict self J) = Ok x /\
  (v <> terminal self ->
   forall w c, edge self v w c -> exists j, getitem J w = Ok j).
Proof.
  intros format E. unfold bellman_equation in *.
  destruct (String.eqb v (terminal self)) eqn:T.
  - split; [exact E|]. apply String.eqb_eq in T. congruence.
  - destruct (available_actions self v) as [actions| |] eqn:Ea; cbn [bind] in *;
      try discriminate.
    match type of E with
    | bind ?m _ = _ => destruct m as [r| |] eqn:Ef; cbn [bind] in E;
                       try discriminate
    end.
    destruct (foldM_eval_restrict self v J actions format [] r Ef) as [-> En].
    cbn [bind]. split; [exact E|].
    intros _ w c (d & Gd & Gc).
    unfold available_actions, is_at_end in Ea. rewrite T, Gd in Ea.
    cbn [bind] in Ea. injection Ea as <-.
    destruct (En w (getitem_keys _ _ _ Gc)) as [y Ey].
    destruct (eval_action_restrict self v w J y format Ey) as (_ & c' & j & _ & Gj & _).
    eauto.
Qed.

(** X8.  On cost functions with int entries, [compare_J] is a distance.
    When it returns on [J1], [J2] and on [J2], [J3], it returns on [J2], [J1]
    and on [J1], [J3]; what it returns is an int, not negative, the same in
    both orders, zero exactly when the two cost functions agree at every
    vertex of the cost dictionary, a bound on their difference at every
    vertex, and it satisfies the triangle inequality. *)
Theorem compare_J_is_a_distance (self : problem) (J1 J2 J3 : dict node Q)
  (d12 d23 : Q) :
  int_table J1 -> int_table J2 -> int_table J3 ->
  compare_J self J1 J2 = Ok d12 -> compare_J self J2 J3 = Ok d23 ->
  exists d21 d13,
    compare_J self J2 J1 = Ok d21 /\ compare_J self J1 J3 = Ok d13 /\
    Qden d12 = 1%positive /\
    (0 <= d12)%Q /\ (d21 == d12)%Q /\ (d13 <= d12 + d23)%Q /\
    (forall v a b, In v (keys (dag self)) ->
       getitem J1 v = Ok a -> getitem J2 v = Ok b -> (Qabs (a - b) <= d12)%Q) /\
    ((d12 == 0)%Q <->
     forall v a b, In v (keys (dag self)) ->
       getitem J1 v = Ok a -> getitem J2 v = Ok b -> (a == b)%Q).
Proof.
  intros Int1 Int2 Int3 E12 E23.
  pose proof (compare_J_entries self J1 J2 d12 E12) as En12.
  pose proof (compare_J_entries self J2 J3 d23 E23) as En23.
  assert (En21 : forall v, In v (keys (dag self)) ->
                   exists a b, getitem J2 v = Ok a /\ getitem J1 v = Ok b).
  { intros v I. destruct (En12 v I) as (a & b & Ga & Gb). eauto. }
  assert (En13 : forall v, In v (keys (dag self)) ->
                   exists a b, getitem J1 v = Ok a /\ getitem J3 v = Ok b).
  { intros v I. destruct (En12 v I) as (a & _ & Ga & _).
    destruct (En23 v I) as (_ & b & _ & Gb). eauto. }
  assert (NE : keys (dag self) <> []).
  { intros K. unfold compare_J in E12. rewrite K in E12. discriminate. }
  set (R1 := restrict self J1). set (R2 := restrict self J2).
  set (R3 := restrict self J3).
  assert (V1 : forall v a, In v (keys (dag self)) -> getitem J1 v = Ok a ->
                           jval R1 v = a) by (intros; apply jval_restrict; assumption).
  assert (V2 : forall v a, In v (keys (dag self)) -> getitem J2 v = Ok a ->
                           jval R2 v = a) by (intros; apply jval_restrict; assumption).
  pose proof (covers_restrict self J1) as C1.
  pose proof (covers_restrict self J2) as C2.
  pose proof (covers_restrict self J3) as C3.
  destruct (compare_J_spec self R1 R2 C1 C2 NE) as (x12 & X12 & (v12 & I12 & A12) & L12).
  destruct (compare_J_spec self R2 R1 C2 C1 NE) as (d21 & E21 & (v21 & I21 & A21) & L21).
  destruct (compare_J_spec self R2 R3 C2 C3 NE) as (x23 & X23 & _ & L23).
  destruct (compare_J_spec self R1 R3 C1 C3 NE) as (d13 & E13 & (v13 & I13 & A13) & _).
  unfold R1, R2, R3 in X12, E21, X23, E13.
  rewrite <- (compare_J_restrict self J1 J2 En12), E12 in X12. injection X12 as <-.
  rewrite <- (compare_J_restrict self J2 J3 En23), E23 in X23. injection X23 as <-.
  rewrite <- (compare_J_restrict self J2 J1 En21) in E21.
  rewrite <- (compare_J_restrict self J1 J3 En13) in E13.
  exists d21, d13. split; [exact E21|]. split; [exact E13|].
  assert (Sym : forall a b : Q, (Qabs (a - b) == Qabs (b - a))%Q).
  { intros a b. rewrite <- (Qabs_opp (a - b)). apply Qabs_wd. ring. }
  split.
  { destruct (En12 v12 I12) as (a & b & Ga & Gb).
    rewrite A12, (V1 v12 a I12 Ga), (V2 v12 b I12 Gb).
    pose proof (Int1 v12 a Ga) as Da. pose proof (Int2 v12 b Gb) as Db.
    destruct a as [na ma], b as [nb mb]. simpl in Da, Db. subst ma mb.
    reflexivity. }
  split; [rewrite A12; apply Qabs_nonneg|].
  split.
  { apply Qle_antisym.
    - rewrite A21, <- Sym. apply L12. exact I21.
    - rewrite A12, Sym. apply L21. exact I12. }
  split.
  { rewrite A13.
    setoid_replace (jval R1 v13 - jval R3 v13)%Q
      with ((jval R1 v13 - jval R2 v13) + (jval R2 v13 - jval R3 v13))%Q by ring.
    eapply Qle_trans; [apply Qabs_triangle|].
    apply Qplus_le_compat; [apply L12|apply L23]; exact I13. }
  split.
  { intros v a b I Ga Gb. rewrite <- (V1 v a I Ga), <- (V2 v b I Gb).
    apply L12. exact I. }
  split.
  - intros Z v a b I Ga Gb. specialize (L12 v I).
    rewrite (V1 v a I Ga), (V2 v b I Gb), Z in L12.
    apply Qabs_Qle_condition in L12. destruct L12 as [La Lb]. lra.
  - intros A. rewrite A12.
    destruct (En12 v12 I12) as (a & b & Ga & Gb).
    rewrite (V1 v12 a I12 Ga), (V2 v12 b I12 Gb), (A v12 a b I12 Ga Gb).
    setoid_replace (b - b)%Q with 0%Q by ring. reflexivity.
Qed.

Lemma bellman_Ok_actions (self : problem) (v : node) (J : dict node Q) (x : Q) :
  v <> terminal self -> bellman_equation self v J = Ok x ->
  exists d, getitem (dag self) v = Ok d /\ keys d <> [].
Proof.
  intros T E.
  destruct (getitem (dag self) v) as [d| |] eqn:Ed.
  - exists d. split; [reflexivity|]. intros K. destruct d; [|discriminate].
    rewrite (bellman_dead_end self v J T Ed) in E. discriminate.
  - unfold bellman_equation, available_actions, is_at_end in E.
    rewrite (proj2 (String.eqb_neq _ _) T), Ed in E. discriminate.
  - unfold bellman_equation, available_actions, is_at_end in E.
    rewrite (proj2 (String.eqb_neq _ _) T), Ed in E. discriminate.
Qed.

(** The values of [bellman_equation] at a vertex other than the terminal
    under two cost functions, each with the action that attains it. *)
Lemma bellman_compare (self : problem) (v : node) (J J' : dict node Q) (x x' : Q) :
  dag_format self -> covers self J -> covers self J' ->
  v <> terminal self ->
  bellman_equation self v J = Ok x -> bellman_equation self v J' = Ok x' ->
  exists w1 w2 c1 c2,
    edge self v w1 c1 /\ edge self v w2 c2 /\
    x = (c1 + jval J w1)%Q /\ x' = (c2 + jval J' w2)%Q /\
    (x <= c2 + jval J w2)%Q /\ (x' <= c1 + jval J' w1)%Q.
Proof.
  intros format C C' T E E'.
  destruct (bellman_Ok_actions self v J x T E) as (dd & Edd & NEd).
  destruct (bellman_inner self format v dd J T Edd NEd C)
    as (m & Em & (w1 & c1 & G1 & A1) & L1).
  destruct (bellman_inner self format v dd J' T Edd NEd C')
    as (m' & Em' & (w2 & c2 & G2 & A2) & L2).
  rewrite E in Em. injection Em as <-. rewrite E' in Em'. injection Em' as <-.
  exists w1, w2, c1, c2.
  split; [exists dd; split; assumption|].
  split; [exists dd; split; assumption|].
  split; [exact A1|]. split; [exact A2|].
  split; [apply (L1 w2 c2 G2)|apply (L2 w1 c1 G1)].
Qed.

(** X9.  With int costs and cost functions with int entries,
    [bellman_equation] is monotone in the cost function, and it does not
    move two cost functions apart: where it returns for both, the value is an
    int, the values are in the order of the cost functions, and they differ
    by at most what [compare_J] returns for the two cost functions. *)
Theorem bellman_equation_is_monotone_and_nonexpansive (self : problem)
  (v : node) (J J' : dict node Q) (x x' : Q) :
  dag_format self -> int_costs self -> int_table J -> int_table J' ->
  bellman_equation self v J = Ok x -> bellman_equation self v J' = Ok x' ->
  Qden x = 1%positive /\
  ((forall w a b, getitem J w = Ok a -> getitem J' w = Ok b -> (a <= b)%Q) ->
   (x <= x')%Q) /\
  (forall d, compare_J self J J' = Ok d -> (Qabs (x - x') <= d)%Q).
Proof.
  intros format Ints IntJ IntJ' E E'.
  destruct (bellman_restrict self v J x format E) as [Er En].
  destruct (bellman_restrict self v J' x' format E') as [Er' En'].
  pose proof (covers_restrict self J) as C.
  pose proof (covers_restrict self J') as C'.
  destruct (String.eqb v (terminal self)) eqn:T.
  - apply String.eqb_eq in T. subst v. rewrite bellman_terminal in E, E'.
    injection E as <-. injection E' as <-.
    split; [reflexivity|]. split.
    + intros _. apply Qle_refl.
    + intros d Ed.
      pose proof (compare_J_entries self J J' d Ed) as Ens.
      rewrite (compare_J_restrict self J J' Ens) in Ed.
      assert (NE : keys (dag self) <> []).
      { intros K. unfold compare_J in Ed. rewrite K in Ed. discriminate. }
      destruct (compare_J_spec self _ _ C C' NE) as (d0 & Ed0 & (v0 & _ & A0) & _).
      rewrite Ed in Ed0. injection Ed0 as ->.
      setoid_replace (0 - 0)%Q with 0%Q by ring. rewrite A0. apply Qabs_nonneg.
  - apply String.eqb_neq in T.
    destruct (bellman_compare self v _ _ x x' format C C' T Er Er')
      as (w1 & w2 & c1 & c2 & D1 & D2 & A1 & A2 & U1 & U2).
    pose proof (format_closed _ format v w1 c1 D1) as I1.
    pose proof (format_closed _ format v w2 c2 D2) as I2.
    destruct (En T w1 c1 D1) as [j1 G1]. destruct (En T w2 c2 D2) as [j2 G2].
    destruct (En' T w1 c1 D1) as [j1' G1']. destruct (En' T w2 c2 D2) as [j2' G2'].
    rewrite (jval_restrict self J w1 j1 I1 G1) in A1.
    rewrite (jval_restrict self J w2 j2 I2 G2) in U1.
    rewrite (jval_restrict self J' w2 j2' I2 G2') in A2.
    rewrite (jval_restrict self J' w1 j1' I1 G1') in U2.
    split.
    { rewrite A1, (Qplus_int c1 j1 (Ints v w1 c1 D1) (IntJ w1 j1 G1)). reflexivity. }
    split.
    + intros Le. specialize (Le w2 j2 j2' G2 G2'). rewrite A2. lra.
    + intros d Ed.
      pose proof (compare_J_entries self J J' d Ed) as Ens.
      rewrite (compare_J_restrict self J J' Ens) in Ed.
      assert (NE : keys (dag self) <> []) by (intros K; rewrite K in I1; exact I1).
      destruct (compare_J_spec self _ _ C C' NE) as (d0 & Ed0 & _ & Ld).
      rewrite Ed in Ed0. injection Ed0 as ->.
      pose proof (Ld w1 I1) as B1. pose proof (Ld w2 I2) as B2.
      rewrite (jval_restrict self J w1 j1 I1 G1),
        (jval_restrict self J' w1 j1' I1 G1') in B1.
      rewrite (jval_restrict self J w2 j2 I2 G2),
        (jval_restrict self J' w2 j2' I2 G2') in B2.
      apply Qabs_Qle_condition in B1. apply Qabs_Qle_condition in B2.
      apply Qabs_Qle_condition. rewrite A1 in *. rewrite A2 in *. split; lra.
Qed.

(** ** The cost function of [find_cost_function] *)

Section Bound.
Variable self : problem.
Hypothesis format : dag_format self.
Variable rank : node -> nat.
Hypothesis rank_down : forall v w c, edge self v w c -> (rank w < rank v)%nat.
Hypothesis leaves : forall v, In v (keys (dag self)) -> v <> terminal self ->
  exists w c, edge self v w c.
Variable unit_cost : Q.
Hypothesis unit_above_tolerance : (tolerance < unit_cost)%Q.
Hypothesis costs_on_grid : forall v w c, edge self v w c -> on_grid unit_cost c.
Local Open Scope Q_scope.

(** The loop stops before it has run once more than the largest rank. *)
Lemma loop_converges_within (n : nat) :
  forall (r : nat) (J : dict node Q),
    (forall v, In v (keys (dag self)) -> (rank v < r + n)%nat) ->
    keys (dag self) <> [] ->
    covers self J -> grid_valued self unit_cost J ->
    agree_below self rank r J (sweep self J) ->
    exists J', cost_loop self n J (sweep self J) = Ok J' /\ fixed self J'.
Proof.
  induction n as [|n IH]; intros r J Bound NE C G A;
    destruct (compare_J_spec self J (sweep self J) C (covers_sweep self J) NE)
      as (d & Ed & (v0 & I0 & E0) & Ld);
    destruct (Qltb tolerance d) eqn:T.
  - exfalso. apply Qltb_true in T.
    assert (Z0 : jval J v0 == jval (sweep self J) v0).
    { apply A; [exact I0|]. specialize (Bound v0 I0). lia. }
    assert (D0 : d <= 0).
    { rewrite E0. apply Qabs_Qle_condition. split; lra. }
    assert (0 < tolerance) by reflexivity. lra.
  - exists (sweep self J). split.
    + cbn [cost_loop]. rewrite Ed. cbn [bind]. rewrite T. reflexivity.
    + apply Qltb_false in T.
      apply (fixed_of_close self format leaves unit_cost); try assumption.
      intros v I. eapply Qle_trans; [apply Ld; exact I|exact T].
  - destruct (IH (S r) (sweep self J)) as (J' & EJ & FJ).
    + intros v I. specialize (Bound v I). lia.
    + exact NE.
    + apply covers_sweep.
    + apply (grid_valued_sweep self format leaves unit_cost); assumption.
    + apply (sweep_agree self format rank rank_down leaves);
        [exact C|apply covers_sweep|exact A].
    + exists J'. split; [|exact FJ].
      cbn [cost_loop]. rewrite Ed. cbn [bind]. rewrite T.
      rewrite (cost_sweep_eq self format leaves J (sweep self J) C (covers_sweep self J)).
      cbn [bind]. exact EJ.
  - exists (sweep self J). split.
    + cbn [cost_loop]. rewrite Ed. cbn [bind]. rewrite T. reflexivity.
    + apply Qltb_false in T.
      apply (fixed_of_close self format leaves unit_cost); try assumption.
      intros v I. eapply Qle_trans; [apply Ld; exact I|exact T].
Qed.

Lemma find_cost_function_within (R : nat) :
  (forall v, In v (keys (dag self)) -> (rank v < R)%nat) ->
  keys (dag self) <> [] ->
  exists J, find_cost_function self (S R) = Ok J /\ fixed self J.
Proof.
  intros Bound NE. unfold find_cost_function.
  pose proof (format_keys _ format) as ND.
  rewrite !dict_of_NoDup by (rewrite map_map; simpl; rewrite map_id; exact ND).
  set (J100 := map (fun v => (v, 100)) (keys (dag self))).
  set (J0 := map (fun v => (v, 0)) (keys (dag self))).
  assert (C100 : covers self J100) by apply keys_map_pair.
  assert (C0 : covers self J0) by apply keys_map_pair.
  destruct (compare_J_spec self J100 J0 C100 C0 NE) as (d & Ed & _ & Ld).
  assert (T : Qltb tolerance d = true).
  { apply Qltb_true. destruct (keys (dag self)) as [|v l] eqn:E; [congruence|].
    assert (I : In v (v :: l)) by (left; reflexivity).
    specialize (Ld v I). unfold J100, J0 in Ld.
    rewrite !jval_const in Ld by exact I.
    eapply Qlt_le_trans; [|exact Ld]. reflexivity. }
  destruct (loop_converges_within R 0 J0) as (J' & EJ & FJ); try assumption.
  - intros v I. unfold J0. rewrite jval_const by exact I. apply on_grid_0.
  - intros v I L. lia.
  - exists J'. split; [|exact FJ].
    cbn [cost_loop]. rewrite Ed. cbn [bind]. rewrite T.
    rewrite (cost_sweep_eq self format leaves J100 J0 C100 C0). cbn [bind]. exact EJ.
Qed.

(** A solution of the Bellman equation is the cost of some route. *)
Lemma fixed_attained (J : dict node Q) :
  fixed self J ->
  forall n v, (rank v < n)%nat -> In v (keys (dag self)) ->
    exists p, route self v p /\ pcost self p == jval J v.
Proof.
  intros Fx. induction n as [|n IH]; intros v L I; [lia|].
  destruct (String.eqb v (terminal self)) eqn:T.
  - apply String.eqb_eq in T. subst v. exists [terminal self].
    split; [constructor|]. rewrite pcost_end.
    symmetry. apply (fixed_terminal self J Fx I).
  - apply String.eqb_neq in T.
    destruct (keys_getitem _ _ I) as [d Ed].
    assert (NEd : keys d <> []).
    { destruct (leaves v I T) as (w & c & d' & Ed' & Ew).
      rewrite Ed in Ed'. injection Ed' as <-.
      intros K. apply getitem_keys in Ew. rewrite K in Ew. exact Ew. }
    destruct Fx as [C Sol].
    destruct (bellman_inner self format v d J T Ed NEd C)
      as (m & Em & (w & c & G & A) & _).
    destruct (Sol v I) as (x & Ex & Jx). rewrite Em in Ex. injection Ex as <-.
    assert (Ed' : edge self v w c) by (exists d; split; assumption).
    destruct (IH w) as (p & Rp & Cp).
    + specialize (rank_down v w c Ed'). lia.
    + apply (format_closed _ format v w c Ed').
    + exists (v :: p). split; [apply (route_step self v w c); assumption|].
      rewrite (pcost_step self v w c p T Ed' Rp), Cp, Jx, A. reflexivity.
Qed.

End Bound.

(** X10.  On an acyclic cost dictionary without dead ends whose costs are
    Python ints, [find_cost_function] leaves its loop after at most [R + 1]
    sweeps, where the ranks (a numbering that goes down along every edge) are
    below [R], and the cost function it returns holds at every vertex the
    least cost of a route from that vertex to the terminal. *)
Theorem find_cost_function_gives_least_route_costs (self : problem)
  (rank : node -> nat) (R : nat) :
  dag_format self -> keys (dag self) <> [] ->
  (forall v w c, edge self v w c -> (rank w < rank v)%nat) ->
  (forall v, In v (keys (dag self)) -> (rank v < R)%nat) ->
  (forall v, In v (keys (dag self)) -> v <> terminal self ->
     exists w c, edge self v w c) ->
  int_costs self ->
  exists J,
    (forall fuel, (R < fuel)%nat -> find_cost_function self fuel = Ok J) /\
    keys J = keys (dag self) /\
    forall v, In v (keys (dag self)) ->
      exists x,
        getitem J v = Ok x /\
        (forall p c, route self v p -> evaluate_path self p = Ok c -> (x <= c)%Q) /\
        (exists p c, route self v p /\ evaluate_path self p = Ok c /\ (c == x)%Q).
Proof.
  intros format NE Down Bound Leaves Ints.
  assert (Tol : (tolerance < 1)%Q) by reflexivity.
  pose proof (int_costs_on_grid self Ints) as Grid.
  destruct (find_cost_function_within self format rank Down Leaves 1%Q
              Tol Grid R Bound NE) as (J & EJ & Fx).
  exists J. split.
  { intros fuel L. apply (find_cost_function_fuel self (S R) fuel J EJ). lia. }
  split; [exact (proj1 Fx)|].
  intros v I. exists (jval J v).
  split; [apply (covers_getitem self J v (proj1 Fx) I)|]. split.
  - intros p c Rp Ec. rewrite (route_evaluate self v p Rp) in Ec.
    injection Ec as <-. apply (fixed_lower_bound self format J Fx v p Rp I).
  - destruct (fixed_attained self format rank Down Leaves J Fx (S (rank v)) v)
      as (p & Rp & Cp); [lia|exact I|].
    exists p, (pcost self p). split; [exact Rp|].
    split; [apply (route_evaluate self v p Rp)|exact Cp].
Qed.

(** ** The dictionary of [traverse_paths] and the list of [find_shortest_paths] *)

Lemma NoDup_keys_setitem {K V : Type} `{Key K} (d : dict K V) (k : K) (v : V) :
  NoDup (keys d) -> NoDup (keys (setitem d k v)).
Proof.
  intros ND. destruct (in_dec keyb_dec k (keys d)) as [I|N].
  - rewrite keys_setitem by exact I. exact ND.
  - rewrite setitem_fresh by exact N. unfold keys. rewrite map_app.
    cbn [map fst]. pose proof (NoDup_Add (Add_app k (map fst d) [])) as A.
    rewrite app_nil_r in A. apply A. split; assumption.
Qed.

Lemma traverse_loop_NoDup (self : problem) (fuel : nat) :
  forall s PC,
    traverse_loop self fuel s = Ok PC ->
    NoDup (keys (t_costs s)) -> NoDup (keys PC).
Proof.
  induction fuel as [|fuel IH]; intros s PC E ND; cbn [traverse_loop] in E;
    destruct (t_cpath s) as [|x cp] eqn:Ecp; try discriminate.
  - injection E as <-. exact ND.
  - injection E as <-. exact ND.
  - destruct (traverse_step self s) as [[s'|pc]| |] eqn:Es; cbn [bind] in E;
      try discriminate.
    + apply (IH s' PC E). clear E IH.
      unfold traverse_step in Es.
      destruct (getitem (t_actions s) (t_cnode s)) as [ca| |]; cbn [bind] in Es;
        try discriminate.
      destruct (is_at_end self (t_cnode s)).
      { destruct (evaluate_path self (t_cpath s)) as [c| |]; cbn [bind] in Es;
          try discriminate.
        destruct (step_back_path (t_cpath s)) as [[cn cp']| |]; cbn [bind] in Es;
          try discriminate.
        injection Es as <-. cbn [t_costs]. apply NoDup_keys_setitem. exact ND. }
      destruct ((List.length ca =? 0)%nat && (1 <? List.length (t_cpath s))%nat).
      { destruct (available_actions self (t_cnode s)) as [a| |]; cbn [bind] in Es;
          try discriminate.
        destruct (step_back_path (t_cpath s)) as [[cn cp']| |]; cbn [bind] in Es;
          try discriminate.
        injection Es as <-. exact ND. }
      destruct (0 <? List.length ca)%nat; [|discriminate].
      destruct (last_item ca) as [a| |]; cbn [bind] in Es; try discriminate.
      injection Es as <-. exact ND.
    + injection E as <-. clear IH.
      unfold traverse_step in Es.
      destruct (getitem (t_actions s) (t_cnode s)) as [ca| |]; cbn [bind] in Es;
        try discriminate.
      destruct (is_at_end self (t_cnode s)).
      { destruct (evaluate_path self (t_cpath s)) as [c| |]; cbn [bind] in Es;
          try discriminate.
        destruct (step_back_path (t_cpath s)) as [[cn cp']| |]; cbn [bind] in Es;
          discriminate. }
      destruct ((List.length ca =? 0)%nat && (1 <? List.length (t_cpath s))%nat).
      { destruct (available_actions self (t_cnode s)) as [a| |]; cbn [bind] in Es;
          try discriminate.
        destruct (step_back_path (t_cpath s)) as [[cn cp']| |]; cbn [bind] in Es;
          discriminate. }
      destruct (0 <? List.length ca)%nat.
      { destruct (last_item ca) as [a| |]; cbn [bind] in Es; discriminate. }
      injection Es as <-. exact ND.
Qed.

(** What [traverse_paths] returns on an acyclic cost dictionary. *)
Lemma traverse_paths_table (self : problem) (rank : node -> nat) :
  dag_format self ->
  (forall v w c, edge self v w c -> (rank w < rank v)%nat) ->
  In (vertex self) (keys (dag self)) -> vertex self <> terminal self ->
  exists fuel PC,
    (forall fuel', (fuel <= fuel')%nat -> traverse_paths self fuel' = Ok PC) /\
    NoDup (keys PC) /\
    (forall q, In q (keys PC) <-> route self (vertex self) q) /\
    (forall q c, In (q, c) PC <->
                 route self (vertex self) q /\ evaluate_path self q = Ok c).
Proof.
  intros format Down I T.
  destruct (traverse_paths_routes self format rank Down I T)
    as (fuel & PC & E & Sound & Complete).
  assert (ND : NoDup (keys PC)).
  { pose proof E as E'. rewrite traverse_paths_start in E'.
    apply traverse_loop_NoDup in E'; [exact E'|constructor]. }
  exists fuel, PC. split.
  { intros fuel' L. apply (traverse_paths_fuel self fuel fuel' PC E L). }
  split; [exact ND|]. split.
  - intros q. split; [|apply Complete].
    intros Iq. apply in_map_iff in Iq. destruct Iq as ([q' c] & <- & Iq).
    apply (Sound _ _ Iq).
  - intros q c. split; [apply Sound|]. intros [Rq Eq].
    destruct (keys_getitem _ _ (Complete q Rq)) as [c' Ec'].
    apply getitem_In in Ec'. destruct (Sound _ _ Ec') as [_ Eq'].
    rewrite Eq in Eq'. injection Eq' as <-. exact Ec'.
Qed.

(** X11.  On an acyclic cost dictionary whose start vertex has an entry and
    is not the terminal, [traverse_paths] returns, and the keys of the
    dictionary it returns are exactly the routes from the start vertex to the
    terminal, each once and each with the cost that [evaluate_path] gives;
    walks that end in a dead end are left out. *)
Theorem traverse_paths_records_exactly_the_routes (self : problem)
  (rank : node -> nat) :
  dag_format self ->
  (forall v w c, edge self v w c -> (rank w < rank v)%nat) ->
  In (vertex self) (keys (dag self)) -> vertex self <> terminal self ->
  exists fuel PC,
    (forall fuel', (fuel <= fuel')%nat -> traverse_paths self fuel' = Ok PC) /\
    NoDup (keys PC) /\
    (forall q, In q (keys PC) <-> route self (vertex self) q) /\
    (forall q c, getitem PC q = Ok c <->
                 route self (vertex self) q /\ evaluate_path self q = Ok c).
Proof.
  intros format Down I T.
  destruct (traverse_paths_table self rank format Down I T)
    as (fuel & PC & E & ND & Ks & Es).
  exists fuel, PC. repeat (split; [assumption|]).
  intros q c. rewrite <- Es. split; [apply getitem_In|apply getitem_NoDup; exact ND].
Qed.

Lemma mapM_getitem_entries {K V : Type} `{Key K} (suf : dict K V) :
  forall pre,
    NoDup (keys (pre ++ suf)) ->
    mapM (fun k => c <- getitem (pre ++ suf) k ;; Ok (k, c))%outcome (keys suf)
    = Ok suf.
Proof.
  induction suf as [|[k v] suf IH]; intros pre ND; [reflexivity|].
  cbn [keys map fst mapM].
  rewrite (getitem_NoDup (pre ++ (k, v) :: suf) k v ND)
    by (apply in_or_app; right; left; reflexivity).
  cbn [bind]. specialize (IH (pre ++ [(k, v)])).
  rewrite <- app_assoc in IH. cbn [app] in IH. unfold keys in IH at 2.
  rewrite (IH ND). reflexivity.
Qed.

Lemma NoDup_map_filter {A B : Type} (f : A -> B) (g : A -> bool) (l : list A) :
  NoDup (map f l) -> NoDup (map f (filter g l)).
Proof.
  induction l as [|x l IH]; intros ND; [constructor|].
  cbn [map] in ND. inversion ND as [|? ? N ND']; subst.
  cbn [filter]. destruct (g x); [|apply IH; exact ND'].
  cbn [map]. constructor; [|apply IH; exact ND'].
  intros I. apply N. apply in_map_iff in I. destruct I as (y & Ey & Iy).
  apply filter_In in Iy. apply in_map_iff. exists y. tauto.
Qed.

(** What [find_shortest_paths] does with the dictionary of [traverse_paths]. *)
Lemma find_shortest_paths_of_table (self : problem) (fuel : nat)
  (PC : dict (list node) Q) :
  traverse_paths self fuel = Ok PC -> NoDup (keys PC) ->
  find_shortest_paths self fuel
  = (min_cost <- py_min (values PC) ;;
     Ok (map fst (filter (fun pc => Qle_bool (snd pc) min_cost) PC)))%outcome.
Proof.
  intros E ND. unfold find_shortest_paths. rewrite E. cbn [bind].
  destruct (py_min (values PC)) as [m| |]; cbn [bind]; try reflexivity.
  rewrite (mapM_getitem_entries PC [] ND). reflexivity.
Qed.

Lemma pcost_int (self : problem) (v : node) (q : list node) :
  int_costs self -> route self v q -> Qden (pcost self q) = 1%positive.
Proof.
  intros Ints R. pose proof (route_evaluate self v q R) as E.
  unfold evaluate_path in E.
  destruct (edge_costs self q) as [cs| |] eqn:Ec; cbn [bind] in E; try discriminate.
  injection E as <-.
  rewrite (py_sum_int cs (edge_costs_int self q Ints cs Ec)). reflexivity.
Qed.

(** X12.  On an acyclic cost dictionary with int costs whose start vertex has
    an entry, is not the terminal and has a route to it, [find_shortest_paths]
    returns exactly the routes from the start vertex to the terminal of least
    cost: all of them, each once; their costs are ints. *)
Theorem find_shortest_paths_returns_all_cheapest_routes (self : problem)
  (rank : node -> nat) (q0 : list node) :
  dag_format self ->
  (forall v w c, edge self v w c -> (rank w < rank v)%nat) ->
  In (vertex self) (keys (dag self)) -> vertex self <> terminal self ->
  int_costs self ->
  route self (vertex self) q0 ->
  exists fuel paths,
    (forall fuel', (fuel <= fuel')%nat ->
       find_shortest_paths self fuel' = Ok paths) /\
    NoDup paths /\
    (forall q, In q paths <->
       route self (vertex self) q /\
       forall q', route self (vertex self) q' ->
         (pcost self q <= pcost self q')%Q) /\
    (forall q, In q paths ->
       exists c, evaluate_path self q = Ok c /\ Qden c = 1%positive).
Proof.
  intros format Down I T Ints R0.
  destruct (traverse_paths_table self rank format Down I T)
    as (fuel & PC & E & ND & Ks & Es).
  assert (NE : values PC <> []).
  { apply Ks in R0. unfold keys in R0. unfold values.
    destruct PC; [contradiction|discriminate]. }
  destruct (py_min_spec (values PC) NE) as (m & Em & Im & Lm).
  exists fuel, (map fst (filter (fun pc => Qle_bool (snd pc) m) PC)).
  split.
  { intros fuel' L.
    rewrite (find_shortest_paths_of_table self fuel' PC (E fuel' L) ND), Em.
    reflexivity. }
  split; [apply NoDup_map_filter; exact ND|].
  assert (Cost : forall q c, In (q, c) PC -> c = pcost self q).
  { intros q c Iq. apply Es in Iq. destruct Iq as [Rq Eq].
    rewrite (route_evaluate self _ q Rq) in Eq. congruence. }
  split.
  2:{ intros q Iq. apply in_map_iff in Iq. destruct Iq as ([q' c] & Eq & Iq).
      cbn [fst] in Eq. subst q'. apply filter_In in Iq. destruct Iq as [Iq _].
      destruct (proj1 (Es q c) Iq) as [Rq Eq]. exists c. split; [exact Eq|].
      rewrite (Cost q c Iq). apply (pcost_int self _ q Ints Rq). }
  intros q. rewrite in_map_iff. split.
  - intros ([q' c] & Eq & Iq). cbn [fst] in Eq. subst q'.
    apply filter_In in Iq. destruct Iq as [Iq Le]. cbn [snd] in Le.
    apply Qle_bool_iff in Le. split; [apply (proj1 (Es q c) Iq)|].
    intros q' R'. rewrite <- (Cost q c Iq).
    eapply Qle_trans; [exact Le|]. apply Lm.
    apply in_map_iff. exists (q', pcost self q'). split; [reflexivity|].
    apply Es. split; [exact R'|apply (route_evaluate self _ q' R')].
  - intros [Rq Least]. exists (q, pcost self q). split; [reflexivity|].
    apply filter_In. split.
    + apply Es. split; [exact Rq|apply (route_evaluate self _ q Rq)].
    + cbn [snd]. apply Qle_bool_iff.
      apply in_map_iff in Im. destruct Im as ([qm cm] & Ecm & Iqm).
      cbn [snd] in Ecm. subst cm. rewrite (Cost qm m Iqm).
      apply Least. apply (proj1 (Es qm m) Iqm).
Qed.

(** X13.  On an acyclic cost dictionary whose start vertex has an entry and
    is not the terminal, but from which no route leads to the terminal,
    [traverse_paths] returns the empty dictionary and [find_shortest_paths]
    raises [ValueError], from the [min] of no values. *)
Theorem no_route_raises_ValueError (self : problem) (rank : node -> nat) :
  dag_format self ->
  (forall v w c, edge self v w c -> (rank w < rank v)%nat) ->
  In (vertex self) (keys (dag self)) -> vertex self <> terminal self ->
  (forall q, ~ route self (vertex self) q) ->
  exists fuel,
    forall fuel', (fuel <= fuel')%nat ->
      traverse_paths self fuel' = Ok [] /\
      find_shortest_paths self fuel' = Raised ValueError.
Proof.
  intros format Down I T None.
  destruct (traverse_paths_table self rank format Down I T)
    as (fuel & PC & E & ND & Ks & Es).
  assert (Z : PC = []).
  { destruct PC as [|[q c] PC]; [reflexivity|].
    exfalso. apply (None q). apply Ks. left; reflexivity. }
  subst PC. exists fuel. intros fuel' L. split; [apply E; exact L|].
  rewrite (find_shortest_paths_of_table self fuel' [] (E fuel' L) ND).
  reflexivity.
Qed.

(** * Further properties of the hidden Markov model *)

(** ** The backward table *)

Lemma np_exp_log3 (a b c : R) :
  (0 <= a)%R -> (0 <= b)%R -> (0 <= c)%R ->
  np_exp (np_log a +l np_log b +l np_log c) = (a * b * c)%R.
Proof.
  intros A B C. unfold np_log.
  destruct (Req_dec_T a 0) as [->|Na]; [cbn; ring|].
  destruct (Req_dec_T b 0) as [->|Nb]; [cbn; ring|].
  destruct (Req_dec_T c 0) as [->|Nc]; [cbn; ring|].
  cbn [ladd np_exp]. rewrite !exp_plus, !exp_ln by lra. reflexivity.
Qed.

Lemma backward_step_nonneg (self : HMMBB) (y : Z) (next : row) :
  observable self y ->
  (forall i j, (0 <= trans self i j)%R) ->
  (0 <= emit self 0 y)%R -> (0 <= emit self 1 y)%R ->
  (0 <= fst next)%R -> (0 <= snd next)%R ->
  backward_step self y next = Ok (beta_step self y next) /\
  (0 <= fst (beta_step self y next))%R /\ (0 <= snd (beta_step self y next))%R.
Proof.
  intros O Pt E0 E1 N0 N1. split.
  - unfold backward_step. rewrite (emp_col_observable self y O). cbn [bind].
    unfold emit_col, beta_step. cbn [fst snd].
    pose proof (Pt 0%nat 0%nat) as T00. pose proof (Pt 0%nat 1%nat) as T01.
    pose proof (Pt 1%nat 0%nat) as T10. pose proof (Pt 1%nat 1%nat) as T11.
    change (trans self 0 0) with (P00 self) in *.
    change (trans self 0 1) with (P01 self) in *.
    change (trans self 1 0) with (P10 self) in *.
    change (trans self 1 1) with (P11 self) in *.
    rewrite !np_exp_log3 by assumption. reflexivity.
  - assert (M : forall a b c : R, (0 <= a -> 0 <= b -> 0 <= c -> 0 <= a * b * c)%R).
    { intros a b c A B C. apply Rmult_le_pos; [apply Rmult_le_pos|]; assumption. }
    unfold beta_step. cbn [fst snd].
    split; apply Rplus_le_le_0_compat;
      try (apply Rplus_le_le_0_compat; [lra|]); apply M; auto.
Qed.

Lemma Rsum_linear {A : Type} (a b : R) (f g : A -> R) (l : list A) :
  Rsum (map (fun x => a * f x + b * g x)%R l)
  = (a * Rsum (map f l) + b * Rsum (map g l))%R.
Proof.
  induction l as [|x l IH]; unfold Rsum in *; simpl; [ring|]. rewrite IH. ring.
Qed.

Lemma future_nil (self : HMMBB) (i : nat) : future self i [] = 1%R.
Proof. unfold future, Rsum. simpl. ring. Qed.

Lemma future_cons (self : HMMBB) (i : nat) (y : Z) (ys : list Z) :
  future self i (y :: ys)
  = (trans self i 0 * emit self 0 y * future self 0 ys
     + trans self i 1 * emit self 1 y * future self 1 ys)%R.
Proof.
  unfold future. cbn [List.length all_paths]. rewrite Rsum_branch.
  cbn [chain].
  rewrite <- (Rsum_linear (trans self i 0 * emit self 0 y)
                          (trans self i 1 * emit self 1 y)
                          (fun xs => chain self 0 xs ys)
                          (fun xs => chain self 1 xs ys)).
  reflexivity.
Qed.

Lemma tail_sum_future (self : HMMBB) (prev : row) (ys : list Z) :
  tail_sum self prev ys
  = (fst prev * future self 0 ys + snd prev * future self 1 ys)%R.
Proof. unfold tail_sum, future. apply Rsum_linear. Qed.

Lemma beta_step_future (self : HMMBB) (y : Z) (ys : list Z) :
  beta_step self y (future self 0 ys, future self 1 ys)
  = (future self 0 (y :: ys), future self 1 (y :: ys)).
Proof.
  unfold beta_step. cbn [fst snd]. rewrite !future_cons.
  f_equal; ring.
Qed.

Lemma future_nonneg (self : HMMBB) (ys : list Z) :
  nonneg_model self ys -> forall i, (0 <= future self i ys)%R.
Proof.
  intros [Pt Pe]. induction ys as [|y ys IH]; intros i.
  - rewrite future_nil. lra.
  - inversion Pe as [|? ? [E0 E1] Pe']; subst. rewrite future_cons.
    pose proof (IH Pe' 0%nat). pose proof (IH Pe' 1%nat).
    pose proof (Pt i 0%nat). pose proof (Pt i 1%nat).
    apply Rplus_le_le_0_compat; apply Rmult_le_pos; try apply Rmult_le_pos;
      assumption.
Qed.

Lemma future_table_length (self : HMMBB) (ys : list Z) :
  List.length (future_table self ys) = List.length ys.
Proof. induction ys; simpl; congruence. Qed.

Lemma future_table_nth (self : HMMBB) (ys : list Z) :
  forall t, (t < List.length ys)%nat ->
    nth t (future_table self ys) (0, 0)%R
    = (future self 0 (skipn (S t) ys), future self 1 (skipn (S t) ys)).
Proof.
  induction ys as [|y ys IH]; intros [|t] L; simpl in L; try lia.
  - reflexivity.
  - cbn [future_table nth]. rewrite IH by lia. reflexivity.
Qed.

Lemma backward_future_table (self : HMMBB) (y0 : Z) (ys : list Z) :
  Forall (observable self) ys -> nonneg_model self ys ->
  backward self (y0 :: ys) = Ok (future_table self (y0 :: ys)).
Proof.
  unfold backward. revert y0. induction ys as [|y ys IH]; intros y0 O N.
  - cbn [fill_back future_table]. rewrite !future_nil. reflexivity.
  - inversion O as [|? ? Oy O']; subst.
    destruct N as [Pt Pe]. inversion Pe as [|? ? [E0 E1] Pe']; subst.
    assert (N' : nonneg_model self ys) by (split; assumption).
    change (fill_back (backward_step self) (1, 1)%R (y0 :: y :: ys))
      with (rest <- fill_back (backward_step self) (1, 1)%R (y :: ys) ;;
            next <- first_item rest ;;
            r <- backward_step self y next ;;
            Ok (r :: rest))%outcome.
    rewrite (IH y O' N'). cbn [bind future_table first_item].
    destruct (backward_step_nonneg self y (future self 0 ys, future self 1 ys)
                Oy Pt E0 E1 (future_nonneg self ys N' 0%nat)
                (future_nonneg self ys N' 1%nat)) as [E _].
    rewrite E. cbn [bind]. rewrite beta_step_future. reflexivity.
Qed.

(** X14.  On observations that (after the first) index the emission rows,
    and a model without negative probabilities, row [t] of the table of
    [backward] holds, for each hidden state [i] at [t], the probability of
    the observations after [t]: the sum over all sequences of hidden states
    after [t] of the products of transition and emission probabilities.  The
    last row is (1, 1) and each row comes from the next by the backward
    recursion.  The first observation is never read. *)
Theorem backward_computes_the_future_likelihood (self : HMMBB) (ys : list Z) :
  ys <> [] -> Forall (observable self) (tl ys) -> nonneg_model self (tl ys) ->
  exists betas,
    let T := List.length ys in
    backward self ys = Ok betas /\
    List.length betas = T /\
    (forall t i, (t < T)%nat -> (i < 2)%nat ->
       cell betas t i = future self i (skipn (S t) ys)) /\
    (forall i, (i < 2)%nat -> cell betas (T - 1) i = 1%R) /\
    (forall t i, (t + 1 < T)%nat -> (i < 2)%nat ->
       cell betas t i
       = (trans self i 0 * emit self 0 (nth (t + 1) ys 0%Z) * cell betas (t + 1) 0
          + trans self i 1 * emit self 1 (nth (t + 1) ys 0%Z) * cell betas (t + 1) 1)%R).
Proof.
  intros NE O N. destruct ys as [|y0 ys]; [congruence|]. cbn [tl] in O, N.
  exists (future_table self (y0 :: ys)). cbn zeta.
  assert (C : forall t i, (t < List.length (y0 :: ys))%nat -> (i < 2)%nat ->
                cell (future_table self (y0 :: ys)) t i
                = future self i (skipn (S t) (y0 :: ys))).
  { intros t i Lt Li. unfold cell. rewrite (future_table_nth self _ t Lt).
    destruct i as [|[|i]]; [reflexivity|reflexivity|lia]. }
  split; [apply backward_future_table; assumption|].
  split; [apply future_table_length|]. split; [exact C|]. split.
  - intros i Li. rewrite C by (simpl; lia || exact Li).
    rewrite skipn_all2 by (simpl; lia). apply future_nil.
  - intros t i Lt Li. rewrite !C by (lia || exact Li).
    rewrite (skipn_nth (S t) (y0 :: ys) 0%Z) by lia.
    rewrite future_cons. replace (t + 1)%nat with (S t) by lia. reflexivity.
Qed.

(** ** The forward and the backward table together *)

Lemma forward_loop_alpha_rows (self : HMMBB) (ys : list Z) :
  forall prev, Forall (observable self) ys ->
    forward_loop self prev ys = Ok (alpha_rows self prev ys).
Proof.
  induction ys as [|y ys IH]; intros prev F; [reflexivity|].
  inversion F as [|? ? Oy F']; subst. cbn [forward_loop alpha_rows].
  rewrite (forward_step_observable self prev y Oy). cbn [bind].
  rewrite (IH _ F'). reflexivity.
Qed.

Lemma forward_alpha_rows (self : HMMBB) (y0 : Z) (ys : list Z) :
  Forall (observable self) (y0 :: ys) ->
  forward self (y0 :: ys)
  = Ok (alpha_first self y0 :: alpha_rows self (alpha_first self y0) ys).
Proof.
  intros F. inversion F as [|? ? O0 F']; subst. cbn [forward].
  rewrite (emp_col_observable self y0 O0). cbn [bind].
  change (fst (emit_col self y0) * 0.5, snd (emit_col self y0) * 0.5)%R
    with (alpha_first self y0).
  rewrite (forward_loop_alpha_rows self ys _ F'). reflexivity.
Qed.

(** Along the rows of [forward] the sum over what follows stays the same. *)
Lemma tail_sum_along (self : HMMBB) (ys : list Z) :
  forall prev t, (t <= List.length ys)%nat ->
    tail_sum self (nth t (prev :: alpha_rows self prev ys) (0, 0)%R) (skipn t ys)
    = tail_sum self prev ys.
Proof.
  induction ys as [|y ys IH]; intros prev [|t] L; simpl in L; try lia;
    try reflexivity.
  cbn [alpha_rows skipn]. rewrite tail_sum_step.
  change (nth (S t) (prev :: alpha_step self prev y
                       :: alpha_rows self (alpha_step self prev y) ys) (0, 0)%R)
    with (nth t (alpha_step self prev y
                   :: alpha_rows self (alpha_step self prev y) ys) (0, 0)%R).
  apply IH. lia.
Qed.

Lemma likelihood_tail_sum (self : HMMBB) (y0 : Z) (ys : list Z) :
  likelihood_by_enumeration self (y0 :: ys)
  = tail_sum self (alpha_first self y0) ys.
Proof.
  unfold likelihood_by_enumeration, tail_sum. cbn [List.length all_paths].
  rewrite Rsum_branch. apply Rsum_ext. intros xs.
  unfold alpha_first. cbn [joint fst snd].
  destruct xs as [|x xs], ys as [|y ys]; cbn [chain]; ring.
Qed.

(** The product of the two tables at any time, summed over the states. *)
Lemma forward_backward_product (self : HMMBB) (y0 : Z) (ys : list Z) (t : nat) :
  (t < List.length (y0 :: ys))%nat ->
  let alphas := alpha_first self y0 :: alpha_rows self (alpha_first self y0) ys in
  let betas := future_table self (y0 :: ys) in
  (cell alphas t 0 * cell betas t 0 + cell alphas t 1 * cell betas t 1)%R
  = likelihood_by_enumeration self (y0 :: ys).
Proof.
  intros L. cbn zeta. rewrite likelihood_tail_sum.
  rewrite <- (tail_sum_along self ys (alpha_first self y0) t) by (simpl in L; lia).
  rewrite tail_sum_future. unfold cell.
  rewrite (future_table_nth self (y0 :: ys) t L). cbn [fst snd skipn].
  reflexivity.
Qed.

(** X15.  On observations that index the emission rows and a model without
    negative probabilities, the tables of [forward] and [backward] multiply,
    at every time [t], to the probability of all the observations:
    [alphas[t, 0] * betas[t, 0] + alphas[t, 1] * betas[t, 1]] is the sum of
    the joint probability over all sequences of hidden states, whatever
    [t]. *)
Theorem forward_times_backward_is_the_likelihood (self : HMMBB) (ys : list Z) :
  ys <> [] -> Forall (observable self) ys -> nonneg_model self (tl ys) ->
  exists alphas betas,
    forward self ys = Ok alphas /\ backward self ys = Ok betas /\
    forall t, (t < List.length ys)%nat ->
      (cell alphas t 0 * cell betas t 0 + cell alphas t 1 * cell betas t 1)%R
      = likelihood_by_enumeration self ys.
Proof.
  intros NE O N. destruct ys as [|y0 ys]; [congruence|]. cbn [tl] in N.
  exists (alpha_first self y0 :: alpha_rows self (alpha_first self y0) ys),
         (future_table self (y0 :: ys)).
  split; [apply forward_alpha_rows; exact O|].
  split; [apply backward_future_table; [inversion O; assumption|exact N]|].
  intros t L. apply (forward_backward_product self y0 ys t L).
Qed.

(** ** Observations out of range *)

Lemma valid_index_dec (k : nat) (y : Z) : {valid_index k y} + {~ valid_index k y}.
Proof.
  unfold valid_index.
  destruct (Z_le_dec (- Z.of_nat k) y); destruct (Z_lt_dec y (Z.of_nat k));
    [left; lia|right; lia|right; lia|right; lia].
Qed.

Lemma np_item_valid {A : Type} (a : list A) (y : Z) :
  valid_index (List.length a) y -> exists x, np_item a y = Ok x.
Proof.
  unfold valid_index, np_item. intros V. cbn zeta.
  set (n := Z.of_nat (List.length a)) in *.
  set (j := if (y <? 0)%Z then (y + n)%Z else y).
  assert (J : (0 <= j < n)%Z) by (unfold j; destruct (Z.ltb_spec y 0); lia).
  replace ((0 <=? j) && (j <? n))%Z with true
    by (symmetry; apply andb_true_iff; split; [apply Z.leb_le|apply Z.ltb_lt]; lia).
  destruct (nth_error a (Z.to_nat j)) as [x|] eqn:E; [exists x; reflexivity|].
  apply nth_error_None in E. unfold n in J. lia.
Qed.

Lemma np_item_invalid {A : Type} (a : list A) (y : Z) :
  ~ valid_index (List.length a) y -> np_item a y = Raised IndexError.
Proof.
  unfold valid_index, np_item. intros V. cbn zeta.
  set (n := Z.of_nat (List.length a)) in *.
  set (j := if (y <? 0)%Z then (y + n)%Z else y).
  assert (J : ~ (0 <= j < n)%Z) by (unfold j; destruct (Z.ltb_spec y 0); lia).
  replace ((0 <=? j) && (j <? n))%Z with false; [reflexivity|].
  symmetry. apply andb_false_iff.
  destruct (Z.leb_spec 0 j); [right; apply Z.ltb_ge; lia|left; reflexivity].
Qed.

Lemma valid_observable (self : HMMBB) (k : nat)
  (bear_row : List.length (fst (emp self)) = k)
  (bull_row : List.length (snd (emp self)) = k) (y : Z) :
  valid_index k y -> observable self y.
Proof.
  intros V. unfold observable, emp_col.
  destruct (np_item_valid (fst (emp self)) y) as [e0 E0]; [rewrite bear_row; exact V|].
  destruct (np_item_valid (snd (emp self)) y) as [e1 E1]; [rewrite bull_row; exact V|].
  rewrite E0, E1. eexists; reflexivity.
Qed.

Lemma invalid_emp_col (self : HMMBB) (k : nat)
  (bear_row : List.length (fst (emp self)) = k) (y : Z) :
  ~ valid_index k y -> emp_col self y = Raised IndexError.
Proof.
  intros V. unfold emp_col. rewrite np_item_invalid by (rewrite bear_row; exact V).
  reflexivity.
Qed.

Lemma forward_loop_invalid (self : HMMBB) (k : nat)
  (bear_row : List.length (fst (emp self)) = k)
  (bull_row : List.length (snd (emp self)) = k) (ys : list Z) :
  forall prev, Exists (fun y => ~ valid_index k y) ys ->
    forward_loop self prev ys = Raised IndexError.
Proof.
  induction ys as [|y ys IH]; intros prev X; [inversion X|].
  cbn [forward_loop]. destruct (valid_index_dec k y) as [V|V].
  - rewrite (forward_step_observable self prev y
               (valid_observable self k bear_row bull_row y V)).
    cbn [bind]. rewrite IH; [reflexivity|].
    inversion X as [? ? V0|? ? X0]; [contradiction|assumption].
  - unfold forward_step. rewrite (invalid_emp_col self k bear_row y V). reflexivity.
Qed.

Lemma fill_back_invalid {A : Type} (k : nat) (step : Z -> A -> outcome A)
  (last_row : A) :
  (forall y next, valid_index k y -> exists r, step y next = Ok r) ->
  (forall y next, ~ valid_index k y -> step y next = Raised IndexError) ->
  forall ys, Exists (fun y => ~ valid_index k y) (tl ys) ->
    fill_back step last_row ys = Raised IndexError.
Proof.
  intros Good Bad. induction ys as [|y0 ys IH]; intros X; [inversion X|].
  cbn [tl] in X. destruct ys as [|y ys]; [inversion X|].
  change (fill_back step last_row (y0 :: y :: ys))
    with (rest <- fill_back step last_row (y :: ys) ;;
          next <- first_item rest ;;
          r <- step y next ;; Ok (r :: rest))%outcome.
  destruct (Exists_dec (fun y => ~ valid_index k y) ys) as [X'|X'].
  { intros z. destruct (valid_index_dec k z); [right; tauto|left; assumption]. }
  - rewrite (IH X'). reflexivity.
  - assert (V : ~ valid_index k y)
      by (inversion X as [? ? V0|? ? X0]; [assumption|contradiction]).
    destruct (fill_back_rows step last_row (y :: ys) last_row) as (rows & E & Len & _).
    + discriminate.
    + intros z next I. apply Good. cbn [tl] in I.
      destruct (valid_index_dec k z) as [Vz|Vz]; [exact Vz|].
      exfalso. apply X'. apply Exists_exists. exists z. split; assumption.
    + rewrite E. cbn [bind]. destruct rows as [|r rows]; [discriminate|].
      cbn [first_item bind]. rewrite (Bad y r V). reflexivity.
Qed.

Lemma viterbi_step_valid (self : HMMBB) (k : nat)
  (bear_row : List.length (fst (emp self)) = k)
  (bull_row : List.length (snd (emp self)) = k) (y : Z) (next : lrow) :
  valid_index k y -> exists r, viterbi_step self y next = Ok r.
Proof.
  intros V. unfold viterbi_step.
  rewrite (emp_col_observable self y (valid_observable self k bear_row bull_row y V)).
  eexists; reflexivity.
Qed.

Lemma viterbi_single (self : HMMBB) (k : nat)
  (bear_row : List.length (fst (emp self)) = k)
  (bull_row : List.length (snd (emp self)) = k) (y0 : Z) :
  valid_index k y0 -> exists x, viterbi self [y0] = Ok [x].
Proof.
  intros V. pose proof (valid_observable self k bear_row bull_row y0 V) as O.
  unfold viterbi. cbn [log_mus_table fill_back bind List.length repeat].
  change (np_item [y0] 0) with (Ok y0). cbn [bind].
  rewrite (emp_col_observable self y0 O). cbn [bind].
  change (np_item [(Fin 1, Fin 1)] 0) with (@Ok lrow (Fin 1, Fin 1)). cbn [bind].
  set (a := argmax _).
  change (np_setitem [0%nat] 0 a) with (Ok [a]). cbn [bind seq foldM].
  unfold decode_step.
  change (np_item [y0] (Z.of_nat 0)) with (Ok y0). cbn [bind].
  rewrite (emp_col_observable self y0 O). cbn [bind].
  change (np_item [a] (Z.of_nat 0 - 1)) with (Ok a). cbn [bind].
  assert (La : (a < 2)%nat) by apply argmax_lt_2.
  unfold P_row. destruct a as [|[|a]]; [| |lia]; cbn [at2 bind];
    eexists; reflexivity.
Qed.

(** X18.  For a model whose two emission rows have [k] entries (as the
    constructor makes them), [forward] and [viterbi] return exactly when the
    list of observations is not empty and every observation is an index from
    [-k] to [k - 1] (a negative one counts from the end); [backward] asks the
    same of every observation but the first, which it does not read.  In all
    other cases they raise [IndexError]. *)
Theorem observations_out_of_range_raise_IndexError (self : HMMBB) (k : nat)
  (ys : list Z) :
  List.length (fst (emp self)) = k -> List.length (snd (emp self)) = k ->
  (ys <> [] -> Forall (valid_index k) ys ->
     (exists alphas, forward self ys = Ok alphas) /\
     (exists xs, viterbi self ys = Ok xs)) /\
  (ys <> [] -> Forall (valid_index k) (tl ys) ->
     exists betas, backward self ys = Ok betas) /\
  (ys = [] \/ Exists (fun y => ~ valid_index k y) ys ->
     forward self ys = Raised IndexError /\
     viterbi self ys = Raised IndexError) /\
  (ys = [] \/ Exists (fun y => ~ valid_index k y) (tl ys) ->
     backward self ys = Raised IndexError).
Proof.
  intros Bear Bull.
  assert (VO : forall l, Forall (valid_index k) l -> Forall (observable self) l).
  { intros l F. rewrite Forall_forall in *. intros y I.
    apply (valid_observable self k Bear Bull y (F y I)). }
  split; [|split; [|split]].
  - intros NE F. split.
    + destruct (forward_rows self ys NE (VO ys F)) as (alphas & E & _).
      exists alphas. exact E.
    + destruct ys as [|y0 [|y1 ys]]; [congruence| |].
      * inversion F as [|? ? V0 _].
        destruct (viterbi_single self k Bear Bull y0 V0) as [x0 E].
        exists [x0]. exact E.
      * destruct (viterbi_decodes_from_bear self (y0 :: y1 :: ys))
          as (_ & xs & _ & E & _); [simpl; lia|apply VO; exact F|].
        exists xs. exact E.
  - intros NE F.
    destruct (fill_back_rows (backward_step self) (1, 1)%R ys (0, 0)%R NE)
      as (betas & E & _).
    { intros y next I. apply backward_step_observable.
      rewrite Forall_forall in F. apply (valid_observable self k Bear Bull y (F y I)). }
    exists betas. exact E.
  - intros [->|X]; [split; reflexivity|].
    destruct ys as [|y0 ys]; [inversion X|]. split.
    + cbn [forward]. destruct (valid_index_dec k y0) as [V|V].
      * rewrite (emp_col_observable self y0 (valid_observable self k Bear Bull y0 V)).
        cbn [bind]. rewrite (forward_loop_invalid self k Bear Bull ys);
          [reflexivity|].
        inversion X as [? ? V0|? ? X0]; [contradiction|assumption].
      * rewrite (invalid_emp_col self k Bear y0 V). reflexivity.
    + unfold viterbi.
      destruct (Exists_dec (fun y => ~ valid_index k y) ys) as [X'|X'].
      { intros z. destruct (valid_index_dec k z); [right; tauto|left; assumption]. }
      * cbn [log_mus_table].
        rewrite (fill_back_invalid k (viterbi_step self) (Fin 1, Fin 1));
          [reflexivity| | |exact X'].
        -- intros y next V. apply (viterbi_step_valid self k Bear Bull y next V).
        -- intros y next V. unfold viterbi_step.
           rewrite (invalid_emp_col self k Bear y V). reflexivity.
      * assert (V : ~ valid_index k y0)
          by (inversion X as [? ? V0|? ? X0]; [assumption|contradiction]).
        destruct (fill_back_rows (viterbi_step self) (Fin 1, Fin 1) (y0 :: ys)
                    (NegInf, NegInf)) as (rows & E & _).
        -- discriminate.
        -- intros z next I. apply (viterbi_step_valid self k Bear Bull).
           cbn [tl] in I. destruct (valid_index_dec k z) as [Vz|Vz]; [exact Vz|].
           exfalso. apply X'. apply Exists_exists. exists z. split; assumption.
        -- cbn [log_mus_table]. rewrite E. cbn [bind].
           change (np_item (y0 :: ys) 0) with (Ok y0). cbn [bind].
           rewrite (invalid_emp_col self k Bear y0 V). reflexivity.
  - intros [->|X]; [reflexivity|].
    unfold backward.
    apply (fill_back_invalid k (backward_step self) (1, 1)%R); [| |exact X].
    + intros y next V. apply backward_step_observable.
      apply (valid_observable self k Bear Bull y V).
    + intros y next V. unfold backward_step.
      rewrite (invalid_emp_col self k Bear y V). reflexivity.
Qed.

(** ** The theorems above on the lecture's graph and on small problems *)

Lemma rankb_down (self : problem) (rank : node -> nat) :
  rankb self rank = true ->
  forall v w c, edge self v w c -> (rank w < rank v)%nat.
Proof.
  unfold rankb. rewrite forallb_forall. intros F v w c E.
  destruct (edge_entry self v w c E) as (d & Id & Iw).
  specialize (F _ Id). rewrite forallb_forall in F.
  specialize (F w (in_map fst _ _ Iw)). apply Nat.ltb_lt in F. exact F.
Defined.

Lemma simple_problem_leaves (v : node) :
  In v (keys (dag simple_problem)) -> v <> terminal simple_problem ->
  exists w c, edge simple_problem v w c.
Proof.
  intros I T. simpl in I.
  destruct I as [<-|[<-|[<-|[<-|[<-|[<-|[<-|[]]]]]]]].
  - exists "B", 1%Q. eexists; split; reflexivity.
  - exists "D", 9%Q. eexists; split; reflexivity.
  - exists "F", 2%Q. eexists; split; reflexivity.
  - exists "F", 4%Q. eexists; split; reflexivity.
  - exists "G", 4%Q. eexists; split; reflexivity.
  - exists "G", 1%Q. eexists; split; reflexivity.
  - exfalso. apply T. reflexivity.
Defined.

Lemma simple_problem_ranks (v : node) :
  In v (keys (dag simple_problem)) -> (rank_of simple_ranks v < 5)%nat.
Proof.
  intros I. simpl in I.
  destruct I as [<-|[<-|[<-|[<-|[<-|[<-|[<-|[]]]]]]]]; vm_compute; lia.
Defined.

(** X4 on the lecture's graph, with a cost function that is 0 everywhere. *)
Lemma find_shortest_path_returns_a_route_simple :
  route simple_problem (vertex simple_problem) ["A"; "B"; "E"; "G"] /\
  exists c, evaluate_path simple_problem ["A"; "B"; "E"; "G"] = Ok c.
Proof.
  apply (find_shortest_path_returns_a_route simple_problem 10
           (map (fun v => (v, 0%Q)) (keys simple_cost_dict))).
  vm_compute. reflexivity.
Defined.

(** X5 on the lecture's graph started at Z. *)
Lemma start_vertex_without_entry_simple :
  traverse_paths start_missing 1 = Raised KeyError /\
  find_shortest_paths start_missing 1 = Raised KeyError /\
  (vertex start_missing <> terminal start_missing ->
   forall J, find_shortest_path start_missing 1 J = Raised KeyError).
Proof.
  apply (start_vertex_without_entry start_missing 0).
  simpl. intros I. repeat (destruct I as [I|I]; [discriminate|]). exact I.
Defined.

(** X6 on the graph of the single vertex G. *)
Lemma start_vertex_is_terminal_single :
  step_back_path [vertex already_there] = Raised IndexError /\
  traverse_paths already_there 1 = Raised IndexError /\
  find_shortest_paths already_there 1 = Raised IndexError /\
  forall J, find_shortest_path already_there 0 J = Ok [vertex already_there].
Proof.
  apply (start_vertex_is_terminal already_there 0).
  - reflexivity.
  - simpl. auto.
Defined.

(** X7 on the graph whose vertex B is a dead end. *)
Lemma dead_end_raises_ValueError_small :
  (forall J, bellman_equation dead_end "B" J = Raised ValueError) /\
  find_cost_function dead_end 1 = Raised ValueError.
Proof.
  apply (dead_end_raises_ValueError dead_end "B" 0).
  - apply formatb_format. vm_compute. reflexivity.
  - discriminate.
  - reflexivity.
Defined.

(** X3 on the lecture's graph and the path A, C, F, G cut at C. *)
Lemma evaluate_path_of_two_pieces_simple :
  (forall c, evaluate_path simple_problem (["A"] ++ "C" :: ["F"; "G"]) = Ok c ->
     exists a b,
       evaluate_path simple_problem (["A"] ++ ["C"]) = Ok a /\
       evaluate_path simple_problem ("C" :: ["F"; "G"]) = Ok b /\
       c = (a + b)%Q /\ Qden c = 1%positive) /\
  (forall a b,
     evaluate_path simple_problem (["A"] ++ ["C"]) = Ok a ->
     evaluate_path simple_problem ("C" :: ["F"; "G"]) = Ok b ->
     evaluate_path simple_problem (["A"] ++ "C" :: ["F"; "G"]) = Ok (a + b)%Q /\
     Qden (a + b)%Q = 1%positive).
Proof.
  apply (evaluate_path_of_two_pieces simple_problem ["A"] "C" ["F"; "G"]).
  apply wholeb_int_costs. vm_compute. reflexivity.
Defined.

Lemma Forall_int_table (J : dict node Q) :
  Forall (fun kv => Qden (snd kv) = 1%positive) J -> int_table J.
Proof.
  intros F v x G. apply getitem_In in G.
  rewrite Forall_forall in F. apply (F (v, x) G).
Qed.

(** X8 on the lecture's graph and three constant cost functions. *)
Lemma compare_J_is_a_distance_simple :
  let J (c : Q) := map (fun v => (v, c)) (keys simple_cost_dict) in
  exists d21 d13,
    compare_J simple_problem (J 0%Q) (J 100%Q) = Ok d21 /\
    compare_J simple_problem (J 100%Q) (J 8%Q) = Ok d13 /\
    Qden 100%Q = 1%positive /\
    (0 <= 100)%Q /\ (d21 == 100)%Q /\ (d13 <= 100 + 8)%Q /\
    (forall v a b, In v (keys (dag simple_problem)) ->
       getitem (J 100%Q) v = Ok a -> getitem (J 0%Q) v = Ok b ->
       (Qabs (a - b) <= 100)%Q) /\
    ((100 == 0)%Q <->
     forall v a b, In v (keys (dag simple_problem)) ->
       getitem (J 100%Q) v = Ok a -> getitem (J 0%Q) v = Ok b -> (a == b)%Q).
Proof.
  cbn zeta.
  apply (compare_J_is_a_distance simple_problem
           (map (fun v => (v, 100%Q)) (keys simple_cost_dict))
           (map (fun v => (v, 0%Q)) (keys simple_cost_dict))
           (map (fun v => (v, 8%Q)) (keys simple_cost_dict)) 100%Q 8%Q).
  - apply Forall_int_table. repeat constructor.
  - apply Forall_int_table. repeat constructor.
  - apply Forall_int_table. repeat constructor.
  - vm_compute. reflexivity.
  - vm_compute. reflexivity.
Defined.

(** X9 on the lecture's graph at the vertex A. *)
Lemma bellman_equation_is_monotone_and_nonexpansive_simple :
  let J (c : Q) := map (fun v => (v, c)) (keys simple_cost_dict) in
  Qden (1 + 0)%Q = 1%positive /\
  ((forall w a b, getitem (J 0%Q) w = Ok a -> getitem (J 100%Q) w = Ok b ->
      (a <= b)%Q) -> (1 + 0 <= 1 + 100)%Q) /\
  (forall d, compare_J simple_problem (J 0%Q) (J 100%Q) = Ok d ->
     (Qabs ((1 + 0) - (1 + 100)) <= d)%Q).
Proof.
  cbn zeta.
  apply (bellman_equation_is_monotone_and_nonexpansive simple_problem "A").
  - apply formatb_format. vm_compute. reflexivity.
  - apply wholeb_int_costs. vm_compute. reflexivity.
  - apply Forall_int_table. repeat constructor.
  - apply Forall_int_table. repeat constructor.
  - reflexivity.
  - reflexivity.
Defined.

(** X10 on the lecture's graph. *)
Lemma find_cost_function_gives_least_route_costs_simple :
  exists J,
    (forall fuel, (5 < fuel)%nat -> find_cost_function simple_problem fuel = Ok J) /\
    keys J = keys (dag simple_problem) /\
    forall v, In v (keys (dag simple_problem)) ->
      exists x,
        getitem J v = Ok x /\
        (forall p c, route simple_problem v p ->
           evaluate_path simple_problem p = Ok c -> (x <= c)%Q) /\
        (exists p c, route simple_problem v p /\
           evaluate_path simple_problem p = Ok c /\ (c == x)%Q).
Proof.
  apply (find_cost_function_gives_least_route_costs simple_problem
           (rank_of simple_ranks) 5).
  - apply formatb_format. vm_compute. reflexivity.
  - discriminate.
  - apply rankb_down. vm_compute. reflexivity.
  - exact simple_problem_ranks.
  - exact simple_problem_leaves.
  - apply wholeb_int_costs. vm_compute. reflexivity.
Defined.

(** X11 on the lecture's graph. *)
Lemma traverse_paths_records_exactly_the_routes_simple :
  exists fuel PC,
    (forall fuel', (fuel <= fuel')%nat -> traverse_paths simple_problem fuel' = Ok PC) /\
    NoDup (keys PC) /\
    (forall q, In q (keys PC) <-> route simple_problem (vertex simple_problem) q) /\
    (forall q c, getitem PC q = Ok c <->
       route simple_problem (vertex simple_problem) q /\
       evaluate_path simple_problem q = Ok c).
Proof.
  apply (traverse_paths_records_exactly_the_routes simple_problem
           (rank_of simple_ranks)).
  - apply formatb_format. vm_compute. reflexivity.
  - apply rankb_down. vm_compute. reflexivity.
  - simpl. auto.
  - discriminate.
Defined.

(** X12 on the lecture's graph. *)
Lemma find_shortest_paths_returns_all_cheapest_routes_simple :
  exists fuel paths,
    (forall fuel', (fuel <= fuel')%nat ->
       find_shortest_paths simple_problem fuel' = Ok paths) /\
    NoDup paths /\
    (forall q, In q paths <->
       route simple_problem (vertex simple_problem) q /\
       forall q', route simple_problem (vertex simple_problem) q' ->
         (pcost simple_problem q <= pcost simple_problem q')%Q) /\
    (forall q, In q paths ->
       exists c, evaluate_path simple_problem q = Ok c /\ Qden c = 1%positive).
Proof.
  apply (find_shortest_paths_returns_all_cheapest_routes simple_problem
           (rank_of simple_ranks) ["A"; "D"; "G"]).
  - apply formatb_format. vm_compute. reflexivity.
  - apply rankb_down. vm_compute. reflexivity.
  - simpl. auto.
  - discriminate.
  - apply wholeb_int_costs. vm_compute. reflexivity.
  - apply routeb_route. vm_compute. reflexivity.
Defined.

Lemma dead_end_no_route (q : list node) : ~ route dead_end (vertex dead_end) q.
Proof.
  intros R. inversion R as [E|v w c p T Ed Rp]; subst; try discriminate.
  destruct Ed as (d & Ed & Ew). cbv in Ed. injection Ed as <-.
  cbn [getitem] in Ew.
  match type of Ew with
  | (if ?b then _ else _) = _ => destruct b eqn:K; [|discriminate]
  end.
  apply keyb_spec in K. subst w.
  inversion Rp as [E|v w c' p' T' Ed' Rp']; subst; try discriminate.
  destruct Ed' as (d' & Ed' & Ew'). cbv in Ed'. injection Ed' as <-. discriminate.
Defined.

(** X13 on the graph whose vertex B is a dead end. *)
Lemma no_route_raises_ValueError_small :
  exists fuel,
    forall fuel', (fuel <= fuel')%nat ->
      traverse_paths dead_end fuel' = Ok [] /\
      find_shortest_paths dead_end fuel' = Raised ValueError.
Proof.
  apply (no_route_raises_ValueError dead_end
           (rank_of [("A", 1); ("B", 0)]%nat)).
  - apply formatb_format. vm_compute. reflexivity.
  - apply rankb_down. vm_compute. reflexivity.
  - simpl. auto.
  - discriminate.
  - exact dead_end_no_route.
Defined.

(** ** The theorems above on the lecture's model *)

Lemma nonneg_model_lecture : nonneg_model lecture_hmm [1]%Z.
Proof.
  split.
  - intros [|i] [|j]; unfold trans, P00, P01, P10, P11; simpl; lra.
  - destruct emit_lecture_1 as [E0 E1]. repeat constructor; rewrite ?E0, ?E1; lra.
Defined.

Lemma lecture_observable_tail : Forall (observable lecture_hmm) [1]%Z.
Proof. repeat constructor; exists (0.25, 0.3)%R; reflexivity. Defined.

(** X14 on the lecture's model and the observations [1, 1]. *)
Lemma backward_computes_the_future_likelihood_lecture :
  exists betas,
    let T := List.length [1; 1]%Z in
    backward lecture_hmm [1; 1]%Z = Ok betas /\
    List.length betas = T /\
    (forall t i, (t < T)%nat -> (i < 2)%nat ->
       cell betas t i = future lecture_hmm i (skipn (S t) [1; 1]%Z)) /\
    (forall i, (i < 2)%nat -> cell betas (T - 1) i = 1%R) /\
    (forall t i, (t + 1 < T)%nat -> (i < 2)%nat ->
       cell betas t i
       = (trans lecture_hmm i 0 * emit lecture_hmm 0 (nth (t + 1) [1; 1]%Z 0%Z)
            * cell betas (t + 1) 0
          + trans lecture_hmm i 1 * emit lecture_hmm 1 (nth (t + 1) [1; 1]%Z 0%Z)
            * cell betas (t + 1) 1)%R).
Proof.
  apply (backward_computes_the_future_likelihood lecture_hmm [1; 1]%Z).
  - discriminate.
  - exact lecture_observable_tail.
  - exact nonneg_model_lecture.
Defined.

(** X15 on the lecture's model and the observations [1, 1]. *)
Lemma forward_times_backward_is_the_likelihood_lecture :
  exists alphas betas,
    forward lecture_hmm [1; 1]%Z = Ok alphas /\
    backward lecture_hmm [1; 1]%Z = Ok betas /\
    forall t, (t < 2)%nat ->
      (cell alphas t 0 * cell betas t 0 + cell alphas t 1 * cell betas t 1)%R
      = likelihood_by_enumeration lecture_hmm [1; 1]%Z.
Proof.
  apply (forward_times_backward_is_the_likelihood lecture_hmm [1; 1]%Z).
  - discriminate.
  - exact lecture_observable.
  - exact nonneg_model_lecture.
Defined.

(** X18 on the lecture's model, whose emission rows have 3 entries. *)
Lemma observations_out_of_range_raise_IndexError_lecture :
  ([1; -3]%Z <> [] -> Forall (valid_index 3) [1; -3]%Z ->
     (exists alphas, forward lecture_hmm [1; -3]%Z = Ok alphas) /\
     (exists xs, viterbi lecture_hmm [1; -3]%Z = Ok xs)) /\
  ([1; -3]%Z <> [] -> Forall (valid_index 3) (tl [1; -3]%Z) ->
     exists betas, backward lecture_hmm [1; -3]%Z = Ok betas) /\
  ([1; -3]%Z = [] \/ Exists (fun y => ~ valid_index 3 y) [1; -3]%Z ->
     forward lecture_hmm [1; -3]%Z = Raised IndexError /\
     viterbi lecture_hmm [1; -3]%Z = Raised IndexError) /\
  ([1; -3]%Z = [] \/ Exists (fun y => ~ valid_index 3 y) (tl [1; -3]%Z) ->
     backward lecture_hmm [1; -3]%Z = Raised IndexError).
Proof.
  apply (observations_out_of_range_raise_IndexError lecture_hmm 3 [1; -3]%Z);
    reflexivity.
Defined.

(** * The reader of the delivery format *)

Lemma after_prefix_app (sep b : string) : after_prefix sep (sep ++ b)%string = Some b.
Proof.
  induction sep as [|a sep IH]; [destruct b; reflexivity|].
  cbn [append after_prefix]. rewrite Ascii.eqb_refl. exact IH.
Qed.

Lemma lacks_app (a : Ascii.ascii) (s t : string) :
  lacks a (s ++ t)%string = lacks a s && lacks a t.
Proof.
  induction s as [|c s IH]; [reflexivity|].
  cbn [append lacks]. rewrite IH. apply andb_assoc.
Qed.

Lemma cut_skip (a : Ascii.ascii) (sep' x b : string) :
  lacks a x = true ->
  cut (String a sep') (x ++ String a sep' ++ b)%string = Some (x, b).
Proof.
  induction x as [|c x IH]; intros L.
  - cbn [append]. change (String a (sep' ++ b)%string)
      with (String a sep' ++ b)%string.
    destruct (String a sep' ++ b)%string eqn:E; [discriminate|].
    cbn [cut]. rewrite <- E, after_prefix_app. reflexivity.
  - cbn [lacks] in L. apply andb_true_iff in L. destruct L as [N L].
    apply negb_true_iff in N.
    change (String c x ++ String a sep' ++ b)%string
      with (String c (x ++ String a sep' ++ b)%string).
    cbn [cut after_prefix]. rewrite N. rewrite (IH L). reflexivity.
Qed.

Lemma cut_none (a : Ascii.ascii) (sep' x : string) :
  lacks a x = true -> cut (String a sep') x = None.
Proof.
  induction x as [|c x IH]; intros L; [reflexivity|].
  cbn [lacks] in L. apply andb_true_iff in L. destruct L as [N L].
  apply negb_true_iff in N.
  cbn [cut after_prefix]. rewrite N, (IH L). reflexivity.
Qed.

Lemma split_upto_concat (a : Ascii.ascii) (sep' : string) (parts : list string) :
  forall n, (List.length parts <= S n)%nat ->
    Forall (fun p => lacks a p = true) parts -> parts <> [] ->
    split_upto n (String a sep') (String.concat (String a sep') parts) = parts.
Proof.
  induction parts as [|x parts IH]; intros n L F NE; [congruence|].
  inversion F as [|? ? Lx F']; subst.
  destruct parts as [|y parts].
  - cbn [String.concat]. destruct n; [reflexivity|].
    cbn [split_upto]. rewrite (cut_none a sep' x Lx). reflexivity.
  - change (String.concat (String a sep') (x :: y :: parts))
      with (x ++ String a sep' ++ String.concat (String a sep') (y :: parts))%string.
    destruct n as [|n]; [simpl in L; lia|].
    cbn [split_upto]. rewrite (cut_skip a sep' x _ Lx).
    rewrite IH; [reflexivity|simpl in *; lia|exact F'|discriminate].
Qed.

Lemma length_append (s t : string) :
  String.length (s ++ t)%string = (String.length s + String.length t)%nat.
Proof. induction s as [|c s IH]; [reflexivity|]. cbn [append String.length]. rewrite IH. reflexivity. Qed.

Lemma length_concat (a : Ascii.ascii) (sep' : string) (parts : list string) :
  (List.length parts <= S (String.length (String.concat (String a sep') parts)))%nat.
Proof.
  induction parts as [|x [|y parts] IH]; [simpl; lia|simpl; lia|].
  change (String.concat (String a sep') (x :: y :: parts))
    with (x ++ String a sep' ++ String.concat (String a sep') (y :: parts))%string.
  rewrite !length_append. cbn [String.length List.length] in *. lia.
Qed.

Lemma split_concat (a : Ascii.ascii) (sep' : string) (parts : list string) :
  Forall (fun p => lacks a p = true) parts -> parts <> [] ->
  split (String a sep') (String.concat (String a sep') parts) = parts.
Proof.
  intros F NE. unfold split. apply split_upto_concat; [apply length_concat|exact F|exact NE].
Qed.

Lemma append_assoc (s t u : string) : ((s ++ t) ++ u = s ++ t ++ u)%string.
Proof. induction s as [|c s IH]; [reflexivity|]. cbn [append]. rewrite IH. reflexivity. Qed.

Lemma space_is_space (c : ascii) : Ascii.eqb " "%char c = true -> is_space c = true.
Proof. intros E. apply Ascii.eqb_eq in E. subst c. reflexivity. Qed.

Lemma plain_lacks (s : string) :
  plain s = true -> lacks ","%char s = true /\ lacks " "%char s = true.
Proof.
  induction s as [|c s IH]; intros P; [split; reflexivity|].
  cbn [plain] in P. apply andb_true_iff in P. destruct P as [P Ps].
  apply andb_true_iff in P. destruct P as [Sp Co].
  destruct (IH Ps) as [L1 L2]. cbn [lacks]. rewrite L1, L2, Co. split; [reflexivity|].
  destruct (Ascii.eqb " "%char c) eqn:E; [|reflexivity].
  rewrite (space_is_space c E) in Sp. discriminate.
Qed.

Lemma lstrip_word (w t : string) : word w -> lstrip (w ++ t)%string = (w ++ t)%string.
Proof.
  intros [NE P]. destruct w as [|c w]; [congruence|].
  cbn [plain] in P. apply andb_true_iff in P. destruct P as [P _].
  apply andb_true_iff in P. destruct P as [Sp _]. apply negb_true_iff in Sp.
  cbn [append lstrip]. rewrite Sp. reflexivity.
Qed.

Lemma rstrip_blank (e : string) : blank e = true -> rstrip e = EmptyString.
Proof.
  induction e as [|c e IH]; intros B; [reflexivity|].
  cbn [blank] in B. apply andb_true_iff in B. destruct B as [Sp B].
  cbn [rstrip]. rewrite (IH B), Sp. reflexivity.
Qed.

Lemma rstrip_app_blank (s e : string) :
  blank e = true -> rstrip (s ++ e)%string = rstrip s.
Proof.
  intros B. induction s as [|c s IH]; [apply rstrip_blank; exact B|].
  cbn [append rstrip]. rewrite IH. reflexivity.
Qed.

Lemma rstrip_plain (w : string) : plain w = true -> rstrip w = w.
Proof.
  induction w as [|c w IH]; intros P; [reflexivity|].
  cbn [plain] in P. apply andb_true_iff in P. destruct P as [P Pw].
  apply andb_true_iff in P. destruct P as [Sp _]. apply negb_true_iff in Sp.
  cbn [rstrip]. rewrite (IH Pw), Sp. destruct w; reflexivity.
Qed.

Lemma rstrip_app_kept (s t : string) :
  rstrip t <> EmptyString -> rstrip (s ++ t)%string = (s ++ rstrip t)%string.
Proof.
  intros NE. induction s as [|c s IH]; [reflexivity|].
  cbn [append rstrip]. rewrite IH.
  destruct (s ++ rstrip t)%string eqn:E; [|reflexivity].
  exfalso. destruct s; [cbn [append] in E; congruence|discriminate].
Qed.

Lemma strip_plain (w : string) : plain w = true -> strip w = w.
Proof.
  intros P. unfold strip.
  assert (L : lstrip w = w).
  { destruct w as [|c w]; [reflexivity|].
    cbn [plain] in P. apply andb_true_iff in P. destruct P as [P _].
    apply andb_true_iff in P. destruct P as [Sp _]. apply negb_true_iff in Sp.
    cbn [lstrip]. rewrite Sp. reflexivity. }
  rewrite L. apply rstrip_plain. exact P.
Qed.

Section Reading.
Variable float : string -> outcome Q.
Variable value : string -> Q.

Lemma show_route_lacks_comma (r : node * string) :
  route_ok float value r -> lacks ","%char (show_route r) = true.
Proof.
  intros [[_ Pw] [[_ Pc] _]]. unfold show_route.
  rewrite !lacks_app. rewrite (proj1 (plain_lacks _ Pw)), (proj1 (plain_lacks _ Pc)).
  reflexivity.
Qed.

Lemma read_route_show (d : dict node Q) (r : node * string) :
  route_ok float value r ->
  read_route float d (show_route r) = Ok (setitem d (fst r) (value (snd r))).
Proof.
  intros [[_ Pw] [[_ Pc] F]]. unfold read_route, show_route.
  change (fst r ++ " " ++ snd r)%string with (String.concat " " [fst r; snd r]).
  rewrite (split_concat " "%char EmptyString [fst r; snd r]).
  - rewrite F. reflexivity.
  - repeat constructor; [apply (plain_lacks _ Pw)|apply (plain_lacks _ Pc)].
  - discriminate.
Qed.

Lemma read_routes_show (rs : list (node * string)) :
  Forall (route_ok float value) rs ->
  forall d,
    foldM (read_route float) (map show_route rs) d
    = Ok (fold_left (fun d kv => setitem d (fst kv) (snd kv))
            (map (fun r => (fst r, value (snd r))) rs) d).
Proof.
  induction rs as [|r rs IH]; intros F d; [reflexivity|].
  inversion F as [|? ? Fr F']; subst.
  cbn [map foldM fold_left]. rewrite (read_route_show d r Fr). cbn [bind].
  apply (IH F').
Qed.

(** The text of the routes of a line. *)
Lemma routes_text (rs : list (node * string)) :
  rs <> [] -> Forall (route_ok float value) rs ->
  let R := String.concat ", " (map show_route rs) in
  rstrip R = R /\ R <> EmptyString /\
  (forall t, lstrip (R ++ t)%string = (R ++ t)%string) /\
  split ", " R = map show_route rs.
Proof.
  intros NE F. cbn zeta.
  assert (Tail : forall r, route_ok float value r ->
            rstrip (show_route r) = show_route r /\ show_route r <> EmptyString).
  { intros r [[NEw Pw] [[NEc Pc] _]]. unfold show_route.
    rewrite <- append_assoc. rewrite rstrip_app_kept;
      rewrite (rstrip_plain _ Pc); [|exact NEc].
    split; [reflexivity|].
    destruct (fst r); [congruence|discriminate]. }
  assert (Head : forall r u, route_ok float value r ->
            lstrip (show_route r ++ u)%string = (show_route r ++ u)%string).
  { intros r u [W _]. unfold show_route. rewrite append_assoc.
    apply lstrip_word. exact W. }
  split; [|split; [|split]].
  - induction rs as [|r rs IH]; [congruence|].
    inversion F as [|? ? Fr F']; subst. destruct rs as [|r' rs].
    + apply (Tail r Fr).
    + change (String.concat ", " (map show_route (r :: r' :: rs)))
        with (show_route r ++ ", " ++ String.concat ", " (map show_route (r' :: rs)))%string.
      assert (K : rstrip (String.concat ", " (map show_route (r' :: rs)))
                  = String.concat ", " (map show_route (r' :: rs)))
        by (apply IH; [discriminate|exact F']).
      assert (N : String.concat ", " (map show_route (r' :: rs)) <> EmptyString).
      { inversion F' as [|? ? Fr' _]; subst. destruct (Tail r' Fr') as [_ N'].
        destruct rs; cbn [map String.concat];
          destruct (show_route r'); [congruence|discriminate|congruence|discriminate]. }
      rewrite <- !append_assoc. rewrite rstrip_app_kept; rewrite K; [reflexivity|exact N].
  - destruct rs as [|r rs]; [congruence|]. inversion F as [|? ? Fr _]; subst.
    destruct (Tail r Fr) as [_ N].
    destruct rs; cbn [map String.concat];
      destruct (show_route r); [congruence|discriminate|congruence|discriminate].
  - intros t. destruct rs as [|r rs]; [congruence|]. inversion F as [|? ? Fr _]; subst.
    destruct rs as [|r' rs].
    + apply (Head r t Fr).
    + change (String.concat ", " (map show_route (r :: r' :: rs)))
        with (show_route r ++ ", " ++ String.concat ", " (map show_route (r' :: rs)))%string.
      rewrite append_assoc. apply (Head r _ Fr).
  - apply (split_concat ","%char " ").
    + rewrite Forall_forall in *. intros p Ip. apply in_map_iff in Ip.
      destruct Ip as (r & <- & Ir). apply show_route_lacks_comma. apply F. exact Ir.
    + destruct rs; [congruence|discriminate].
Qed.

Lemma strip_blank (e : string) : blank e = true -> strip e = EmptyString.
Proof.
  intros B. unfold strip.
  assert (L : lstrip e = EmptyString).
  { induction e as [|c e IH]; [reflexivity|].
    cbn [blank] in B. apply andb_true_iff in B. destruct B as [Sp B].
    cbn [lstrip]. rewrite Sp. apply IH. exact B. }
  rewrite L. reflexivity.
Qed.

Lemma split_once_comma (n rest : string) :
  plain n = true -> split_once "," (n ++ "," ++ rest)%string = [n; rest].
Proof.
  intros P. unfold split_once. cbn [split_upto].
  rewrite (cut_skip ","%char EmptyString n rest (proj1 (plain_lacks n P))).
  reflexivity.
Qed.

Lemma read_line_show (eol : string) (d : cost_dict) (e : node * list (node * string)) :
  blank eol = true -> line_ok float value e ->
  read_line float d (show_line eol e)
  = Ok (setitem d (fst (entry_of value e)) (snd (entry_of value e))).
Proof.
  intros B [Pn F]. unfold read_line, show_line, entry_of. cbn [fst snd].
  destruct (snd e) as [|r rs] eqn:Ers.
  - rewrite (split_once_comma (fst e) eol Pn). cbn [map].
    rewrite (strip_plain _ Pn), (strip_blank eol B). reflexivity.
  - destruct (routes_text (r :: rs)) as (Rs & NE & Ls & Sp); [discriminate|exact F|].
    set (R := String.concat ", " (map show_route (r :: rs))) in *.
    rewrite (split_once_comma (fst e) (" " ++ R ++ eol)%string Pn). cbn [map].
    rewrite (strip_plain _ Pn).
    assert (St : strip (" " ++ R ++ eol)%string = R).
    { unfold strip. change (lstrip (" " ++ R ++ eol)%string) with (lstrip (R ++ eol)%string).
      rewrite Ls, (rstrip_app_blank R eol B). exact Rs. }
    rewrite St.
    destruct (String.length R =? 0)%nat eqn:Len.
    { apply Nat.eqb_eq in Len. destruct R; [congruence|discriminate]. }
    rewrite Sp, (read_routes_show (r :: rs) F). reflexivity.
Qed.

Lemma read_lines_show (eol : string) (es : list (node * list (node * string))) :
  blank eol = true -> Forall (line_ok float value) es ->
  forall d,
    foldM (read_line float) (map (show_line eol) es) d
    = Ok (fold_left (fun d kv => setitem d (fst kv) (snd kv))
            (map (entry_of value) es) d).
Proof.
  intros B. induction es as [|e es IH]; intros F d; [reflexivity|].
  inversion F as [|? ? Fe F']; subst.
  cbn [map foldM fold_left]. rewrite (read_line_show eol d e B Fe). cbn [bind].
  apply (IH F').
Qed.

End Reading.

(** X19.  Lines in the delivery format that the lecture describes are read
    as the entries they describe: for lines [name, node cost, node cost] (or
    [name,] for a vertex without routes) that end in white space only, whose
    names and costs are without white space and comma, the names of the
    routes and the costs not empty, [generate_path_dict] returns the
    dictionary that has, in the order of the lines, the name of each line
    with the dictionary of its routes and the numbers that [float] reads; of
    two lines or routes with the same name the later gives the value. *)
Theorem generate_path_dict_reads_the_delivery_format
  (float : string -> outcome Q) (value : string -> Q) (eol : string)
  (es : list (node * list (node * string))) :
  blank eol = true -> Forall (line_ok float value) es ->
  generate_path_dict float (map (show_line eol) es)
  = Ok (dict_of (map (entry_of value) es)).
Proof.
  intros B F. unfold generate_path_dict, dict_of.
  apply (read_lines_show float value eol es B F).
Qed.

Lemma foldM_app {A S : Type} (f : S -> A -> outcome S) (a b : list A) :
  forall s, foldM f (a ++ b) s = (s' <- foldM f a s ;; foldM f b s')%outcome.
Proof.
  induction a as [|x a IH]; intros s; [reflexivity|].
  cbn [app foldM]. destruct (f s x) as [s1| |]; cbn [bind]; [apply IH| |]; reflexivity.
Qed.

Lemma foldM_Ok_or {A S : Type} (f : S -> A -> outcome S) (e : exn) :
  (forall s x, (exists s', f s x = Ok s') \/ f s x = Raised e) ->
  forall l s, (exists s', foldM f l s = Ok s') \/ foldM f l s = Raised e.
Proof.
  intros H. induction l as [|x l IH]; intros s; [left; eexists; reflexivity|].
  cbn [foldM]. destruct (H s x) as [[s' E]|E]; rewrite E; cbn [bind];
    [apply IH|right; reflexivity].
Qed.

(** X20.  When [float] raises nothing but [ValueError],
    [generate_path_dict] raises nothing but [ValueError]; and it does raise
    it at the first line without a comma, an empty or blank line for
    instance, whatever the lines after it. *)
Theorem generate_path_dict_raises_ValueError (float : string -> outcome Q)
  (good : list string) (line : string) (rest : list string) (d : cost_dict) :
  (forall s, (exists c, float s = Ok c) \/ float s = Raised ValueError) ->
  generate_path_dict float good = Ok d -> lacks ","%char line = true ->
  generate_path_dict float (good ++ line :: rest) = Raised ValueError /\
  forall lines,
    (exists d', generate_path_dict float lines = Ok d') \/
    generate_path_dict float lines = Raised ValueError.
Proof.
  intros Fl G L. split.
  - unfold generate_path_dict in *. rewrite foldM_app, G. cbn [bind foldM].
    unfold read_line, split_once. cbn [split_upto].
    rewrite (cut_none ","%char EmptyString line L). reflexivity.
  - intros lines. unfold generate_path_dict. apply foldM_Ok_or.
    intros s x. unfold read_line.
    destruct (map strip (split_once "," x)) as [|n [|r [|]]];
      try (right; reflexivity).
    destruct (String.length r =? 0)%nat; [left; eexists; reflexivity|].
    destruct (foldM_Ok_or (read_route float) ValueError) with
      (l := split ", " r) (s := @nil (node * Q)) as [[rd E]|E].
    + intros s0 x0. unfold read_route.
      destruct (split " " x0) as [|a [|b [|]]]; try (right; reflexivity).
      destruct (Fl b) as [[c Ec]|Ec]; rewrite Ec;
        [left; eexists; reflexivity|right; reflexivity].
    + rewrite E. left; eexists; reflexivity.
    + rewrite E. right; reflexivity.
Qed.

(** * Simulation of the model *)

Lemma firstn_replace_nth {A : Type} (a : nat) (x : A) (l : list A) :
  (a < List.length l)%nat ->
  firstn (S a) (replace_nth a x l) = firstn a l ++ [x].
Proof.
  revert a; induction l as [|y l IH]; intros [|a] L; simpl in L; try lia.
  - reflexivity.
  - cbn [replace_nth]. change (firstn (S (S a)) (y :: replace_nth a x l))
      with (y :: firstn (S a) (replace_nth a x l)).
    rewrite IH by lia. reflexivity.
Qed.

Lemma skipn_replace_nth {A : Type} (a n : nat) (x : A) (l : list A) :
  (a < n)%nat -> skipn n (replace_nth a x l) = skipn n l.
Proof.
  revert a n; induction l as [|y l IH]; intros [|a] [|n] L; try lia;
    try reflexivity.
  cbn [replace_nth skipn]. apply IH. lia.
Qed.

Section Simulated.
Variable rng : Type.
Variable draw_index : list R -> rng -> Z * rng.
Variable self : HMMBB.

Lemma returns_loop_emissions (r_probs : nat -> outcome (list R))
  (bb_idx : list nat) :
  (forall bb, In bb bb_idx -> r_probs bb = Ok (emp_row self bb)) ->
  forall a realized_returns g,
    (a + List.length bb_idx <= List.length realized_returns)%nat ->
    returns_loop rng draw_index r_probs
      (combine (seq a (List.length bb_idx)) bb_idx) realized_returns g
    = (Ok (firstn a realized_returns
           ++ fst (emissions draw_index self bb_idx g)
           ++ skipn (a + List.length bb_idx) realized_returns),
       snd (emissions draw_index self bb_idx g)).
Proof.
  induction bb_idx as [|bb rest IH]; intros Rp a rr g L.
  - cbn [List.length seq combine returns_loop emissions fst snd app].
    rewrite Nat.add_0_r, firstn_skipn. reflexivity.
  - cbn [List.length seq combine returns_loop emissions].
    rewrite (Rp bb (or_introl eq_refl)).
    destruct (draw_index (emp_row self bb) g) as [x g'].
    cbn [List.length] in L.
    rewrite np_setitem_nat_Ok by lia.
    rewrite (IH (fun b I => Rp b (or_intror I)) (S a) (replace_nth a x rr) g')
      by (rewrite replace_nth_length; lia).
    destruct (emissions draw_index self rest g') as [xs g''].
    cbn [fst snd]. f_equal. f_equal.
    rewrite firstn_replace_nth by lia.
    rewrite skipn_replace_nth by lia.
    rewrite <- app_assoc. cbn [app].
    replace (S a + List.length rest)%nat with (a + S (List.length rest))%nat by lia.
    reflexivity.
Qed.

Lemma emissions_length (bb_idx : list nat) :
  forall g, List.length (fst (emissions draw_index self bb_idx g)) = List.length bb_idx.
Proof.
  induction bb_idx as [|bb rest IH]; intros g; [reflexivity|].
  cbn [emissions]. destruct (draw_index (emp_row self bb) g) as [x g'].
  specialize (IH g'). destruct (emissions draw_index self rest g') as [xs g''].
  cbn [fst] in *. simpl. rewrite IH. reflexivity.
Qed.

End Simulated.

(** X21.  When the chain's [simulate_indices(T)] returns [T] hidden states
    that are 0 or 1, the method [HMMBB.simulate] and the function
    [simulate_bb_model] on the model's transition matrix and emission rows do
    the same: both return the hidden states with [T] observations, the
    observation at [t] drawn from the emission row of the hidden state at
    [t], one draw after the other from the global generator. *)
Theorem simulate_is_simulate_bb_model (rng : Type)
  (simulate_indices : row * row -> nat -> rng -> list nat * rng)
  (draw_index : list R -> rng -> Z * rng) (self : HMMBB) (T : nat) (g : rng) :
  let bb_idx := fst (simulate_indices (P self) T g) in
  let g1 := snd (simulate_indices (P self) T g) in
  List.length bb_idx = T -> Forall (fun bb => (bb < 2)%nat) bb_idx ->
  simulate rng simulate_indices draw_index self T g
  = simulate_bb_model rng simulate_indices draw_index
      (P self) (fst (emp self)) (snd (emp self)) T g /\
  simulate rng simulate_indices draw_index self T g
  = (Ok (bb_idx, fst (emissions draw_index self bb_idx g1)),
     snd (emissions draw_index self bb_idx g1)) /\
  List.length (fst (emissions draw_index self bb_idx g1)) = T.
Proof.
  cbn zeta. unfold simulate, simulate_bb_model, enumerate.
  destruct (simulate_indices (P self) T g) as [bb_idx g1]. cbn [fst snd].
  intros Len F.
  assert (Shape : forall l : list Z,
            [] ++ l ++ skipn (0 + List.length bb_idx) (repeat 0%Z T) = l).
  { intros l. rewrite Len. rewrite skipn_all2 by (rewrite repeat_length; lia).
    cbn [app]. apply app_nil_r. }
  assert (Room : (0 + List.length bb_idx <= List.length (repeat 0%Z T))%nat)
    by (rewrite repeat_length; lia).
  assert (Method : forall bb, In bb bb_idx -> at2 (emp self) bb = Ok (emp_row self bb)).
  { intros bb I. rewrite Forall_forall in F. specialize (F bb I).
    destruct bb as [|[|bb]]; [reflexivity|reflexivity|lia]. }
  assert (Function : forall bb, In bb bb_idx ->
            (if (bb =? 0)%nat then Ok (fst (emp self)) else Ok (snd (emp self)))
            = Ok (emp_row self bb)).
  { intros bb I. unfold emp_row. destruct (bb =? 0)%nat; reflexivity. }
  rewrite (returns_loop_emissions rng draw_index self
             (fun bb => at2 (emp self) bb) bb_idx Method 0 (repeat 0%Z T) g1 Room).
  rewrite (returns_loop_emissions rng draw_index self
             (fun bb => if (bb =? 0)%nat then Ok (fst (emp self)) else Ok (snd (emp self)))
             bb_idx Function 0 (repeat 0%Z T) g1 Room).
  cbn [firstn]. rewrite Shape.
  split; [reflexivity|]. split; [reflexivity|].
  rewrite emissions_length. exact Len.
Qed.

(** X19 on the line of the lecture's example, followed by the line of a
    vertex without routes. *)
Lemma generate_path_dict_reads_the_example :
  generate_path_dict (float_of_table example_costs)
    (map (show_line line_feed) example_lines)
  = Ok (dict_of (map (entry_of (value_of_table example_costs)) example_lines)).
Proof.
  apply (generate_path_dict_reads_the_delivery_format
           (float_of_table example_costs) (value_of_table example_costs)
           line_feed example_lines).
  - reflexivity.
  - repeat constructor; try discriminate.
Defined.

(** X20 on a blank line after the lecture's example. *)
Lemma generate_path_dict_raises_ValueError_blank_line :
  generate_path_dict (float_of_table example_costs)
    (map (show_line line_feed) example_lines ++ line_feed :: []) = Raised ValueError /\
  forall lines,
    (exists d', generate_path_dict (float_of_table example_costs) lines = Ok d') \/
    generate_path_dict (float_of_table example_costs) lines = Raised ValueError.
Proof.
  apply (generate_path_dict_raises_ValueError (float_of_table example_costs)
           (map (show_line line_feed) example_lines) line_feed []
           (dict_of (map (entry_of (value_of_table example_costs)) example_lines))).
  - intros s. unfold float_of_table.
    destruct (getitem example_costs s); [left; eexists; reflexivity|right..];
      reflexivity.
  - vm_compute. reflexivity.
  - reflexivity.
Defined.

(** X21 on the lecture's model, a chain that stays in state 1 and draws that
    all give the index 2. *)
Lemma simulate_is_simulate_bb_model_lecture :
  let rng := nat in
  let simulate_indices (_ : row * row) (T : nat) (g : rng) := (repeat 1%nat T, g) in
  let draw_index (_ : list R) (g : rng) := (2%Z, S g) in
  let bb_idx := fst (simulate_indices (P lecture_hmm) 2%nat 0%nat) in
  let g1 := snd (simulate_indices (P lecture_hmm) 2%nat 0%nat) in
  simulate rng simulate_indices draw_index lecture_hmm 2 0%nat
  = simulate_bb_model rng simulate_indices draw_index
      (P lecture_hmm) (fst (emp lecture_hmm)) (snd (emp lecture_hmm)) 2 0%nat /\
  simulate rng simulate_indices draw_index lecture_hmm 2 0%nat
  = (Ok (bb_idx, fst (emissions draw_index lecture_hmm bb_idx g1)),
     snd (emissions draw_index lecture_hmm bb_idx g1)) /\
  List.length (fst (emissions draw_index lecture_hmm bb_idx g1)) = 2%nat.
Proof.
  cbn zeta.
  apply (simulate_is_simulate_bb_model nat
           (fun (_ : row * row) (T : nat) (g : nat) => (repeat 1%nat T, g))
           (fun (_ : list R) (g : nat) => (2%Z, S g)) lecture_hmm 2 0%nat).
  - reflexivity.
  - repeat constructor.
Defined.

(** ** Paths that leave the edges *)

Lemma getitem_Raised {K V : Type} `{Key K} (d : dict K V) (k : K) (e : exn) :
  getitem d k = Raised e -> e = KeyError.
Proof.
  induction d as [|[k' v] d IH]; cbn [getitem]; [congruence|].
  destruct (keyb k' k); [discriminate|exact IH].
Qed.

Lemma edge_costs_hops (self : problem) (p : list node) :
  if hops self p then exists cs, edge_costs self p = Ok cs
  else edge_costs self p = Raised KeyError.
Proof.
  induction p as [|v p IH]; [exists []; reflexivity|].
  destruct p as [|w p]; [exists []; reflexivity|].
  rewrite edge_costs_cons2.
  change (hops self (v :: w :: p))
    with (match getitem (dag self) v with
          | Ok d => match getitem d w with
                    | Ok _ => hops self (w :: p)
                    | _ => false
                    end
          | _ => false
          end).
  destruct (getitem (dag self) v) as [d|e|] eqn:Ed; cbn [bind].
  - destruct (getitem d w) as [c|e|] eqn:Ec; cbn [bind].
    + destruct (hops self (w :: p)).
      * destruct IH as [cs E]. rewrite E. eexists; reflexivity.
      * rewrite IH. reflexivity.
    + rewrite (getitem_Raised d w e Ec). reflexivity.
    + exfalso. exact (getitem_not_Running d w Ec).
  - rewrite (getitem_Raised _ v e Ed). reflexivity.
  - exfalso. exact (getitem_not_Running _ v Ed).
Qed.

(** X22.  [evaluate_path] returns a cost exactly for the paths whose every
    step is an edge of the cost dictionary (any path of fewer than two
    vertices among them, whatever the vertex); on every other path it raises
    [KeyError]. *)
Theorem evaluate_path_raises_KeyError_off_the_edges (self : problem)
  (p : list node) :
  if hops self p then exists c, evaluate_path self p = Ok c
  else evaluate_path self p = Raised KeyError.
Proof.
  unfold evaluate_path. pose proof (edge_costs_hops self p) as H.
  destruct (hops self p).
  - destruct H as [cs E]. rewrite E. eexists; reflexivity.
  - rewrite H. reflexivity.
Qed.

Lemma sweeps_last (self : problem) (n : nat) :
  forall J_n J_np1,
    sweeps self (S n) J_n J_np1
    = (' (a, b) <- sweeps self n J_n J_np1 ;; cost_sweep self a b)%outcome.
Proof.
  induction n as [|n IH]; intros J_n J_np1.
  - cbn [sweeps bind].
    destruct (cost_sweep self J_n J_np1) as [[a b]| |]; reflexivity.
  - change (sweeps self (S (S n)) J_n J_np1)
      with (' (a, b) <- cost_sweep self J_n J_np1 ;; sweeps self (S n) a b)%outcome.
    change (sweeps self (S n) J_n J_np1)
      with (' (a, b) <- cost_sweep self J_n J_np1 ;; sweeps self n a b)%outcome.
    destruct (cost_sweep self J_n J_np1) as [[a b]| |]; cbn [bind];
      [apply IH|reflexivity|reflexivity].
Qed.

(** With int costs, one sweep over a cost function with int entries gives
    int entries. *)
Lemma sweep_int (self : problem) (J : dict node Q) :
  dag_format self ->
  (forall v, In v (keys (dag self)) -> v <> terminal self ->
     exists w c, edge self v w c) ->
  int_costs self -> covers self J ->
  (forall v, In v (keys (dag self)) -> Qden (jval J v) = 1%positive) ->
  forall v, In v (keys (dag self)) -> Qden (jval (sweep self J) v) = 1%positive.
Proof.
  intros format Leaves Ints C IntJ v I. rewrite (jval_sweep self J v I).
  pose proof (bellman_total self format Leaves v J C I) as B.
  destruct (string_dec v (terminal self)) as [->|N].
  - rewrite bellman_terminal in B. injection B as <-. reflexivity.
  - destruct (Leaves v I N) as (w & c & d & G & Gw).
    destruct (bellman_inner self format v d J N G) as (m & Em & (w1 & c1 & G1 & A1) & _).
    + intros E. apply getitem_keys in Gw. rewrite E in Gw. exact Gw.
    + exact C.
    + rewrite Em in B. injection B as <-. rewrite A1.
      assert (E1 : edge self v w1 c1) by (exists d; split; assumption).
      rewrite (Qplus_int c1 (jval J w1) (Ints v w1 c1 E1)
                 (IntJ w1 (format_closed _ format v w1 c1 E1))).
      reflexivity.
Qed.

(** After the first execution of the loop body, the two dictionaries are a
    cost function over the vertices and its sweep. *)
Lemma sweeps_first_guess (self : problem) (n : nat) :
  dag_format self ->
  (forall v, In v (keys (dag self)) -> v <> terminal self ->
     exists w c, edge self v w c) ->
  int_costs self ->
  exists J,
    covers self J /\
    (forall v, In v (keys (dag self)) -> Qden (jval J v) = 1%positive) /\
    sweeps self (S n) (fst (first_guess self)) (snd (first_guess self))
    = Ok (J, sweep self J).
Proof.
  intros format Leaves Ints.
  pose proof (format_keys _ format) as ND.
  unfold first_guess. cbn [fst snd].
  rewrite !dict_of_NoDup by (rewrite map_map; simpl; rewrite map_id; exact ND).
  set (J100 := map (fun v => (v, 100%Q)) (keys (dag self))).
  set (J0 := map (fun v => (v, 0%Q)) (keys (dag self))).
  assert (C100 : covers self J100) by apply keys_map_pair.
  assert (C0 : covers self J0) by apply keys_map_pair.
  induction n as [|n (J & C & IntJ & E)].
  - exists J0. split; [exact C0|]. split.
    + intros v I. unfold J0. rewrite jval_const by exact I. reflexivity.
    + cbn [sweeps]. rewrite (cost_sweep_eq self format Leaves J100 J0 C100 C0).
      reflexivity.
  - exists (sweep self J). split; [apply covers_sweep|]. split.
    + apply (sweep_int self J format Leaves Ints C IntJ).
    + rewrite sweeps_last, E. cbn [bind].
      apply (cost_sweep_eq self format Leaves J (sweep self J) C (covers_sweep self J)).
Qed.

(** X23.  From the second sweep on, the number that the loop of
    [find_cost_function] tests does not grow: on a cost dictionary in the
    format without dead ends whose costs are Python ints, what [compare_J]
    returns on the dictionaries after [n + 2] executions of the loop body is
    an int, at most what it returns on those after [n + 1]. *)
Theorem the_tested_distance_does_not_grow (self : problem) (n : nat)
  (A B A' B' : dict node Q) (d d' : Q) :
  dag_format self ->
  (forall v, In v (keys (dag self)) -> v <> terminal self ->
     exists w c, edge self v w c) ->
  int_costs self ->
  sweeps self (S n) (fst (first_guess self)) (snd (first_guess self)) = Ok (A, B) ->
  sweeps self (S (S n)) (fst (first_guess self)) (snd (first_guess self))
  = Ok (A', B') ->
  compare_J self A B = Ok d -> compare_J self A' B' = Ok d' ->
  (d' <= d)%Q /\ Qden d' = 1%positive.
Proof.
  intros format Leaves Ints E1 E2 Ed Ed'.
  destruct (sweeps_first_guess self n format Leaves Ints) as (J & CJ & IntJ & EJ).
  rewrite EJ in E1. injection E1 as <- <-.
  rewrite sweeps_last, EJ in E2. cbn [bind] in E2.
  pose proof (covers_sweep self J) as Cs.
  rewrite (cost_sweep_eq self format Leaves J (sweep self J) CJ Cs) in E2.
  injection E2 as <- <-.
  pose proof (covers_sweep self (sweep self J)) as Css.
  pose proof (sweep_int self J format Leaves Ints CJ IntJ) as IntS.
  pose proof (sweep_int self _ format Leaves Ints Cs IntS) as IntSS.
  assert (NE : keys (dag self) <> []).
  { intros K. unfold compare_J in Ed. rewrite K in Ed. discriminate. }
  destruct (compare_J_spec self (sweep self J) (sweep self (sweep self J))
              Cs Css NE) as (d0 & Ed0 & (v0 & I0 & A0) & _).
  rewrite Ed' in Ed0. injection Ed0 as <-. split.
  2:{ rewrite A0. specialize (IntS v0 I0). specialize (IntSS v0 I0).
      destruct (jval (sweep self J) v0) as [a m],
               (jval (sweep self (sweep self J)) v0) as [b m'].
      simpl in IntS, IntSS. subst m m'. reflexivity. }
  rewrite A0.
  rewrite !jval_sweep by exact I0.
  pose proof (bellman_total self format Leaves v0 J CJ I0) as B0.
  pose proof (bellman_total self format Leaves v0 (sweep self J) Cs I0) as B1.
  destruct (String.eqb v0 (terminal self)) eqn:T.
  - apply String.eqb_eq in T. subst v0. rewrite bellman_terminal in B0, B1.
    injection B0 as <-. injection B1 as <-.
    destruct (compare_J_spec self J (sweep self J) CJ Cs NE)
      as (d1 & Ed1 & (v1 & _ & A1) & _).
    rewrite Ed in Ed1. injection Ed1 as ->.
    setoid_replace (0 - 0)%Q with 0%Q by ring. rewrite A1. apply Qabs_nonneg.
  - apply String.eqb_neq in T.
    destruct (bellman_compare self v0 J (sweep self J) _ _ format CJ Cs T B0 B1)
      as (w1 & w2 & c1 & c2 & D1 & D2 & A1 & A2 & U1 & U2).
    pose proof (format_closed _ format v0 w1 c1 D1) as I1.
    pose proof (format_closed _ format v0 w2 c2 D2) as I2.
    destruct (compare_J_spec self J (sweep self J) CJ Cs NE)
      as (d1 & Ed1 & _ & Ld).
    rewrite Ed in Ed1. injection Ed1 as ->.
    pose proof (Ld w1 I1) as L1. pose proof (Ld w2 I2) as L2.
    apply Qabs_Qle_condition in L1. apply Qabs_Qle_condition in L2.
    apply Qabs_Qle_condition. rewrite A1 in *. rewrite A2 in *. split; lra.
Qed.

(** X23 on the lecture's graph, after the first and the second execution of
    the loop body. *)
Lemma the_tested_distance_does_not_grow_simple :
  exists A B A' B' d d',
    sweeps simple_problem 1 (fst (first_guess simple_problem))
      (snd (first_guess simple_problem)) = Ok (A, B) /\
    sweeps simple_problem 2 (fst (first_guess simple_problem))
      (snd (first_guess simple_problem)) = Ok (A', B') /\
    compare_J simple_problem A B = Ok d /\
    compare_J simple_problem A' B' = Ok d' /\
    (d' <= d)%Q /\ Qden d' = 1%positive.
Proof.
  do 6 eexists.
  split; [vm_compute; reflexivity|].
  split; [vm_compute; reflexivity|].
  split; [vm_compute; reflexivity|].
  split; [vm_compute; reflexivity|].
  apply (the_tested_distance_does_not_grow simple_problem 0
           [("A", 0); ("B", 0); ("C", 0); ("D", 0); ("E", 0); ("F", 0); ("G", 0)]%Q
           [("A", 1); ("B", 6); ("C", 2); ("D", 4); ("E", 4); ("F", 1); ("G", 0)]%Q
           [("A", 1); ("B", 6); ("C", 2); ("D", 4); ("E", 4); ("F", 1); ("G", 0)]%Q
           [("A", 7); ("B", 10); ("C", 3); ("D", 5); ("E", 4); ("F", 1); ("G", 0)]%Q).
  - apply formatb_format. vm_compute. reflexivity.
  - exact simple_problem_leaves.
  - apply wholeb_int_costs. vm_compute. reflexivity.
  - vm_compute. reflexivity.
  - vm_compute. reflexivity.
  - vm_compute. reflexivity.
  - vm_compute. reflexivity.
Defined.

(** ** When [ffbs] returns *)

Lemma Forall_replace_nth_lt (n x : nat) (xs : list nat) :
  (x < 2)%nat -> Forall (fun y => (y < 2)%nat) xs ->
  Forall (fun y => (y < 2)%nat) (replace_nth n x xs).
Proof. intros Lx F. apply Forall_replace_nth; assumption. Qed.

Section Sampled.
Variable self : HMMBB.
Variable rng : Type.
Variable draw : row -> rng -> nat * rng.
Hypothesis draw_state : forall q g, (fst (draw q g) < 2)%nat.
Variable T : nat.
Variable betas : list row.
Hypothesis betas_rows : List.length betas = T.

Lemma ffbs_step_returns (s : sampler) (t : nat) (g : rng) :
  List.length (x_sample s) = T -> (t < T)%nat ->
  Forall (fun y => (y < 2)%nat) (x_sample s) ->
  exists s',
    ffbs_step self rng draw betas s t g = (Ok s', snd (draw (sample_probs s) g)) /\
    List.length (x_sample s') = T /\
    Forall (fun y => (y < 2)%nat) (x_sample s').
Proof.
  intros Len Lt F. unfold ffbs_step.
  pose proof (draw_state (sample_probs s) g) as Lx.
  destruct (draw (sample_probs s) g) as [x g'] eqn:Ed. cbn [fst snd] in *.
  rewrite np_setitem_nat_Ok by lia. cbn [bind].
  assert (Len' : List.length (replace_nth t x (x_sample s)) = T)
    by (rewrite replace_nth_length; exact Len).
  assert (F' : Forall (fun y => (y < 2)%nat) (replace_nth t x (x_sample s)))
    by (apply Forall_replace_nth_lt; assumption).
  destruct (0 <? Z.of_nat t - 1)%Z eqn:Guard.
  - apply Z.ltb_lt in Guard.
    rewrite (np_item_nat_Ok _ t 0%nat) by lia. cbn [bind].
    rewrite nth_replace_nth_same by lia.
    assert (Ec : exists c, P_col self x = Ok c)
      by (destruct x as [|[|x]]; [eexists; reflexivity|eexists; reflexivity|lia]).
    destruct Ec as [c Ec]. rewrite Ec. cbn [bind].
    replace (Z.of_nat t - 1)%Z with (Z.of_nat (t - 1)) by lia.
    rewrite (np_item_nat_Ok betas (t - 1) (0, 0)%R) by lia. cbn [bind].
    eexists. split; [reflexivity|]. cbn [x_sample]. split; assumption.
  - eexists. split; [reflexivity|]. cbn [x_sample]. split; assumption.
Qed.

Lemma ffbs_loop_returns (ts : list nat) :
  Forall (fun t => (t < T)%nat) ts ->
  forall s g,
    List.length (x_sample s) = T ->
    Forall (fun y => (y < 2)%nat) (x_sample s) ->
    exists s' g',
      ffbs_loop self rng draw betas ts s g = (Ok s', g') /\
      List.length (x_sample s') = T /\
      Forall (fun y => (y < 2)%nat) (x_sample s').
Proof.
  induction ts as [|t ts IH]; intros Ft s g Len F.
  - exists s, g. split; [reflexivity|split; assumption].
  - inversion Ft as [|t0 ts0 Lt Ft' [Et Ets]]. cbn [ffbs_loop].
    destruct (ffbs_step_returns s t g Len Lt F) as (s1 & E1 & Len1 & F1).
    rewrite E1. apply (IH Ft' s1 _ Len1 F1).
Qed.

End Sampled.

(** X24.  For a model whose two emission rows have [k] entries and a sampler
    that draws a state 0 or 1, [ffbs] on a non-empty list of observations that
    are indexes from [-k] to [k - 1] returns a path with one state, 0 or 1,
    per observation; on an empty list or with an observation out of that
    range it raises [IndexError] before it has drawn anything: the global
    generator is left as it was. *)
Theorem ffbs_returns_states_or_raises_IndexError (self : HMMBB) (rng : Type)
  (draw : row -> rng -> nat * rng) (k : nat) (ys : list Z) (g : rng) :
  List.length (fst (emp self)) = k -> List.length (snd (emp self)) = k ->
  (forall q g0, (fst (draw q g0) < 2)%nat) ->
  (ys <> [] -> Forall (valid_index k) ys ->
     exists xs g',
       ffbs self rng draw ys g = (Ok xs, g') /\
       List.length xs = List.length ys /\
       Forall (fun x => (x < 2)%nat) xs) /\
  (ys = [] \/ Exists (fun y => ~ valid_index k y) ys ->
     ffbs self rng draw ys g = (Raised IndexError, g)).
Proof.
  intros Bear Bull Draw. split.
  - intros NE F.
    assert (O : Forall (observable self) ys).
    { rewrite Forall_forall in *. intros y I.
      apply (valid_observable self k Bear Bull y (F y I)). }
    destruct (forward_rows self ys NE O) as (alphas & Ea & La).
    destruct (backward_rows self ys NE O) as (betas & Eb & Lb & _).
    assert (Ef : exists f, np_item (filter_probabilities alphas) (-1) = Ok f).
    { eexists. apply (np_item_last _ (0, 0)%R).
      unfold filter_probabilities. intros K. apply map_eq_nil in K.
      rewrite K in La. destruct ys; [congruence|discriminate]. }
    destruct Ef as [f Ef].
    destruct (ffbs_loop_returns self rng draw Draw (List.length ys) betas Lb
                (rev (seq 0 (List.length ys)))) with
      (s := {| x_sample := repeat 0%nat (List.length ys); sample_probs := f;
               drawn_from := [] |}) (g := g) as (s' & g' & El & Ls & Fs).
    + apply Forall_forall. intros t I. apply in_rev in I. apply in_seq in I. lia.
    + apply repeat_length.
    + apply Forall_forall. intros x I. apply repeat_spec in I. lia.
    + exists (x_sample s'), g'. split; [|split; assumption].
      unfold ffbs, ffbs_run. rewrite Ea, Eb. cbn [bind]. rewrite Ef. cbn [bind].
      rewrite El. reflexivity.
  - intros Bad.
    assert (Ea : forward self ys = Raised IndexError).
    { destruct Bad as [->|X]; [reflexivity|].
      destruct ys as [|y0 ys]; [inversion X|]. cbn [forward].
      destruct (valid_index_dec k y0) as [V|V].
      - rewrite (emp_col_observable self y0 (valid_observable self k Bear Bull y0 V)).
        cbn [bind]. rewrite (forward_loop_invalid self k Bear Bull ys);
          [reflexivity|].
        inversion X as [? ? V0|? ? X0]; [contradiction|assumption].
      - rewrite (invalid_emp_col self k Bear y0 V). reflexivity. }
    unfold ffbs, ffbs_run. rewrite Ea. reflexivity.
Qed.

Lemma binary_draw_state (q : row) (g : nat -> R) : (fst (binary_draw q g) < 2)%nat.
Proof. unfold binary_draw. cbn [fst]. destruct (Rle_dec (fst q) (g 0%nat)); lia. Qed.

(** X24 on the lecture's model: the observations [1, 1] give two states, the
    observations [1, 3] raise [IndexError] and leave the generator alone. *)
Lemma ffbs_returns_states_or_raises_IndexError_lecture :
  (exists xs g',
     ffbs lecture_hmm (nat -> R) binary_draw [1; 1]%Z high_then_low = (Ok xs, g') /\
     List.length xs = 2%nat /\
     Forall (fun x => (x < 2)%nat) xs) /\
  ffbs lecture_hmm (nat -> R) binary_draw [1; 3]%Z high_then_low =
    (Raised IndexError, high_then_low).
Proof.
  split.
  - apply (proj1 (ffbs_returns_states_or_raises_IndexError lecture_hmm (nat -> R)
                    binary_draw 3 [1; 1]%Z high_then_low eq_refl eq_refl
                    binary_draw_state)).
    + discriminate.
    + repeat constructor; unfold valid_index; cbn; lia.
  - apply (proj2 (ffbs_returns_states_or_raises_IndexError lecture_hmm (nat -> R)
                    binary_draw 3 [1; 3]%Z high_then_low eq_refl eq_refl
                    binary_draw_state)).
    right. apply Exists_cons_tl. apply Exists_cons_hd. unfold valid_index. cbn. lia.
Defined.

(** [ffbs] returns on three observations of the lecture's model. *)
Lemma ffbs_lecture_returns :
  exists xs g',
    ffbs lecture_hmm (nat -> R) binary_draw [1; 1; 1]%Z high_then_low = (Ok xs, g').
Proof.
  assert (O : Forall (observable lecture_hmm) [1; 1; 1]%Z)
    by (repeat constructor; exists (0.25, 0.3)%R; reflexivity).
  assert (NE : [1; 1; 1]%Z <> []) by discriminate.
  destruct (forward_rows lecture_hmm _ NE O) as (alphas & Ea & La).
  destruct (backward_rows lecture_hmm _ NE O) as (betas & Eb & Lb & _).
  assert (Ef : exists f, np_item (filter_probabilities alphas) (-1) = Ok f).
  { eexists. apply (np_item_last _ (0, 0)%R).
    unfold filter_probabilities. intros K. apply map_eq_nil in K.
    rewrite K in La. discriminate. }
  destruct Ef as [f Ef].
  destruct (ffbs_loop_returns lecture_hmm (nat -> R) binary_draw binary_draw_state
              3 betas Lb (rev (seq 0 3))) with
    (s := {| x_sample := repeat 0%nat 3; sample_probs := f; drawn_from := [] |})
    (g := high_then_low) as (s' & g' & El & _).
  - repeat constructor.
  - reflexivity.
  - repeat constructor.
  - exists (x_sample s'), g'. unfold ffbs, ffbs_run. rewrite Ea, Eb. cbn [bind].
    rewrite Ef. cbn [bind]. cbn [List.length]. rewrite El. reflexivity.
Qed.

(** X1 on the lecture's model and the observations [1, 1, 1]. *)
Lemma ffbs_distributions_lecture :
  exists xs g',
    ffbs lecture_hmm (nat -> R) binary_draw [1; 1; 1]%Z high_then_low = (Ok xs, g') /\
    exists alphas betas f (D : nat -> row) (G : nat -> nat -> R),
      forward lecture_hmm [1; 1; 1]%Z = Ok alphas /\
      backward lecture_hmm [1; 1; 1]%Z = Ok betas /\
      np_item (filter_probabilities alphas) (-1) = Ok f /\
      List.length xs = 3%nat /\ (1 <= 3)%nat /\
      D 2%nat = f /\
      (forall t, (1 <= t)%nat -> (S t < 3)%nat ->
         exists x, nth_error xs (S t) = Some x /\
                   backward_probs lecture_hmm betas t x = Ok (D t)) /\
      ((2 <= 3)%nat -> D 0%nat = D 1%nat) /\
      G 2%nat = high_then_low /\
      (forall t, (S t < 3)%nat ->
         G t = snd (binary_draw (D (S t)) (G (S t)))) /\
      (forall t, (t < 3)%nat ->
         nth_error xs t = Some (fst (binary_draw (D t) (G t)))) /\
      g' = snd (binary_draw (D 0%nat) (G 0%nat)).
Proof.
  destruct ffbs_lecture_returns as (xs & g' & E).
  exists xs, g'. split; [exact E|].
  exact (ffbs_distributions lecture_hmm (nat -> R) binary_draw [1; 1; 1]%Z
           high_then_low g' xs E).
Defined.

(** * The probability tables in floating point *)

Section FloatFacts.
Import Floats.PrimFloat Floats.SpecFloat Floats.FloatOps Floats.FloatAxioms.
Local Open Scope float_scope.


End FloatFacts.

Section Floating.
Import Floats.PrimFloat.
Local Open Scope float_scope.

Section FloatTables.
Variable self : Binary64.HMMBB.
Variable k : nat.
Hypothesis bear_row : List.length (fst (Binary64.emp self)) = k.
Hypothesis bull_row : List.length (snd (Binary64.emp self)) = k.





End FloatTables.





End Floating.
